(* ===== verification/_CoqProject ===== *)
-Q . S2P
Prelude.v
JsString.v
JsValue.v
Decimal.v
Json.v
Message.v
Task.v
ChatApi.v
Transport.v
Store.v
World.v
Typing.v
Wire.v
Exchange.v
Reply.v
Safety.v
Ordering.v
Input.v
View.v
Page.v
Ui.v
Session.v
Dialogue.v
Screen.v
Scenarios.v
Requirements.v
