(* ===== verification/Prelude.v ===== *)
(** * GroBot chat front end: a verification development

    The program is the TypeScript front end of GroBot, a chat client.  A
    Zustand store owns the conversation (store/chatStore.ts); its one
    asynchronous action calls the HTTP client (api/chat.ts); two React
    components render the store and feed it the user's input
    (components/ChatInterface.tsx, components/InputArea.tsx); the page
    mounts one [ChatInterface] inside the document shell (page.tsx,
    layout.tsx).  The server behind the endpoint is not part of the
    sources: it appears as a [Server], a function from a request to the
    way [fetch] settles.

    ** How the parts interact

    The user types into the textarea of [InputArea] and presses Enter or
    the button.  [handleSend] trims the draft and, when it is not empty
    and no request is in flight, calls the [onSendMessage] prop, which
    [ChatInterface] has bound to the store's [addMessage].  [addMessage]
    appends the user's message, raises [isLoading], and awaits
    [sendChatMessage] on the system message followed by the history.
    [sendChatMessage] hands [fetch] the JSON text of the request,
    awaits it, rejects a status outside the success range, awaits [response.json()], and returns the body
    unchecked.  Back in the store, the reply is appended or the error is
    recorded, and [isLoading] goes down.  [ChatInterface] renders the
    messages, the loading indicator and the error, and scrolls to the
    end whenever the store assigns a new [messages] array.

    ** Files, in dependency order

    - [Prelude] (this file): [outcome], the two ways a promise settles;
      the interface [MonadLaws]; [extends_by], growth of a list by
      append; lemmas on lists shared by the components; the hint
      databases [grobot] and [grobot_rw].
    - [JsString]: the string operations the sources call, [trim] (with
      [is_whitespace]), [includes], and the decimal rendering of a status.
    - [JsValue]: [JsVal], the values a JSON body denotes plus [undefined];
      [Thrown], what a [throw] carries; [get_prop], [truthy],
      [instanceof_Error].
    - [Decimal]: the numerals of JSON text: [print_number] writes the
      decimal expansion of a rational, [parse_number] reads the number
      grammar, [decimal] says which rationals a numeral denotes.
    - [Json]: [JSON.stringify] as [print_value] and [stringify], with
      the escapes of strings, [undefined] properties left out and
      [undefined] elements written [null]; [parse], a reader of the JSON
      grammar whose result is a [Read] (a value, a text that is not
      JSON, or a text beyond the model); [JSON_parse], what
      [response.json()] settles with, the message of the error left to
      the class [Engine]; [wire_value], the values a text denotes.
    - [Message]: the interfaces of api/chat.ts ([Message], [ChatRequest],
      [ChatResponse_typed]), [role_name], [API_BASE_URL], and the two
      Fetch records [RequestInit] and [Response].
    - [Task]: [async] functions as finite trees [Task St A] with a bind
      and [try_catch]; [run], one turn of the event loop; [resume], the
      settling of an awaited promise; [finish], a task carried through
      its replies by a [Server]; the predicates [store_free], [no_throw],
      [writes_last], [guarantee], [settles_within] and their closure
      under the operations; the monad laws up to [task_equiv].
    - [ChatApi]: the class [ChatApi], what the store needs of the client
      (it never writes the store, it suspends a bounded number of times).
    - [Transport]: [sendChatMessage] of api/chat.ts with [chat_url],
      [chat_init], [http_error]; the reference [exchange_result]; the
      instance [transport_api] of [ChatApi].
    - [Store]: chatStore.ts.  [ChatState], [initial_state],
      [SYSTEM_MESSAGE]; Zustand's [set] as the shallow [merge] of a
      [PartialState], whose fields are assigned, spread or left out
      ([Field]); the objects of the five [set] calls, [user_update],
      [assistant_update], [failure_update], [clear_update],
      [error_update], and [SetCall], their names; [addMessage],
      [clearMessages], [setError], written against [ChatApi]; the
      relations [store_write], [resolve_write], [action_write] on
      states.
    - [World]: the store as the singleton it is.  A [World] is the
      machine with the suspended calls of [addMessage]; an [Event] is a
      call of an action or a settling promise; [step] and [Step] are the
      transitions, [reachable] their closure, [world_ok] the invariant,
      [Effect] what a step may change, [settling] the events that carry
      one suspended call to its end, [issued] the request an event
      sends.
    - [Typing]: the annotation [content: string] as an invariant of the
      world: [keeps_typed], what a suspended call does to a typed store
      under typed replies, and [typed_world].
    - [Wire]: the body of the request: [request_value], the object
      handed to [JSON.stringify], [request_text], its text, and
      [received], what a reader of the text finds.
    - [Exchange]: one submission with the real client, carried through
      by [finish]: success, HTTP failure, transport fault, unreadable
      body, missing field, and the first turn's request.
    - [Reply]: the answer as a text: [text_response], the [Response] a
      status and a body text give; a [Backend] on JSON values behind
      the two texts ([wire_server]) and without them ([value_server]).
    - [Safety]: what holds in every reachable world, for every client.
    - [Ordering]: the order of questions and replies under overlapping
      submissions: [said], [questions_first], and the account [owed]
      that a run keeps.
    - [Input]: module [InputArea], InputArea.tsx: [handleSend],
      [handleKeyPress], [handleChange] as lists of effects, [render].
    - [View]: module [ChatInterface], ChatInterface.tsx: [render], the
      children of the log, and the auto-scroll effect
      [useEffect_scroll] after a [Commit].
    - [Page]: module [Page], page.tsx and layout.tsx: [Home],
      [RootLayout] and [metadata] as constant element trees.
    - [Ui]: the application: the draft beside the world, stepped by DOM
      events ([ui_step]); the specification's state machine [SpecStep];
      the invariants [single_flight] and [dialogue].
    - [Session]: the application seen from the network: the two
      suspensions of a submission ([awaiting_fetch], [awaiting_json])
      and the requests of a run ([Ui.ui_requests]) as a [chain].
    - [Dialogue]: whole rounds of question and answer: [turn],
      [converse], the reference [reference_turn], the [transcript] of a
      backend.
    - [Screen]: what is on the screen: [screen], the render of
      [ChatInterface] with the render of its [InputArea], over the
      states of the application, and [delivered], the events a
      browser dispatches.
    - [Scenarios]: termination, clearing, and the hazards of
      overlapping submissions.
    - [Requirements]: requirements.txt, the one file of the back end:
      [requirements_txt], the lines; [read_line] and [print_line],
      the form of a line; [requirements], what the file pins.

    ** What the theorems show

    - Functional behaviour of a submission on every branch ([Exchange]):
      the request is one POST with the system message first and the two
      sampling parameters; success appends exactly two messages; every
      failure keeps the user's message, lowers the flag and sets the
      error; the whole exchange equals the reference
      [settled (exchange_result _)].
    - Invariants under every interleaving of actions and settling
      promises, for every client ([Safety]): no stored system message,
      growth by append or reset, no unhandled rejection, one write per
      resolution, the error field changes only as the events allow.
    - Order ([Ordering.questions_precede_replies]): as long as the
      conversation is not cleared under a request in flight, every
      prefix of it holds at least as many messages of the user as of
      the assistant, however the submissions overlap.
    - Termination ([Scenarios.submission_terminates]): with as many
      replies as the client awaits a submission returns normally; and
      under interleaving ([Safety.pending_request_completes]) at most
      [chat_awaits] settle events end a suspended submission.
    - Typing ([Exchange.submission_keeps_typed]): the stored messages
      keep string contents exactly when the reply read is a string; and
      under every interleaving ([Typing.typed_replies_keep_types]) they
      do as long as every successful reply carries a string.
    - Bounds ([Safety.conversation_bounds]): the conversation and the
      requests in flight are bounded by the number of submissions, and
      so is every transmitted list.
    - The wire ([Wire], on [Json] and [Decimal]): the text of a value
      reads back as the value ([Json.parse_print], from
      [Decimal.parse_print_number] for numerals and
      [Json.parse_chars_print] for strings); the body of a request reads
      back as the messages in order with the two sampling parameters,
      a message whose content is [undefined] travels without its
      content, and in every world reached under typed replies the
      request of a submission carries the system message, the whole
      conversation and the new message with their contents.
    - The answer ([Reply]): the two texts are transparent: a typed
      submission against a backend behind them ends as against the
      backend on values ([Reply.wire_transparent]); a body that is not
      JSON, sent with a success status, takes the failure path with
      the engine's message ([Reply.unparsable_reply_fails]).  That
      what [json()] settles with does not depend on the reader's fuel
      is a lemma about the model ([Reply.response_json_decided]), not
      a property of the program.
    - The requests of a session ([Session.session_requests]): each
      carries the system message and the conversation so far, ending
      with the user's message, and extends the one before it.
    - Composition ([Dialogue]): for every server, a dialogue through
      the view, the store and the client ends in the state the
      reference of one exchange gives when folded over the questions
      ([Dialogue.dialogue_refines_reference], by
      [World.call_settling_finish], which ties the scheduler of the
      world to [finish]); behind the wire and with an obliging backend
      the conversation is the transcript of questions and answers
      ([Dialogue.dialogue_over_the_wire]).
    - The components ([Input], [View]): the guard of [handleSend], the
      agreement of the button's state with it, Enter without Shift,
      what the log displays, and when the view scrolls.
    - Refinement ([Ui]): driven through the view the store has at most
      one request in flight, every run is a run of the specification's
      state machine, every assistant message follows a user message.
    - The screen ([Screen.screen_reflects_application]): in every
      reachable state the controls are disabled and [Thinking...] is
      shown exactly while a request is in flight, the button is
      enabled exactly when a click sends, and the handlers do nothing
      behind a disabled control; after a dialogue the log is the
      transcript ([Screen.dialogue_on_screen]).
    - Recovery ([Screen.application_recovers], by
      [Dialogue.network_settles]): from every reachable state,
      whatever the server answers, at most [chat_awaits] settled
      promises bring the application back to a state with no request
      in flight, the controls enabled and the draft untouched.
    - The dependency list ([Requirements]): every line of the form
      reads back ([Requirements.read_print_line]), and the file reads
      as seventeen pins, none twice
      ([Requirements.requirements_read],
      [Requirements.requirements_pinned_once]).
    - The limits of the store on its own ([Scenarios]): it accepts
      overlapping submissions, stores replies in order of arrival,
      writes a late reply into a cleared conversation, and keeps an
      error across a success.

    ** Bounds and fuel

    [finish n] answers at most [n] suspensions.  [sendChatMessage]
    awaits twice ([fetch], then [json()]), so [transport_api] has
    [chat_awaits := 2] and the exchange theorems use [finish 2];
    [Task.finish_settles] proves that [chat_awaits] replies are enough
    for every client, whatever the server answers.  Task trees are
    inductive: every [async] function of the sources is loop-free.
    Strings are sequences of the code units 0-255.  Numbers are
    rationals; the sources only carry the literals 0.7 and 500 and an
    HTTP status, a natural number.

    [Json.parse_value] recurses on fuel, one unit per value, element
    and member.  [Json.parse] gives [Json.parse_fuel], twice the length
    of its input plus one, and that is enough for every text, in both
    directions: a value found with any fuel is found with the length
    of the text ([Json.parse_value_fuel], since each level consumes a
    character), and from [parse_fuel] on more fuel changes no outcome
    ([Json.parse_value_stable]), so a refusal is final.  [Json.weight]
    is the fuel the text of a value takes and [Json.weight_length]
    bounds it by the length of the text.  [Decimal.print_number] looks for the
    number of fraction digits among 0 to [Decimal.max_scale] = 24, more
    than a double has significant digits; [Decimal.decimal] holds of
    the rationals in lowest terms for which the search succeeds, and
    the round trip is stated for those.  The digits of a natural number
    are produced with fuel [log2 n + 1], enough by
    [Decimal.natural_fuel].  [Requirements.read_release] takes the
    length of the text as fuel, one unit a number, enough by
    [Requirements.read_print_release].

    ** What is not modelled

    [JSON.stringify] and [response.json()] are the browser's, not the
    repository's: [Json] is a model of them written from the language
    standard, and only their calls in api/chat.ts are translations of
    source lines.
    The message of the [SyntaxError] with which [response.json()]
    rejects: the language does not fix it, and it is a parameter
    ([Json.Engine]).  Code units above 255: a text with an escape of
    one is [Json.Beyond], and [Json.JSON_parse] says nothing of it;
    for the same reason [JsString.trim] strips the white space among
    the code units 0-255 (9-13, 32 and 160), and the line and
    paragraph separators, the wide spaces and the byte order mark are
    outside the model.
    The exponent notation JavaScript uses for numbers below 1e-6 or
    from 1e21 on ([Decimal.print_number] always writes plain notation,
    which denotes the same number).  Zustand's subscriptions and
    selectors: the components read the store of the render they are
    in.
    The order of microtasks inside one turn of the event loop; React's
    scheduling of renders (a handler sees the props of a render that
    reflects the store, and the effect runs once per write); class
    names of the elements of the two components; [MessageBubble] and
    the UI kit's [Button], whose files are not part of the sources.
    The Python back end: the sources hold only the list of its
    dependencies, which [Requirements] has as data; there is no
    behaviour of it to model.  [Requirements.read_line] reads the
    form the file is in (a name, [==], a release), not the whole
    grammar of a requirement.
*)

From stdpp Require Export base tactics option list relations.

(** [naive_solver] clears hypotheses it has already used up. *)
#[export] Set Warnings "-clear-no-such-hyp".

(** ** Settled promises

    A JavaScript promise settles in one of two ways; [await] turns the
    second into a [throw].  [E] is the type of thrown values. *)

Inductive outcome (E A : Type) : Type :=
| Fulfilled (a : A)
| Rejected (e : E).

Arguments Fulfilled {E A} a.
Arguments Rejected {E A} e.

#[export] Instance outcome_eq_dec `{EqDecision E, EqDecision A} :
  EqDecision (outcome E A).
Proof. solve_decision. Defined.

Definition is_fulfilled {E A} (o : outcome E A) : bool :=
  match o with Fulfilled _ => true | Rejected _ => false end.

#[export] Instance outcome_ret {E} : MRet (outcome E) := λ _ a, Fulfilled a.

#[export] Instance outcome_bind {E} : MBind (outcome E) := λ _ _ f o,
  match o with Fulfilled a => f a | Rejected e => Rejected e end.

#[export] Instance outcome_fmap {E} : FMap (outcome E) := λ _ _ f o,
  match o with Fulfilled a => Fulfilled (f a) | Rejected e => Rejected e end.

(** ** Monad laws, up to a chosen equivalence

    The task monad of [Task] carries continuations, so its laws hold up to
    pointwise equality of continuations; [outcome] satisfies them up to [=]. *)

Class MonadLaws (M : Type → Type) `{MRet M, MBind M}
    (R : ∀ A, relation (M A)) : Prop := {
  monad_left_id {A B} (a : A) (f : A → M B) : R B (mret a ≫= f) (f a);
  monad_right_id {A} (m : M A) : R A (m ≫= mret) m;
  monad_assoc {A B C} (m : M A) (f : A → M B) (g : B → M C) :
    R C ((m ≫= f) ≫= g) (m ≫= (λ a, f a ≫= g));
}.

(** ** Growth of a list by append

    The store only ever appends to its message list or resets it;
    [extends_by n l l'] says that [l'] is [l] with exactly [n] elements
    appended. *)

Definition extends_by {A} (n : nat) (l l' : list A) : Prop :=
  ∃ k, l' = l ++ k ∧ length k = n.

(** ** Tactics *)

(** Case analysis on every [outcome] in the context. *)
Ltac destruct_outcomes :=
  repeat match goal with
  | o : outcome _ _ |- _ => destruct o
  end.

Create HintDb grobot discriminated.
Create Rewrite HintDb grobot_rw.

(** ** Lemmas *)

Section outcome_lemmas.
Context {E : Type}.

#[export] Instance outcome_monad_laws : MonadLaws (outcome E) (λ A, eq).
Proof. split; [done | by intros A [] | by intros A B C [] f g]. Qed.

Lemma outcome_bind_fulfilled {A B} (o : outcome E A) (f : A → outcome E B) b :
  o ≫= f = Fulfilled b ↔ ∃ a, o = Fulfilled a ∧ f a = Fulfilled b.
Proof.
  destruct o as [a|e]; simpl; split; try done.
  - intros Hf. by exists a.
  - by intros (a' & [= <-] & Hf).
  - by intros (a' & [=] & _).
Qed.

Lemma is_fulfilled_true {A} (o : outcome E A) :
  is_fulfilled o = true ↔ ∃ a, o = Fulfilled a.
Proof. destruct o; simpl; split; try done; [by eexists | by intros [? [=]]]. Qed.

End outcome_lemmas.

Section list_growth.
Context {A : Type}.
Implicit Types l k : list A.

(** A property of every prefix of a list with a head. *)
Lemma prefix_cons_forall (P : list A → Prop) x l :
  (∀ p, p `prefix_of` x :: l → P p) ↔ P [] ∧ ∀ p, p `prefix_of` l → P (x :: p).
Proof.
  split.
  - intros H. split; [apply H, prefix_nil|]. intros p Hp. by apply H, prefix_cons.
  - intros [H0 H] [|y p] Hp; [done|].
    pose proof (prefix_cons_inv_1 _ _ _ _ Hp) as ->.
    by apply H, (prefix_cons_inv_2 x x).
Qed.

Lemma extends_by_prefix n l l' : extends_by n l l' → l `prefix_of` l'.
Proof. intros (k & -> & _). by exists k. Qed.

Lemma extends_by_length n l l' : extends_by n l l' → length l' = length l + n.
Proof. intros (k & -> & <-). by rewrite length_app. Qed.

Lemma extends_by_refl l : extends_by 0 l l.
Proof. exists []. by rewrite app_nil_r. Qed.

Lemma extends_by_snoc l x : extends_by 1 l (l ++ [x]).
Proof. by exists [x]. Qed.

Lemma extends_by_trans n m l1 l2 l3 :
  extends_by n l1 l2 → extends_by m l2 l3 → extends_by (n + m) l1 l3.
Proof.
  intros (k1 & -> & <-) (k2 & -> & <-). exists (k1 ++ k2).
  by rewrite app_assoc, length_app.
Qed.

Lemma Forall_snoc (P : A → Prop) l x : Forall P (l ++ [x]) ↔ Forall P l ∧ P x.
Proof. rewrite Forall_app, Forall_singleton. done. Qed.

Lemma last_snoc_Some l x : last (l ++ [x]) = Some x.
Proof. apply last_snoc. Qed.

Lemma length_delete_lt l i : i < length l → S (length (delete i l)) = length l.
Proof.
  intros Hi. rewrite length_delete by by apply lookup_lt_is_Some. lia.
Qed.

Lemma delete_insert_same l i x : delete i (<[i:=x]> l) = delete i l.
Proof.
  revert i. induction l as [|y l IH]; intros [|i]; simpl; [done..|].
  f_equal. apply IH.
Qed.

End list_growth.

(** Filtering the image of an indexed map whose tags do not depend on
    the index. *)
Lemma omap_imap_Some {A B C} (g : nat → A → B) (h : B → option C) (k : A → C) l :
  (∀ i x, h (g i x) = Some (k x)) → omap h (imap g l) = k <$> l.
Proof.
  revert g. induction l as [|x l IH]; intros g Hg; csimpl; [done|].
  rewrite Hg. csimpl. rewrite (IH (g ∘ S)); [done|]. intros; apply Hg.
Qed.

Lemma omap_imap_None {A B C} (g : nat → A → B) (h : B → option C) l :
  (∀ i x, h (g i x) = None) → omap h (imap g l) = [].
Proof.
  revert g. induction l as [|x l IH]; intros g Hg; csimpl; [done|].
  rewrite Hg. apply (IH (g ∘ S)). intros; apply Hg.
Qed.

Lemma length_omap_le {A B} (f : A → option B) (l : list A) :
  length (omap f l) ≤ length l.
Proof. induction l as [|x l IH]; csimpl; [done|]. destruct (f x); simpl; lia. Qed.

Lemma forallb_Forall {A} (f : A → bool) (l : list A) :
  forallb f l = true ↔ Forall (λ x, f x = true) l.
Proof.
  induction l as [|x l IH]; simpl; [by split|].
  by rewrite andb_true_iff, Forall_cons, IH.
Qed.

Lemma Forall_modus_ponens {A} (P Q : A → Prop) (l : list A) :
  Forall (λ x, P x → Q x) l → Forall P l → Forall Q l.
Proof. induction 1; inversion 1; constructor; auto. Qed.

#[export] Hint Resolve extends_by_refl extends_by_snoc extends_by_prefix : grobot.
#[export] Hint Rewrite @length_app @last_snoc : grobot_rw.
