(* ===== verification/JsString.v ===== *)
(** * The string operations the sources call

    [String.prototype.trim] (InputArea.tsx lines 16, 17 and 43), the
    conversion of a number inside a template literal (api/chat.ts line
    35), and [String.prototype.includes], in which the specification
    states what an error message must contain.

    A string is a sequence of code units; the model keeps the code units
    0-255, which is where every character the sources write lives.  In
    that range the ECMAScript WhiteSpace and LineTerminator code units are
    TAB, LF, VT, FF, CR, SPACE and NO-BREAK SPACE. *)

From Stdlib Require Import Ascii String.
From stdpp Require Import strings pretty.
From S2P Require Import Prelude.

(** ** Definitions *)

Definition is_whitespace (c : ascii) : bool :=
  let n := N_of_ascii c in
  ((9 <=? n) && (n <=? 13) || (n =? 32) || (n =? 160))%N.

Abbreviation chars := list_ascii_of_string.
Abbreviation of_chars := string_of_list_ascii.

Fixpoint trimStart_chars (l : list ascii) : list ascii :=
  match l with
  | c :: l' => if is_whitespace c then trimStart_chars l' else l
  | [] => []
  end.

Definition trimEnd_chars (l : list ascii) : list ascii :=
  reverse (trimStart_chars (reverse l)).

Definition trim_chars (l : list ascii) : list ascii :=
  trimEnd_chars (trimStart_chars l).

(** [s.trim()] *)
Definition trim (s : string) : string := of_chars (trim_chars (chars s)).

(** [s.includes(sub)] *)
Fixpoint includes (s sub : string) : bool :=
  String.prefix sub s ||
  match s with
  | String _ s' => includes s' sub
  | EmptyString => false
  end.

(** [`${n}`] for a non-negative integer [n]. *)
Definition number_to_string (n : N) : string := pretty n.

(** ** Whitespace runs *)

Section trim_lemmas.
Implicit Types (l k : list ascii) (c : ascii).

Lemma trimStart_chars_split l :
  ∃ ws, l = ws ++ trimStart_chars l ∧ Forall (λ c, is_whitespace c = true) ws.
Proof.
  induction l as [|c l (ws & Hl & Hws)]; simpl.
  - by exists [].
  - destruct (is_whitespace c) eqn:Hc.
    + exists (c :: ws). split; [by rewrite Hl at 1 | by constructor].
    + by exists [].
Qed.

Lemma trimStart_chars_head l c k :
  trimStart_chars l = c :: k → is_whitespace c = false.
Proof.
  induction l as [|c' l IH]; simpl; [done|].
  destruct (is_whitespace c') eqn:Hc; [done|]. by intros [= -> _].
Qed.

Lemma trimStart_chars_fixed l c :
  is_whitespace c = false → trimStart_chars (c :: l) = c :: l.
Proof. simpl. by intros ->. Qed.

Lemma trimStart_chars_idemp l : trimStart_chars (trimStart_chars l) = trimStart_chars l.
Proof.
  destruct (trimStart_chars l) as [|c k] eqn:H; [done|].
  by apply trimStart_chars_fixed, (trimStart_chars_head l c k).
Qed.

Lemma trimStart_chars_all_ws l :
  Forall (λ c, is_whitespace c = true) l ↔ trimStart_chars l = [].
Proof.
  induction l as [|c l IH]; simpl; [done|].
  rewrite Forall_cons. destruct (is_whitespace c); [naive_solver|].
  split; [by intros [[=] _] | done].
Qed.

Lemma trimStart_chars_app_nonws l c k :
  is_whitespace c = false →
  trimStart_chars (l ++ c :: k) = trimStart_chars (l ++ [c]) ++ k.
Proof.
  intros Hc. induction l as [|c' l IH]; simpl; [by rewrite Hc|].
  destruct (is_whitespace c'); [done|]. simpl. by rewrite <-app_assoc.
Qed.

Lemma trimStart_chars_snoc_nonws l c :
  is_whitespace c = false → ∃ k, trimStart_chars (l ++ [c]) = k ++ [c].
Proof.
  intros Hc. induction l as [|c' l [k IH]]; simpl.
  - rewrite Hc. by exists [].
  - destruct (is_whitespace c'); [eauto|]. by exists (c' :: l).
Qed.

Lemma trimEnd_chars_last l c k :
  trimEnd_chars l = k ++ [c] → is_whitespace c = false.
Proof.
  unfold trimEnd_chars. intros H. apply (f_equal reverse) in H.
  rewrite reverse_involutive, reverse_snoc in H.
  by apply trimStart_chars_head in H.
Qed.

Lemma trimEnd_chars_idemp l : trimEnd_chars (trimEnd_chars l) = trimEnd_chars l.
Proof.
  unfold trimEnd_chars. by rewrite reverse_involutive, trimStart_chars_idemp.
Qed.

(** Trimming the end keeps a non-whitespace head in place. *)
Lemma trimEnd_chars_cons_nonws c l :
  is_whitespace c = false → ∃ k, trimEnd_chars (c :: l) = c :: k.
Proof.
  intros Hc. unfold trimEnd_chars. rewrite reverse_cons.
  destruct (trimStart_chars_snoc_nonws (reverse l) c Hc) as [k ->].
  exists (reverse k). by rewrite reverse_snoc.
Qed.

Lemma trim_chars_head l c k : trim_chars l = c :: k → is_whitespace c = false.
Proof.
  unfold trim_chars. destruct (trimStart_chars l) as [|c' l'] eqn:Hl.
  { by unfold trimEnd_chars. }
  pose proof (trimStart_chars_head _ _ _ Hl) as Hc'.
  destruct (trimEnd_chars_cons_nonws c' l' Hc') as [k' ->]. by intros [= <- _].
Qed.

Lemma trim_chars_last l c k : trim_chars l = k ++ [c] → is_whitespace c = false.
Proof. apply trimEnd_chars_last. Qed.

Lemma trim_chars_idemp l : trim_chars (trim_chars l) = trim_chars l.
Proof.
  unfold trim_chars at 1 3. destruct (trim_chars l) as [|c k] eqn:H; [done|].
  rewrite trimStart_chars_fixed by eauto using trim_chars_head.
  rewrite <-H. unfold trim_chars. apply trimEnd_chars_idemp.
Qed.

Lemma trim_chars_all_ws l :
  Forall (λ c, is_whitespace c = true) l → trim_chars l = [].
Proof.
  intros H. unfold trim_chars. by rewrite (proj1 (trimStart_chars_all_ws l) H).
Qed.

Lemma trim_chars_nil_all_ws l :
  trim_chars l = [] → Forall (λ c, is_whitespace c = true) l.
Proof.
  unfold trim_chars. destruct (trimStart_chars l) as [|c k] eqn:Hl.
  { intros _. by apply trimStart_chars_all_ws. }
  destruct (trimEnd_chars_cons_nonws c k) as [k' ->]; [|done].
  eauto using trimStart_chars_head.
Qed.

End trim_lemmas.

(** ** [trim] on strings *)

Lemma chars_trim s : chars (trim s) = trim_chars (chars s).
Proof. unfold trim. apply list_ascii_of_string_of_list_ascii. Qed.

Lemma trim_idemp s : trim (trim s) = trim s.
Proof. unfold trim at 1. by rewrite chars_trim, trim_chars_idemp. Qed.

Lemma trim_empty_iff s :
  trim s = "" ↔ Forall (λ c, is_whitespace c = true) (chars s).
Proof.
  split.
  - intros H. apply trim_chars_nil_all_ws. by rewrite <-chars_trim, H.
  - intros H. unfold trim. by rewrite trim_chars_all_ws.
Qed.

Lemma chars_nil s : chars s = [] → s = "".
Proof. by destruct s. Qed.

Lemma trim_nonempty_iff s :
  trim s ≠ "" ↔ Exists (λ c, is_whitespace c = false) (chars s).
Proof.
  rewrite trim_empty_iff. split.
  - intros H%not_Forall_Exists; [|apply _].
    eapply Exists_impl; [done|]. by intros c ?%not_true_is_false.
  - intros H. apply Exists_not_Forall. eapply Exists_impl; [done|].
    simpl. by intros c ->.
Qed.

Lemma trim_no_leading_ws s c rest :
  trim s = String c rest → is_whitespace c = false.
Proof.
  intros H. apply (trim_chars_head (chars s) c (chars rest)).
  by rewrite <-chars_trim, H.
Qed.

(** ** [includes] *)

Lemma string_prefix_app s t : String.prefix s (s +:+ t) = true.
Proof.
  induction s as [|c s IH]; simpl; [by destruct t|].
  destruct (ascii_dec c c); done.
Qed.

Lemma includes_prefix s sub : String.prefix sub s = true → includes s sub = true.
Proof. intros H. destruct s; cbn [includes]; by rewrite H. Qed.

Lemma includes_app a sub b : includes (a +:+ sub +:+ b) sub = true.
Proof.
  induction a as [|c a IH].
  - apply (includes_prefix (sub +:+ b)), string_prefix_app.
  - change (includes (String c (a +:+ sub +:+ b)) sub = true).
    cbn [includes]. rewrite IH. apply orb_true_r.
Qed.

Lemma append_empty_r s : s +:+ "" = s.
Proof.
  induction s as [|c s IH]; [done|].
  change (String c (s +:+ "") = String c s). by rewrite IH.
Qed.

Lemma includes_suffix a sub : includes (a +:+ sub) sub = true.
Proof.
  pose proof (includes_app a sub "") as H. by rewrite append_empty_r in H.
Qed.
