(* ===== verification/JsValue.v ===== *)
(** * JavaScript values as the program sees them

    TypeScript's annotations are erased at run time, and the response body
    of the chat endpoint enters the program through an unchecked cast
    ([data as ChatResponse], api/chat.ts line 39).  What the store then
    reads with [response.response] (chatStore.ts line 85) is whatever JSON
    the server sent.  This file holds the values JSON can denote, the
    extra value [undefined] that a missing property reads as, the values a
    [throw] can carry, and the three language operations the sources apply
    to them: property read, truthiness, and the [instanceof Error] test.

    Numbers are rationals compared structurally: the sources never compute
    with them, they only carry the two literals [0.7] and [500]. *)

From Stdlib Require Import QArith.
From stdpp Require Import strings.
From S2P Require Import Prelude.

(** ** Values *)

(** The nested occurrences under [list] need the induction principle
    [JsVal_ind_nested] below, so the generated one is switched off. *)
#[local] Unset Elimination Schemes.

Inductive JsVal : Type :=
| JUndefined
| JNull
| JBool (b : bool)
| JNum (q : Q)
| JStr (s : string)
| JArr (items : list JsVal)
| JObj (fields : list (string * JsVal)).

#[local] Set Elimination Schemes.

(** What a [throw] carries: an [Error] instance (of any subclass, [name]
    tells which) or any other value. *)

Inductive Thrown : Type :=
| ErrorObj (name : string) (message : string)
| NonError (v : JsVal).

(** ** Structural equality, executable *)

Definition Q_beq (a b : Q) : bool :=
  Z.eqb (Qnum a) (Qnum b) && Pos.eqb (Qden a) (Qden b).

Fixpoint JsVal_beq (x y : JsVal) {struct x} : bool :=
  match x, y with
  | JUndefined, JUndefined => true
  | JNull, JNull => true
  | JBool a, JBool b => Bool.eqb a b
  | JNum a, JNum b => Q_beq a b
  | JStr a, JStr b => String.eqb a b
  | JArr xs, JArr ys =>
      (fix go (xs ys : list JsVal) : bool :=
         match xs, ys with
         | [], [] => true
         | x :: xs, y :: ys => JsVal_beq x y && go xs ys
         | _, _ => false
         end) xs ys
  | JObj xs, JObj ys =>
      (fix go (xs ys : list (string * JsVal)) : bool :=
         match xs, ys with
         | [], [] => true
         | (k, x) :: xs, (k', y) :: ys =>
             String.eqb k k' && JsVal_beq x y && go xs ys
         | _, _ => false
         end) xs ys
  | _, _ => false
  end.

(** ** Language operations *)

(** [v[key]] for a key that no built-in object defines (the sources read
    ["response"] only): reading from [undefined] or [null] throws a
    [TypeError]; an object yields its own property or [undefined]; every
    other value yields [undefined]. *)

Fixpoint assoc_lookup (key : string) (fields : list (string * JsVal)) : JsVal :=
  match fields with
  | [] => JUndefined
  | (k, v) :: rest => if String.eqb k key then v else assoc_lookup key rest
  end.

Definition cannot_read (what key : string) : Thrown :=
  ErrorObj "TypeError"
    ("Cannot read properties of " +:+ what +:+ " (reading '" +:+ key +:+ "')").

Definition get_prop (v : JsVal) (key : string) : outcome Thrown JsVal :=
  match v with
  | JUndefined => Rejected (cannot_read "undefined" key)
  | JNull => Rejected (cannot_read "null" key)
  | JObj fields => Fulfilled (assoc_lookup key fields)
  | _ => Fulfilled JUndefined
  end.

(** ToBoolean. *)
Definition truthy (v : JsVal) : bool :=
  match v with
  | JUndefined | JNull => false
  | JBool b => b
  | JNum q => negb (Z.eqb (Qnum q) 0)
  | JStr s => negb (String.eqb s "")
  | JArr _ | JObj _ => true
  end.

(** Truthiness of a value of TypeScript type [string]. *)
Definition truthy_string (s : string) : bool := truthy (JStr s).

(** Truthiness of a value of TypeScript type [string | null]. *)
Definition truthy_nullable (o : option string) : bool :=
  match o with Some s => truthy_string s | None => false end.

(** [typeof v === 'string'] *)
Definition is_string (v : JsVal) : bool :=
  match v with JStr _ => true | _ => false end.

(** [e instanceof Error] *)
Definition instanceof_Error (e : Thrown) : bool :=
  match e with ErrorObj _ _ => true | NonError _ => false end.

(** ** Induction over nested values *)

Section JsVal_ind_nested.
Context (P : JsVal → Prop).
Context (Hundef : P JUndefined) (Hnull : P JNull).
Context (Hbool : ∀ b, P (JBool b)) (Hnum : ∀ q, P (JNum q)).
Context (Hstr : ∀ s, P (JStr s)).
Context (Harr : ∀ items, Forall P items → P (JArr items)).
Context (Hobj : ∀ fields, Forall (λ kv, P kv.2) fields → P (JObj fields)).

Fixpoint JsVal_ind_nested (v : JsVal) : P v :=
  match v with
  | JUndefined => Hundef
  | JNull => Hnull
  | JBool b => Hbool b
  | JNum q => Hnum q
  | JStr s => Hstr s
  | JArr items =>
      Harr items
        ((fix go (l : list JsVal) : Forall P l :=
            match l with
            | [] => Forall_nil_2 P
            | x :: l => Forall_cons_2 P x l (JsVal_ind_nested x) (go l)
            end) items)
  | JObj fields =>
      Hobj fields
        ((fix go (l : list (string * JsVal)) : Forall (λ kv, P kv.2) l :=
            match l with
            | [] => Forall_nil_2 _
            | kv :: l => Forall_cons_2 _ kv l (JsVal_ind_nested kv.2) (go l)
            end) fields)
  end.

End JsVal_ind_nested.

(** ** Correctness of the equality test *)

Lemma Q_beq_eq (a b : Q) : Q_beq a b = true ↔ a = b.
Proof.
  destruct a as [n d], b as [n' d']. unfold Q_beq; simpl.
  rewrite andb_true_iff, Z.eqb_eq, Pos.eqb_eq. split; [by intros [-> ->] | by intros [= -> ->]].
Qed.

Lemma JsVal_beq_eq (x y : JsVal) : JsVal_beq x y = true ↔ x = y.
Proof.
  revert y. induction x as [| |b|q|s|items IH|fields IH] using JsVal_ind_nested;
    intros [| |b'|q'|s'|items'|fields']; simpl; try (split; [done | by intros [=]]).
  - rewrite Bool.eqb_true_iff. split; [by intros -> | by intros [= ->]].
  - rewrite Q_beq_eq. split; [by intros -> | by intros [= ->]].
  - rewrite String.eqb_eq. split; [by intros -> | by intros [= ->]].
  - revert items'. induction IH as [|x xs Hx _ IHxs]; intros [|y ys];
      try (split; [done | by intros [=]]).
    rewrite andb_true_iff, Hx. specialize (IHxs ys). split.
    + intros [-> Hgo]. apply IHxs in Hgo. by injection Hgo as ->.
    + intros [= -> ->]. split; [done|]. by apply IHxs.
  - revert fields'. induction IH as [|[k x] xs Hx _ IHxs]; intros [|[k' y] ys];
      try (split; [done | by intros [=]]).
    rewrite !andb_true_iff, String.eqb_eq. simpl in Hx. rewrite Hx.
    specialize (IHxs ys). split.
    + intros [[-> ->] Hgo]. apply IHxs in Hgo. by injection Hgo as ->.
    + intros [= -> -> ->]. split; [done|]. by apply IHxs.
Qed.

#[export] Instance JsVal_eq_dec : EqDecision JsVal := λ x y,
  match JsVal_beq x y as b return JsVal_beq x y = b → Decision (x = y) with
  | true => λ H, left (proj1 (JsVal_beq_eq x y) H)
  | false => λ H, right (λ Heq,
      eq_ind true (λ b, if b then True else False) I false
        (eq_trans (eq_sym (proj2 (JsVal_beq_eq x y) Heq)) H))
  end eq_refl.

#[export] Instance Thrown_eq_dec : EqDecision Thrown.
Proof. solve_decision. Defined.

(** ** Facts about the operations *)

Lemma get_prop_object fields key :
  get_prop (JObj fields) key = Fulfilled (assoc_lookup key fields).
Proof. done. Qed.

Lemma get_prop_rejected_iff v key e :
  get_prop v key = Rejected e ↔
  (v = JUndefined ∧ e = cannot_read "undefined" key) ∨
  (v = JNull ∧ e = cannot_read "null" key).
Proof.
  destruct v; simpl; split; try naive_solver.
Qed.

Lemma get_prop_throws_Error v key e :
  get_prop v key = Rejected e → instanceof_Error e = true.
Proof. rewrite get_prop_rejected_iff. by intros [[_ ->]|[_ ->]]. Qed.

Lemma assoc_lookup_head key v rest : assoc_lookup key ((key, v) :: rest) = v.
Proof. simpl. by rewrite String.eqb_refl. Qed.

Lemma assoc_lookup_missing key fields :
  key ∉ fields.*1 → assoc_lookup key fields = JUndefined.
Proof.
  induction fields as [|[k v] rest IH]; simpl; [done|].
  rewrite not_elem_of_cons. intros [Hk Hrest].
  destruct (String.eqb_spec k key); [congruence|auto].
Qed.

Lemma truthy_string_nonempty s : truthy_string s = true ↔ s ≠ "".
Proof.
  unfold truthy_string; simpl. rewrite negb_true_iff.
  destruct (String.eqb_spec s ""); split; congruence.
Qed.

Lemma truthy_nullable_Some o :
  truthy_nullable o = true ↔ ∃ s, o = Some s ∧ s ≠ "".
Proof.
  destruct o as [s|]; simpl; [rewrite truthy_string_nonempty|]; naive_solver.
Qed.

#[export] Hint Rewrite get_prop_object assoc_lookup_head : grobot_rw.
