(* ===== verification/Decimal.v ===== *)
(** * Decimal numerals: the numbers of JSON text

    [JSON.stringify] writes a number as a decimal numeral and a reader
    of JSON reads one.  Numbers are rationals in this development: a
    rational stands for the number whose shortest numeral denotes it,
    as [0.7] and [500] do for the two literals of the sources.
    [print_number] writes the decimal expansion of a rational: sign,
    integer part without leading zeros, and the fraction digits when
    there are any.  For a number JavaScript prints in plain notation
    (from 1e-6 up to 1e21) this is the numeral JavaScript prints.
    [parse_number] reads the grammar of JSON numbers, exponent
    included, into a rational in lowest terms.

    [decimal] holds of the rationals in lowest terms with a finite
    expansion of at most [max_scale] fraction digits; the round trip
    [parse_print_number] is stated for those.

    Digits are handled least significant first ([lsd_digits],
    [lsd_value]), which makes both directions structural; the texts are
    the reversals. *)

From Stdlib Require Import QArith Ascii.
From stdpp Require Import strings.
From S2P Require Import Prelude.

(** ** Characters *)

Definition minus : ascii := "-".
Definition plus : ascii := "+".
Definition dot : ascii := ".".
Definition letter_e : ascii := "e".
Definition letter_E : ascii := "E".

Definition is_digit (c : ascii) : bool :=
  let n := N_of_ascii c in ((48 <=? n) && (n <=? 57))%N.

Definition digit_value (c : ascii) : N := (N_of_ascii c - 48)%N.

Definition digit_char (d : N) : ascii := ascii_of_N (48 + d).

(** ** Digits of a natural number *)

Fixpoint lsd_value (ds : list N) : N :=
  match ds with
  | [] => 0
  | d :: ds => d + 10 * lsd_value ds
  end%N.

Fixpoint lsd_digits (fuel : nat) (n : N) : list N :=
  match fuel with
  | 0 => []
  | S fuel => (n mod 10)%N :: if (n <? 10)%N then [] else lsd_digits fuel (n / 10)
  end.

(** The [k] least significant digits, zeros included. *)
Fixpoint fixed_lsd (k : nat) (n : N) : list N :=
  match k with
  | 0 => []
  | S k => (n mod 10)%N :: fixed_lsd k (n / 10)
  end.

(** Most significant digit first, as written. *)
Definition natural_digits (n : N) : list N :=
  reverse (lsd_digits (S (N.to_nat (N.log2 n))) n).

Definition msd_value (ds : list N) : N := lsd_value (reverse ds).

Definition pow10 (k : nat) : N := (10 ^ N.of_nat k)%N.

(** ** Printing *)

(** The least [k] from [k0] on, within [fuel] tries, for which [d]
    divides [10 ^ k]: the number of fraction digits of a decimal
    rational with denominator [d]. *)
Fixpoint scale_from (fuel k : nat) (d : N) : option nat :=
  match fuel with
  | 0 => None
  | S fuel => if (pow10 k mod d =? 0)%N then Some k else scale_from fuel (S k) d
  end.

(** More fraction digits than a double has significant ones are never
    needed. *)
Definition max_scale : nat := 24.

Definition decimal_scale (d : positive) : option nat :=
  scale_from (S max_scale) 0 (Npos d).

(** The point and [k] fraction digits, or nothing when [k] is 0. *)
Definition print_fraction (k : nat) (frac : N) : list ascii :=
  match k with
  | 0 => []
  | S _ => dot :: (digit_char <$> reverse (fixed_lsd k frac))
  end.

Definition print_number (q : Q) : list ascii :=
  let n := Z.abs_N (Qnum q) in
  let d := Npos (Qden q) in
  let k := default max_scale (decimal_scale (Qden q)) in
  (if (Qnum q <? 0)%Z then [minus] else []) ++
  (digit_char <$> natural_digits (n / d)) ++
  print_fraction k ((n mod d) * pow10 k / d).

(** ** Parsing *)

(** The longest prefix of digits, and the rest. *)
Fixpoint span_digits (input : list ascii) : list N * list ascii :=
  match input with
  | c :: rest =>
      if is_digit c
      then let '(ds, r) := span_digits rest in (digit_value c :: ds, r)
      else ([], input)
  | [] => ([], [])
  end.

(** [0] or a numeral that does not begin with [0]. *)
Definition parse_int (input : list ascii) : option (N * list ascii) :=
  match span_digits input with
  | ([], _) => None
  | (0%N :: _ :: _, _) => None
  | (ds, rest) => Some (msd_value ds, rest)
  end.

Definition parse_frac (input : list ascii) : option (list N * list ascii) :=
  match input with
  | c :: rest =>
      if Ascii.eqb c dot
      then match span_digits rest with
           | ([], _) => None
           | (fs, r) => Some (fs, r)
           end
      else Some ([], input)
  | [] => Some ([], [])
  end.

Definition parse_exp_digits (negative : bool) (input : list ascii)
    : option (Z * list ascii) :=
  match span_digits input with
  | ([], _) => None
  | (ds, r) =>
      let e := Z.of_N (msd_value ds) in
      Some (if negative then (- e)%Z else e, r)
  end.

Definition parse_exp (input : list ascii) : option (Z * list ascii) :=
  match input with
  | c :: rest =>
      if Ascii.eqb c letter_e || Ascii.eqb c letter_E
      then match rest with
           | s :: rest' =>
               if Ascii.eqb s minus then parse_exp_digits true rest'
               else if Ascii.eqb s plus then parse_exp_digits false rest'
               else parse_exp_digits false rest
           | [] => None
           end
      else Some (0%Z, input)
  | [] => Some (0%Z, [])
  end.

(** The reduced rational [± m * 10 ^ e]. *)
Definition make_number (negative : bool) (m : N) (e : Z) : Q :=
  let z := if negative then (- Z.of_N m)%Z else Z.of_N m in
  Qred (if (0 <=? e)%Z then (z * 10 ^ e)%Z # 1 else z # Z.to_pos (10 ^ (- e))).

Definition parse_unsigned (negative : bool) (input : list ascii)
    : option (Q * list ascii) :=
  '(ip, r1) ← parse_int input;
  '(fs, r2) ← parse_frac r1;
  '(ex, r3) ← parse_exp r2;
  let m := (ip * pow10 (length fs) + msd_value fs)%N in
  Some (make_number negative m (ex - Z.of_nat (length fs)), r3).

Definition parse_number (input : list ascii) : option (Q * list ascii) :=
  match input with
  | c :: rest =>
      if Ascii.eqb c minus then parse_unsigned true rest
      else parse_unsigned false input
  | [] => None
  end.

(** ** What the round trip is claimed for *)

(** A rational in lowest terms whose expansion is finite. *)
Definition decimal (q : Q) : bool :=
  (Qnum (Qred q) =? Qnum q)%Z && (Qden (Qred q) =? Qden q)%positive &&
  match decimal_scale (Qden q) with Some _ => true | None => false end.

(** What may follow a numeral: anything that does not continue it. *)
Definition number_end (rest : list ascii) : bool :=
  match rest with
  | [] => true
  | c :: _ =>
      negb (is_digit c || Ascii.eqb c dot || Ascii.eqb c letter_e || Ascii.eqb c letter_E)
  end.

(** Does not begin with a digit. *)
Definition digits_end (rest : list ascii) : bool :=
  match rest with [] => true | c :: _ => negb (is_digit c) end.

(** ** Digits and characters *)

Lemma digit_value_char d : (d < 10)%N → digit_value (digit_char d) = d.
Proof.
  intros Hd. unfold digit_value, digit_char.
  rewrite N_ascii_embedding by lia. lia.
Qed.

Lemma is_digit_char d : (d < 10)%N → is_digit (digit_char d) = true.
Proof.
  intros Hd. unfold is_digit, digit_char. rewrite N_ascii_embedding by lia.
  apply andb_true_intro. split; apply N.leb_le; lia.
Qed.

Lemma number_end_digits_end rest : number_end rest = true → digits_end rest = true.
Proof.
  destruct rest as [|c rest]; simpl; [done|].
  rewrite !negb_true_iff, !orb_false_iff. tauto.
Qed.

Lemma span_digits_end rest : digits_end rest = true → span_digits rest = ([], rest).
Proof.
  destruct rest as [|c rest]; simpl; [done|]. by intros ->%negb_true_iff.
Qed.

Lemma span_digits_app ds rest :
  Forall (λ d, (d < 10)%N) ds → digits_end rest = true →
  span_digits ((digit_char <$> ds) ++ rest) = (ds, rest).
Proof.
  intros Hds Hrest. induction Hds as [|d ds Hd _ IH].
  - by apply span_digits_end.
  - rewrite fmap_cons. cbn [app span_digits].
    by rewrite is_digit_char, IH, digit_value_char.
Qed.

(** ** Digits and values *)

Lemma lsd_digits_value fuel n :
  (n < 10 ^ N.of_nat fuel)%N → lsd_value (lsd_digits fuel n) = n.
Proof.
  revert n. induction fuel as [|fuel IH]; intros n Hn.
  { simpl in *. lia. }
  cbn [lsd_digits lsd_value]. destruct (N.ltb_spec n 10) as [Hlt|Hge].
  - simpl. rewrite N.mod_small by done. lia.
  - rewrite IH.
    + pose proof (N.div_mod' n 10). lia.
    + apply N.Div0.div_lt_upper_bound.
      by rewrite Nat2N.inj_succ, N.pow_succ_r' in Hn.
Qed.

Lemma lsd_digits_bound fuel n : Forall (λ d, (d < 10)%N) (lsd_digits fuel n).
Proof.
  revert n. induction fuel as [|fuel IH]; intros n; simpl; [done|].
  constructor; [by apply N.mod_lt|]. by destruct (n <? 10)%N.
Qed.

(** The most significant digit of a positive number is not zero. *)
Lemma lsd_digits_last fuel n :
  (1 ≤ n < 10 ^ N.of_nat fuel)%N →
  ∃ d, last (lsd_digits fuel n) = Some d ∧ d ≠ 0%N.
Proof.
  revert n. induction fuel as [|fuel IH]; intros n [H1 Hn].
  { simpl in *. lia. }
  cbn [lsd_digits]. destruct (N.ltb_spec n 10) as [Hlt|Hge].
  - exists (n mod 10)%N. split; [done|]. rewrite N.mod_small by done. lia.
  - destruct (IH (n / 10)%N) as (d & Hd & Hd0).
    + split; [by apply N.div_le_lower_bound|].
      apply N.Div0.div_lt_upper_bound.
      by rewrite Nat2N.inj_succ, N.pow_succ_r' in Hn.
    + exists d. split; [|done]. rewrite last_cons, Hd. done.
Qed.

Lemma fixed_lsd_value k n : lsd_value (fixed_lsd k n) = (n mod 10 ^ N.of_nat k)%N.
Proof.
  revert n. induction k as [|k IH]; intros n.
  { simpl. by rewrite N.mod_1_r. }
  cbn [fixed_lsd lsd_value]. rewrite IH, Nat2N.inj_succ, N.pow_succ_r'.
  rewrite N.Div0.mod_mul_r. lia.
Qed.

Lemma fixed_lsd_length k n : length (fixed_lsd k n) = k.
Proof. revert n. induction k as [|k IH]; intros n; simpl; [done|]. by rewrite IH. Qed.

Lemma fixed_lsd_bound k n : Forall (λ d, (d < 10)%N) (fixed_lsd k n).
Proof.
  revert n. induction k as [|k IH]; intros n; simpl; [done|].
  constructor; [by apply N.mod_lt|done].
Qed.

Lemma natural_fuel n : (n < 10 ^ N.of_nat (S (N.to_nat (N.log2 n))))%N.
Proof.
  rewrite Nat2N.inj_succ, N2Nat.id.
  destruct (N.eq_dec n 0%N) as [->|Hn]; [done|].
  eapply N.lt_le_trans; [apply N.log2_spec; lia|].
  apply N.pow_le_mono_l. lia.
Qed.

Lemma natural_digits_value n : msd_value (natural_digits n) = n.
Proof.
  unfold msd_value, natural_digits. rewrite reverse_involutive.
  apply lsd_digits_value, natural_fuel.
Qed.

Lemma natural_digits_bound n : Forall (λ d, (d < 10)%N) (natural_digits n).
Proof. apply Forall_reverse, lsd_digits_bound. Qed.

(** A numeral of a natural number is not empty and has no leading zero. *)
Lemma natural_digits_head n :
  ∃ d ds, natural_digits n = d :: ds ∧ (ds ≠ [] → d ≠ 0%N).
Proof.
  unfold natural_digits. set (fuel := N.to_nat (N.log2 n)).
  destruct (N.ltb_spec n 10) as [Hlt|Hge].
  - exists (n mod 10)%N, []. split; [|done]. cbn [lsd_digits].
    by destruct (N.ltb_spec n 10); [|lia].
  - destruct (lsd_digits_last (S fuel) n) as (d & Hd & Hd0);
      [split; [lia|apply natural_fuel]|].
    rewrite <- head_reverse in Hd.
    destruct (reverse _) as [|d' ds]; [done|]. injection Hd as ->. eauto.
Qed.

Lemma parse_int_natural n rest :
  digits_end rest = true →
  parse_int ((digit_char <$> natural_digits n) ++ rest) = Some (n, rest).
Proof.
  intros Hrest. unfold parse_int.
  rewrite span_digits_app by auto using natural_digits_bound.
  pose proof (natural_digits_value n) as Hv.
  destruct (natural_digits_head n) as (d & ds & Heq & Hd). rewrite Heq in *.
  rewrite Hv. destruct d as [|p]; [|done]. destruct ds; [done|].
  by destruct Hd.
Qed.

(** ** The parts of a numeral *)

Lemma digit_char_not_minus d : (d < 10)%N → Ascii.eqb (digit_char d) minus = false.
Proof.
  intros Hd. apply Ascii.eqb_neq. intros Heq%(f_equal N_of_ascii).
  unfold digit_char in Heq. rewrite N_ascii_embedding in Heq by lia.
  change (N_of_ascii minus) with 45%N in Heq. lia.
Qed.

Lemma parse_frac_none rest : number_end rest = true → parse_frac rest = Some ([], rest).
Proof.
  destruct rest as [|c rest]; simpl; [done|].
  rewrite negb_true_iff, !orb_false_iff. by intros [[[_ ->] _] _].
Qed.

Lemma parse_exp_none rest : number_end rest = true → parse_exp rest = Some (0%Z, rest).
Proof.
  destruct rest as [|c rest]; simpl; [done|].
  rewrite negb_true_iff, !orb_false_iff. by intros [[_ ->] ->].
Qed.

Lemma parse_frac_print k frac rest :
  number_end rest = true →
  parse_frac (print_fraction k frac ++ rest) =
    Some (match k with 0 => [] | S _ => reverse (fixed_lsd k frac) end, rest).
Proof.
  intros Hrest. destruct k as [|k]; [by apply parse_frac_none|].
  unfold print_fraction. cbn [app parse_frac]. rewrite Ascii.eqb_refl.
  rewrite span_digits_app;
    [|apply Forall_reverse, fixed_lsd_bound|by apply number_end_digits_end].
  pose proof (fixed_lsd_length (S k) frac) as Hlen.
  rewrite <- length_reverse in Hlen. by destruct (reverse _).
Qed.

Lemma print_fraction_end k frac rest :
  number_end rest = true → digits_end (print_fraction k frac ++ rest) = true.
Proof. destruct k; [apply number_end_digits_end|done]. Qed.

Lemma parse_unsigned_print negative ip k frac rest :
  (frac < pow10 k)%N → number_end rest = true →
  parse_unsigned negative
    ((digit_char <$> natural_digits ip) ++ print_fraction k frac ++ rest) =
  Some (make_number negative (ip * pow10 k + frac) (- Z.of_nat k), rest).
Proof.
  intros Hfrac Hrest. unfold parse_unsigned.
  rewrite parse_int_natural by auto using print_fraction_end. cbn [mbind option_bind].
  rewrite parse_frac_print by done. cbn [mbind option_bind].
  rewrite parse_exp_none by done. cbn [mbind option_bind].
  do 2 f_equal. destruct k as [|k].
  { assert (frac = 0%N) as -> by (change (pow10 0) with 1%N in Hfrac; lia). done. }
  rewrite length_reverse, fixed_lsd_length. unfold msd_value.
  rewrite reverse_involutive, fixed_lsd_value. fold (pow10 (S k)).
  by rewrite N.mod_small.
Qed.

(** ** The value of a numeral *)

Lemma scale_from_spec fuel k0 d k :
  scale_from fuel k0 d = Some k → (pow10 k mod d = 0)%N.
Proof.
  revert k0. induction fuel as [|fuel IH]; intros k0; simpl; [done|].
  destruct (N.eqb_spec (pow10 k0 mod d) 0); [by intros [= <-]|apply IH].
Qed.

Lemma make_number_scaled negative n d k c :
  (N.pos d * c = pow10 k)%N →
  make_number negative (n * c) (- Z.of_nat k) =
  Qred ((if negative then - Z.of_N n else Z.of_N n)%Z # d).
Proof.
  intros Hc. unfold make_number. apply Qred_complete.
  assert (Z.pos d * Z.of_N c = 10 ^ Z.of_nat k)%Z as Hz.
  { apply (f_equal Z.of_N) in Hc. unfold pow10 in Hc.
    rewrite N2Z.inj_mul, N2Z.inj_pow, nat_N_Z in Hc. done. }
  assert (0 < 10 ^ Z.of_nat k)%Z by (apply Z.pow_pos_nonneg; lia).
  destruct k as [|k].
  - change (10 ^ Z.of_nat 0)%Z with 1%Z in Hz.
    destruct (Z.eq_mul_1_nonneg (Z.pos d) (Z.of_N c)) as [Hd Hc1]; [lia|done|].
    change (0 <=? - Z.of_nat 0)%Z with true. change (10 ^ (- Z.of_nat 0))%Z with 1%Z.
    unfold Qeq. cbn [Qnum Qden]. rewrite N2Z.inj_mul, Hd, Hc1. destruct negative; lia.
  - replace (0 <=? - Z.of_nat (S k))%Z with false by (symmetry; apply Z.leb_gt; lia).
    rewrite Z.opp_involutive. unfold Qeq. cbn [Qnum Qden].
    rewrite Z2Pos.id by done. rewrite <- Hz. destruct negative; rewrite N2Z.inj_mul; nia.
Qed.

(** The digits that [print_number] writes denote the number. *)
Lemma print_number_value n d k :
  (pow10 k mod N.pos d = 0)%N →
  let frac := ((n mod N.pos d) * pow10 k / N.pos d)%N in
  (frac < pow10 k)%N ∧
  ∃ c, (N.pos d * c = pow10 k ∧ n / N.pos d * pow10 k + frac = n * c)%N.
Proof.
  intros Hk frac. apply N.Div0.mod_divides in Hk as [c Hc].
  assert (frac = n mod N.pos d * c)%N as ->.
  { unfold frac. rewrite Hc, (N.mul_comm (N.pos d)), N.mul_assoc.
    by rewrite N.div_mul. }
  assert (c ≠ 0%N) as Hc0.
  { intros ->. rewrite N.mul_0_r in Hc. by apply N.pow_nonzero in Hc. }
  pose proof (N.mod_lt n (N.pos d)). pose proof (N.div_mod' n (N.pos d)) as Hn.
  rewrite Hc. split; [apply N.mul_lt_mono_pos_r; lia|].
  exists c. split; [done|]. rewrite Hn at 3. lia.
Qed.

(** ** The round trip *)

Lemma decimal_inv q :
  decimal q = true → Qred q = q ∧ ∃ k, decimal_scale (Qden q) = Some k.
Proof.
  unfold decimal. rewrite !andb_true_iff, Z.eqb_eq, Pos.eqb_eq.
  intros [[Hn Hd] Hk]. split.
  - destruct q, (Qred _); simpl in *; by subst.
  - destruct (decimal_scale _) as [k|]; [by exists k|done].
Qed.

Lemma signed_abs z : (if (z <? 0)%Z then - Z.of_N (Z.abs_N z) else Z.of_N (Z.abs_N z))%Z = z.
Proof. destruct (Z.ltb_spec z 0); lia. Qed.

Lemma parse_unsigned_number q k rest :
  Qred q = q → decimal_scale (Qden q) = Some k → number_end rest = true →
  parse_unsigned (Qnum q <? 0)%Z
    ((digit_char <$> natural_digits (Z.abs_N (Qnum q) / N.pos (Qden q))) ++
     print_fraction k (Z.abs_N (Qnum q) mod N.pos (Qden q) * pow10 k / N.pos (Qden q)) ++
     rest) = Some (q, rest).
Proof.
  intros Hred Hk%scale_from_spec Hrest.
  destruct (print_number_value (Z.abs_N (Qnum q)) (Qden q) k Hk)
    as (Hfrac & c & Hc & Hm).
  rewrite parse_unsigned_print, Hm, (make_number_scaled _ _ (Qden q) k c Hc) by done.
  rewrite signed_abs. destruct q as [a b]. cbn [Qnum Qden]. by rewrite Hred.
Qed.

(** Reading what was written gives the number back, whatever follows
    the numeral that does not continue it. *)
Lemma parse_print_number q rest :
  decimal q = true → number_end rest = true →
  parse_number (print_number q ++ rest) = Some (q, rest).
Proof.
  intros (Hred & k & Hk)%decimal_inv Hrest.
  pose proof (parse_unsigned_number q k rest Hred Hk Hrest) as Hu.
  unfold print_number. rewrite Hk, <- !(assoc_L (++)). cbn [default].
  destruct (Qnum q <? 0)%Z.
  { cbn [app parse_number]. by rewrite Ascii.eqb_refl. }
  destruct (natural_digits_head (Z.abs_N (Qnum q) / N.pos (Qden q)))
    as (d0 & ds & Heq & _).
  pose proof (natural_digits_bound (Z.abs_N (Qnum q) / N.pos (Qden q))) as Hb.
  rewrite Heq in *. apply Forall_cons_1 in Hb as [Hd0 _].
  rewrite fmap_cons in *. cbn [app parse_number]. by rewrite digit_char_not_minus.
Qed.

(** A numeral begins with the sign or a digit. *)
Lemma print_number_start q :
  ∃ c t, print_number q = c :: t ∧ (Ascii.eqb c minus || is_digit c) = true.
Proof.
  unfold print_number. destruct (Qnum q <? 0)%Z; [by eexists _, _|].
  destruct (natural_digits_head (Z.abs_N (Qnum q) / N.pos (Qden q)))
    as (d0 & ds & Heq & _).
  pose proof (natural_digits_bound (Z.abs_N (Qnum q) / N.pos (Qden q))) as Hb.
  rewrite Heq in *. apply Forall_cons_1 in Hb as [Hd0 _].
  eexists _, _. split; [by rewrite fmap_cons|].
  by rewrite is_digit_char, orb_true_r.
Qed.

(** ** What a reader consumes *)

Lemma span_digits_length input :
  length (span_digits input).2 ≤ length input ∧
  ((span_digits input).1 ≠ [] → length (span_digits input).2 < length input).
Proof.
  induction input as [|c input [IH _]]; simpl; [done|].
  destruct (is_digit c); [|done]. destruct (span_digits input). simpl in *. lia.
Qed.

Lemma parse_int_shorter input n r :
  parse_int input = Some (n, r) → length r < length input.
Proof.
  unfold parse_int. pose proof (span_digits_length input) as [_ H].
  destruct (span_digits input) as [ds r']. simpl in H.
  destruct ds as [|[|d] [|d' ds]]; intros [= _ <-]; by apply H.
Qed.

Lemma parse_frac_length input fs r :
  parse_frac input = Some (fs, r) → length r ≤ length input.
Proof.
  destruct input as [|c input]; simpl; [by intros [= _ <-]|].
  destruct (Ascii.eqb c dot); [|by intros [= _ <-]].
  pose proof (span_digits_length input) as [H _].
  destruct (span_digits input) as [[|f fs'] r']; [done|].
  intros [= _ <-]. simpl in *. lia.
Qed.

Lemma parse_exp_digits_length negative input e r :
  parse_exp_digits negative input = Some (e, r) → length r ≤ length input.
Proof.
  unfold parse_exp_digits. pose proof (span_digits_length input) as [H _].
  destruct (span_digits input) as [[|d ds] r']; [done|]. by intros [= _ <-].
Qed.

Lemma parse_exp_length input e r :
  parse_exp input = Some (e, r) → length r ≤ length input.
Proof.
  destruct input as [|c input]; simpl; [by intros [= _ <-]|].
  destruct (_ || _); [|by intros [= _ <-]].
  destruct input as [|s input]; [done|].
  repeat case_match; intros He%parse_exp_digits_length; simpl in *; lia.
Qed.

Lemma parse_unsigned_shorter negative input q r :
  parse_unsigned negative input = Some (q, r) → length r < length input.
Proof.
  unfold parse_unsigned. intros H.
  destruct (parse_int input) as [[ip r1]|] eqn:H1; simpl in H; [|done].
  destruct (parse_frac r1) as [[fs r2]|] eqn:H2; simpl in H; [|done].
  destruct (parse_exp r2) as [[ex r3]|] eqn:H3; simpl in H; [|done].
  injection H as _ <-.
  apply parse_int_shorter in H1. apply parse_frac_length in H2.
  apply parse_exp_length in H3. lia.
Qed.

(** A numeral is at least one character. *)
Lemma parse_number_shorter input q r :
  parse_number input = Some (q, r) → length r < length input.
Proof.
  destruct input as [|c input]; simpl; [done|].
  destruct (Ascii.eqb c minus); intros H%parse_unsigned_shorter; simpl in *; lia.
Qed.
