(* ===== verification/Json.v ===== *)
(** * JSON text ([JSON.stringify] and [response.json()], api/chat.ts
    lines 27 and 38)

    [JSON.stringify] turns the request object into the text that goes
    on the wire.  [print_value] is its serialisation of a value:
    strings quoted with the escapes of QuoteJSONString, numbers as
    decimal numerals ([Decimal]), arrays and objects without
    whitespace, an [undefined] array element written as [null] and an
    [undefined] property left out; [stringify] adds that [undefined]
    itself has no text.

    [parse] is a reader of the JSON grammar (RFC 8259): insignificant
    whitespace, every escape of a string, numbers with fraction and
    exponent, and for a repeated key the last value at the place of the
    first, as [JSON.parse] has it.  A reading is a [Read]: a [Value], a
    text that is [Malformed], or a text [Beyond] the model, which is
    one with an escape [\uXXXX] above [00FF], since characters are the
    code units 0-255 of this development.  [parse_print] shows that
    the text of a value denotes that value.  [JSON_parse] is what
    [response.json()] settles with on a body text: the value, or a
    [SyntaxError] whose message the [Engine] chooses.

    The three levels of the grammar ([read_value], [read_elements],
    [read_members]) are written once, over the readers of the level
    below, and [parse_value] ties them with fuel.  [parse] gives
    [parse_fuel], twice the length of the text plus one.  That is
    enough: every level consumes a character, so a value found with
    any fuel is found with the length of the text ([covers],
    [parse_value_fuel]), and from [parse_fuel] on more fuel changes no
    outcome ([parse_value_stable]). *)

From Stdlib Require Import QArith Ascii.
From stdpp Require Import strings.
From S2P Require Import Prelude JsString JsValue Decimal.

(** ** Characters *)

Definition quote_mark : ascii := "034".
Definition backslash : ascii := "092".
Definition comma : ascii := ",".
Definition colon : ascii := ":".
Definition lbracket : ascii := "[".
Definition rbracket : ascii := "]".
Definition lbrace : ascii := "{".
Definition rbrace : ascii := "}".

(** Space, tab, line feed and carriage return. *)
Definition is_json_ws (c : ascii) : bool :=
  let n := N_of_ascii c in ((n =? 32) || (n =? 9) || (n =? 10) || (n =? 13))%N.

Fixpoint skip_ws (input : list ascii) : list ascii :=
  match input with
  | c :: rest => if is_json_ws c then skip_ws rest else input
  | [] => []
  end.

(** ** What reading gives

    A reader gives a value, or finds that the text is not a JSON text,
    or meets an escape for a code unit above 255, which the strings of
    this development do not hold. *)

Inductive Read (A : Type) : Type :=
| Value (a : A)
| Malformed
| Beyond.

Arguments Value {A} a.
Arguments Malformed {A}.
Arguments Beyond {A}.

#[export] Instance Read_ret : MRet Read := λ _ a, Value a.

#[export] Instance Read_bind : MBind Read := λ _ _ f r,
  match r with
  | Value a => f a
  | Malformed => Malformed
  | Beyond => Beyond
  end.

Definition of_option {A} (o : option A) : Read A :=
  match o with
  | Some a => Value a
  | None => Malformed
  end.

(** ** Strings *)

Definition hex_char (n : N) : ascii :=
  ascii_of_N (if (n <? 10)%N then 48 + n else 87 + n).

Definition hex_value (c : ascii) : option N :=
  let n := N_of_ascii c in
  if ((48 <=? n) && (n <=? 57))%N then Some (n - 48)%N
  else if ((97 <=? n) && (n <=? 102))%N then Some (n - 87)%N
  else if ((65 <=? n) && (n <=? 70))%N then Some (n - 55)%N
  else None.

(** QuoteJSONString, one code unit. *)
Definition escape_char (c : ascii) : list ascii :=
  let n := N_of_ascii c in
  if (n =? 34)%N then [backslash; quote_mark]
  else if (n =? 92)%N then [backslash; backslash]
  else if (n =? 8)%N then [backslash; "b"%char]
  else if (n =? 9)%N then [backslash; "t"%char]
  else if (n =? 10)%N then [backslash; "n"%char]
  else if (n =? 12)%N then [backslash; "f"%char]
  else if (n =? 13)%N then [backslash; "r"%char]
  else if (n <? 32)%N
  then [backslash; "u"%char; "0"%char; "0"%char; hex_char (n / 16); hex_char (n mod 16)]
  else [c].

(** The escaped characters and the closing quote. *)
Fixpoint print_chars (s : list ascii) : list ascii :=
  match s with
  | [] => [quote_mark]
  | c :: s => escape_char c ++ print_chars s
  end.

Definition print_string (s : string) : list ascii := quote_mark :: print_chars (chars s).

(** The character a two-character escape denotes. *)
Definition unescape (e : ascii) : option ascii :=
  let n := N_of_ascii e in
  if (n =? 34)%N then Some quote_mark
  else if (n =? 92)%N then Some backslash
  else if (n =? 47)%N then Some "/"%char
  else if (n =? 98)%N then Some (ascii_of_N 8)
  else if (n =? 102)%N then Some (ascii_of_N 12)
  else if (n =? 110)%N then Some (ascii_of_N 10)
  else if (n =? 114)%N then Some (ascii_of_N 13)
  else if (n =? 116)%N then Some (ascii_of_N 9)
  else None.

Definition hex4 (a b c d : ascii) : option N :=
  a ← hex_value a; b ← hex_value b; c ← hex_value c; d ← hex_value d;
  Some (((a * 16 + b) * 16 + c) * 16 + d)%N.

(** The characters of a string up to its closing quote, and what
    follows the quote. *)
Fixpoint parse_chars (input : list ascii) : Read (list ascii * list ascii) :=
  match input with
  | [] => Malformed
  | c :: rest =>
      if Ascii.eqb c quote_mark then Value ([], rest)
      else if Ascii.eqb c backslash then
        match rest with
        | e :: rest' =>
            if Ascii.eqb e "u" then
              match rest' with
              | h1 :: h2 :: h3 :: h4 :: rest'' =>
                  code ← of_option (hex4 h1 h2 h3 h4);
                  if (code <? 256)%N
                  then '(s, r) ← parse_chars rest''; Value (ascii_of_N code :: s, r)
                  else Beyond
              | _ => Malformed
              end
            else
              c' ← of_option (unescape e);
              '(s, r) ← parse_chars rest'; Value (c' :: s, r)
        | [] => Malformed
        end
      else if (N_of_ascii c <? 32)%N then Malformed
      else '(s, r) ← parse_chars rest; Value (c :: s, r)
  end.

Definition parse_string (input : list ascii) : Read (string * list ascii) :=
  '(s, r) ← parse_chars input; Value (of_chars s, r).

(** ** Printing values *)

Fixpoint join_comma (parts : list (list ascii)) : list ascii :=
  match parts with
  | [] => []
  | [p] => p
  | p :: ps => p ++ comma :: join_comma ps
  end.

Definition is_undefined (v : JsVal) : bool :=
  match v with JUndefined => true | _ => false end.

Section printers.
Context (print : JsVal → list ascii).

Definition print_member (kv : string * JsVal) : option (list ascii) :=
  if is_undefined kv.2 then None
  else Some (print_string kv.1 ++ colon :: print kv.2).

Definition print_elements (items : list JsVal) : list ascii :=
  join_comma (print <$> items).

Definition print_members (fields : list (string * JsVal)) : list ascii :=
  join_comma (omap print_member fields).

End printers.

(** SerializeJSONProperty without indentation, for a value that is
    held by an array or a property. *)
Fixpoint print_value (v : JsVal) : list ascii :=
  match v with
  | JUndefined | JNull => chars "null"
  | JBool true => chars "true"
  | JBool false => chars "false"
  | JNum q => print_number q
  | JStr s => print_string s
  | JArr items => lbracket :: print_elements print_value items ++ [rbracket]
  | JObj fields => lbrace :: print_members print_value fields ++ [rbrace]
  end.

(** [JSON.stringify(v)]: [undefined] has no text. *)
Definition stringify (v : JsVal) : option string :=
  if is_undefined v then None else Some (of_chars (print_value v)).

(** ** Reading values *)

Fixpoint strip_prefix (lit input : list ascii) : option (list ascii) :=
  match lit, input with
  | [], _ => Some input
  | a :: lit, b :: input => if Ascii.eqb a b then strip_prefix lit input else None
  | _ :: _, [] => None
  end.

(** Defining a property: a key that is there keeps its place. *)
Fixpoint obj_set (k : string) (v : JsVal) (fields : list (string * JsVal))
    : list (string * JsVal) :=
  match fields with
  | [] => [(k, v)]
  | (k', v') :: fields =>
      if String.eqb k' k then (k', v) :: fields else (k', v') :: obj_set k v fields
  end.

Definition object_of (members : list (string * JsVal)) : JsVal :=
  JObj (foldl (λ fields kv, obj_set kv.1 kv.2 fields) [] members).

(** One level of the grammar, for given readers of what is nested:
    a value, the elements of an array after its first bracket, the
    members of an object after its first brace. *)
Section levels.
Context (value : list ascii → Read (JsVal * list ascii)).
Context (elements : list ascii → Read (list JsVal * list ascii)).
Context (members : list ascii → Read (list (string * JsVal) * list ascii)).

Definition read_value (input : list ascii) : Read (JsVal * list ascii) :=
  match skip_ws input with
  | [] => Malformed
  | c :: rest =>
      if Ascii.eqb c quote_mark then
        '(s, r) ← parse_string rest; Value (JStr s, r)
      else if Ascii.eqb c lbracket then
        match skip_ws rest with
        | c' :: r =>
            if Ascii.eqb c' rbracket then Value (JArr [], r)
            else '(vs, r') ← elements (c' :: r); Value (JArr vs, r')
        | [] => Malformed
        end
      else if Ascii.eqb c lbrace then
        match skip_ws rest with
        | c' :: r =>
            if Ascii.eqb c' rbrace then Value (JObj [], r)
            else '(ms, r') ← members (c' :: r); Value (object_of ms, r')
        | [] => Malformed
        end
      else if Ascii.eqb c "n" then r ← of_option (strip_prefix (chars "ull") rest); Value (JNull, r)
      else if Ascii.eqb c "t" then r ← of_option (strip_prefix (chars "rue") rest); Value (JBool true, r)
      else if Ascii.eqb c "f" then r ← of_option (strip_prefix (chars "alse") rest); Value (JBool false, r)
      else '(q, r) ← of_option (parse_number (c :: rest)); Value (JNum q, r)
  end.

(** After an element or a member: a comma and the others, or the
    closing bracket. *)
Definition read_more {A} (others : list ascii → Read (list A * list ascii))
    (close : ascii) (first : A) (input : list ascii) : Read (list A * list ascii) :=
  match skip_ws input with
  | c :: r' =>
      if Ascii.eqb c comma then '(xs, r'') ← others r'; Value (first :: xs, r'')
      else if Ascii.eqb c close then Value ([first], r')
      else Malformed
  | [] => Malformed
  end.

Definition read_elements (input : list ascii) : Read (list JsVal * list ascii) :=
  '(v, r) ← value input; read_more elements rbracket v r.

Definition read_members (input : list ascii)
    : Read (list (string * JsVal) * list ascii) :=
  match skip_ws input with
  | q :: r0 =>
      if Ascii.eqb q quote_mark then
        '(k, r1) ← parse_string r0;
        match skip_ws r1 with
        | c1 :: r2 =>
            if Ascii.eqb c1 colon then
              '(v, r3) ← value r2; read_more members rbrace (k, v) r3
            else Malformed
        | [] => Malformed
        end
      else Malformed
  | [] => Malformed
  end.

End levels.

(** The readers, tied together on fuel. *)
Fixpoint parse_value (fuel : nat) (input : list ascii) {struct fuel}
    : Read (JsVal * list ascii) :=
  match fuel with
  | 0 => Malformed
  | S fuel => read_value (parse_elements fuel) (parse_members fuel) input
  end
with parse_elements (fuel : nat) (input : list ascii) {struct fuel}
    : Read (list JsVal * list ascii) :=
  match fuel with
  | 0 => Malformed
  | S fuel => read_elements (parse_value fuel) (parse_elements fuel) input
  end
with parse_members (fuel : nat) (input : list ascii) {struct fuel}
    : Read (list (string * JsVal) * list ascii) :=
  match fuel with
  | 0 => Malformed
  | S fuel => read_members (parse_value fuel) (parse_members fuel) input
  end.

(** A JSON text is one value and nothing but whitespace around it. *)
Definition parse_with (fuel : nat) (text : list ascii) : Read JsVal :=
  '(v, rest) ← parse_value fuel text;
  match skip_ws rest with [] => Value v | _ => Malformed end.

(** Opening an array or an object takes two units of fuel for one
    character. *)
Definition parse_fuel (text : list ascii) : nat := 2 * length text + 1.

Definition parse (text : list ascii) : Read JsVal :=
  parse_with (parse_fuel text) text.

(** ** [JSON.parse]

    The message of the [SyntaxError] is the engine's own; the language
    does not fix it. *)
Class Engine : Type := {
  syntax_error_message : string → string;
}.

(** [JSON.parse(text)]; [None] when the text leaves the strings of
    this development. *)
Definition JSON_parse `{Engine} (text : string) : option (outcome Thrown JsVal) :=
  match parse (chars text) with
  | Value v => Some (Fulfilled v)
  | Malformed => Some (Rejected (ErrorObj "SyntaxError" (syntax_error_message text)))
  | Beyond => None
  end.

(** ** Values that a text denotes *)

(** The characters a value can begin with. *)
Definition value_start (c : ascii) : bool :=
  Ascii.eqb c quote_mark || Ascii.eqb c lbracket || Ascii.eqb c lbrace ||
  Ascii.eqb c "n" || Ascii.eqb c "t" || Ascii.eqb c "f" ||
  Ascii.eqb c minus || is_digit c.

(** No [undefined] inside, decimal numbers, and no key twice in an
    object. *)
Fixpoint wire_value (v : JsVal) : bool :=
  match v with
  | JUndefined => false
  | JNum q => decimal q
  | JArr items => forallb wire_value items
  | JObj fields =>
      forallb (λ kv, wire_value kv.2) fields && bool_decide (NoDup fields.*1)
  | _ => true
  end.

(** The fuel that reading the text of a value takes. *)
Fixpoint weight (v : JsVal) : nat :=
  match v with
  | JArr items => S (sum_list_with (λ x, S (weight x)) items)
  | JObj fields => S (sum_list_with (λ kv, S (weight kv.2)) fields)
  | _ => 1
  end.

(** Reading the text of [v] gives [v] back, with any fuel from
    [weight v] on and whatever follows that does not continue a
    numeral. *)
Definition reads_back (v : JsVal) : Prop :=
  ∀ fuel rest, weight v ≤ fuel → number_end rest = true →
    parse_value fuel (print_value v ++ rest) = Value (v, rest).

(** [p] consumes at least one character, and [q] gives what [p] gives
    whenever that took at most [budget] characters. *)
Definition covers {A} (budget : nat) (p q : list ascii → Read (A * list ascii))
    : Prop :=
  ∀ input a rest, p input = Value (a, rest) →
    length rest < length input ∧
    (length input - length rest ≤ budget → q input = Value (a, rest)).

(** The text of a property that is written. *)
Definition member_text (kv : string * JsVal) : list ascii :=
  print_string kv.1 ++ colon :: print_value kv.2.

(** ** The reader's monad *)

#[export] Instance Read_monad_laws : MonadLaws Read (λ A, eq).
Proof. split; [done | by intros A [] | by intros A B C [] f g]. Qed.

Lemma of_option_bind {A B} (o : option A) (f : A → option B) :
  of_option (o ≫= f) = of_option o ≫= (λ a, of_option (f a)).
Proof. by destruct o. Qed.

(** ** Characters, case by case *)

Ltac by_cases c := destruct c as [[] [] [] [] [] [] [] []]; done.

Lemma value_start_not_ws c : value_start c = true → is_json_ws c = false.
Proof. by_cases c. Qed.

Lemma value_start_not_closing c :
  value_start c = true →
  Ascii.eqb c rbracket = false ∧ Ascii.eqb c rbrace = false.
Proof. by_cases c. Qed.

Lemma number_start_dispatch c :
  (Ascii.eqb c minus || is_digit c) = true →
  value_start c = true ∧
  (Ascii.eqb c quote_mark || Ascii.eqb c lbracket || Ascii.eqb c lbrace ||
   Ascii.eqb c "n" || Ascii.eqb c "t" || Ascii.eqb c "f") = false.
Proof. by_cases c. Qed.

Lemma skip_ws_start c t : value_start c = true → skip_ws (c :: t) = c :: t.
Proof. intros Hc%value_start_not_ws. simpl. by rewrite Hc. Qed.

(** ** Strings *)

Lemma parse_chars_escape c tail :
  parse_chars (escape_char c ++ tail) =
  '(s, r) ← parse_chars tail; Value (c :: s, r).
Proof. by_cases c. Qed.

Lemma parse_chars_print s rest : parse_chars (print_chars s ++ rest) = Value (s, rest).
Proof.
  induction s as [|c s IH]; [done|]. cbn [print_chars].
  by rewrite <- (assoc_L (++)), parse_chars_escape, IH.
Qed.

Lemma parse_string_print s rest :
  parse_string (print_chars (chars s) ++ rest) = Value (s, rest).
Proof.
  unfold parse_string. rewrite parse_chars_print. simpl.
  by rewrite String.string_of_list_ascii_of_string.
Qed.

Lemma print_chars_length s : 1 ≤ length (print_chars s).
Proof.
  induction s as [|c s IH]; simpl; [done|]. rewrite length_app. lia.
Qed.

(** ** Objects *)

Lemma obj_set_fresh k v fields :
  k ∉ fields.*1 → obj_set k v fields = fields ++ [(k, v)].
Proof.
  induction fields as [|[k' v'] fields IH]; simpl; [done|].
  rewrite not_elem_of_cons. intros [Hne Hk].
  destruct (String.eqb_spec k' k); [congruence|]. by rewrite IH.
Qed.

Lemma foldl_obj_set_fresh acc members :
  NoDup (acc.*1 ++ members.*1) →
  foldl (λ fields kv, obj_set kv.1 kv.2 fields) acc members = acc ++ members.
Proof.
  revert acc. induction members as [|[k v] ms IH]; intros acc Hnd; simpl.
  { by rewrite app_nil_r. }
  rewrite obj_set_fresh, IH, <- (assoc_L (++)); [done| |].
  - by rewrite fmap_app, <- (assoc_L (++)).
  - apply NoDup_app in Hnd as (_ & Hnd & _). intros Hk.
    apply (Hnd k Hk). simpl. left.
Qed.

Lemma object_of_NoDup fields : NoDup fields.*1 → object_of fields = JObj fields.
Proof. intros Hnd. unfold object_of. by rewrite foldl_obj_set_fresh. Qed.

Lemma print_members_wire fields :
  forallb (λ kv, wire_value kv.2) fields = true →
  print_members print_value fields = join_comma (member_text <$> fields).
Proof.
  unfold print_members. intros Hw. f_equal.
  induction fields as [|[k v] fields IH]; [done|].
  simpl in Hw. apply andb_true_iff in Hw as [Hv Hw].
  rewrite fmap_cons, <- IH by done. unfold print_member at 1.
  by destruct v.
Qed.

(** ** Sequences *)

Lemma join_comma_cons p p' ps :
  join_comma (p :: p' :: ps) = p ++ comma :: join_comma (p' :: ps).
Proof. done. Qed.

Lemma print_value_start v :
  ∃ c t, print_value v = c :: t ∧ value_start c = true.
Proof.
  destruct v as [| |[]|q|s|items|fields]; try by eexists _, _.
  destruct (print_number_start q) as (c & t & Heq & Hc).
  exists c, t. split; [done|]. by apply number_start_dispatch.
Qed.

Lemma number_end_closing c rest :
  c = comma ∨ c = rbracket ∨ c = rbrace → number_end (c :: rest) = true.
Proof. by intros [->|[->| ->]]. Qed.

(** The reader steps over a punctuation character it expects. *)
Ltac step_over c :=
  cbn [skip_ws]; change (is_json_ws c) with false; cbn iota;
  change (Ascii.eqb c c) with true; cbn iota.

(** The side conditions of [reads_back]: fuel and what follows. *)
Ltac reads_side :=
  first [done | lia | apply number_end_closing; by left].

Lemma parse_elements_S fuel input :
  parse_elements (S fuel) input =
  '(v, r) ← parse_value fuel input; read_more (parse_elements fuel) rbracket v r.
Proof. done. Qed.

Lemma read_more_comma {A} (others : list ascii → Read (list A * list ascii))
    close x input :
  read_more others close x (comma :: input) =
  '(xs, r) ← others input; Value (x :: xs, r).
Proof. done. Qed.

Lemma read_more_close {A} (others : list ascii → Read (list A * list ascii))
    close x input :
  close = rbracket ∨ close = rbrace →
  read_more others close x (close :: input) = Value ([x], input).
Proof. by intros [-> | ->]. Qed.

Lemma parse_elements_print items :
  items ≠ [] → Forall reads_back items →
  ∀ fuel rest, sum_list_with (λ x, S (weight x)) items ≤ fuel →
    parse_elements fuel (print_elements print_value items ++ rbracket :: rest) =
    Value (items, rest).
Proof.
  intros Hne Hitems. induction Hitems as [|x xs Hx Hxs IH]; [done|].
  intros [|fuel] rest Hfuel; simpl in Hfuel; [lia|].
  unfold print_elements in *. rewrite parse_elements_S. destruct xs as [|x' xs].
  { cbn [fmap list_fmap join_comma]. rewrite Hx by reads_side.
    cbn [mbind Read_bind]. by rewrite read_more_close by auto. }
  rewrite fmap_cons, (fmap_cons _ x'), join_comma_cons, <- fmap_cons.
  rewrite <- (assoc_L (++)), Hx by reads_side.
  cbn [mbind Read_bind app]. by rewrite read_more_comma, IH by reads_side.
Qed.

Lemma parse_member_print k x fuel tail :
  reads_back x → weight x ≤ fuel → number_end tail = true →
  parse_members (S fuel) (member_text (k, x) ++ tail) =
  read_more (parse_members fuel) rbrace (k, x) tail.
Proof.
  intros Hx Hfuel Hend. unfold member_text, print_string. cbn [fst snd].
  rewrite <- !(assoc_L (++)). cbn [app parse_members]. unfold read_members.
  step_over quote_mark. rewrite parse_string_print. cbn [mbind Read_bind].
  step_over colon. by rewrite Hx.
Qed.

Lemma parse_members_print fields :
  fields ≠ [] → Forall (λ kv, reads_back kv.2) fields →
  ∀ fuel rest, sum_list_with (λ kv, S (weight kv.2)) fields ≤ fuel →
    parse_members fuel (join_comma (member_text <$> fields) ++ rbrace :: rest) =
    Value (fields, rest).
Proof.
  intros Hne Hfields. induction Hfields as [|[k x] fs Hx Hfs IH]; [done|].
  intros [|fuel] rest Hfuel; simpl in Hfuel, Hx; [lia|].
  destruct fs as [|kv fs].
  { cbn [fmap list_fmap join_comma].
    by rewrite parse_member_print, read_more_close by (reads_side || auto). }
  rewrite fmap_cons, (fmap_cons _ kv), join_comma_cons, <- fmap_cons.
  rewrite <- (assoc_L (++)), parse_member_print by reads_side.
  cbn [app]. by rewrite read_more_comma, IH by reads_side.
Qed.

(** ** Values *)

Lemma parse_value_quote fuel t :
  parse_value (S fuel) (quote_mark :: t) = '(s, r) ← parse_string t; Value (JStr s, r).
Proof. done. Qed.

Lemma parse_value_lbracket fuel t :
  parse_value (S fuel) (lbracket :: t) =
  match skip_ws t with
  | c' :: r =>
      if Ascii.eqb c' rbracket then Value (JArr [], r)
      else '(vs, r') ← parse_elements fuel (c' :: r); Value (JArr vs, r')
  | [] => Malformed
  end.
Proof. done. Qed.

Lemma parse_value_lbrace fuel t :
  parse_value (S fuel) (lbrace :: t) =
  match skip_ws t with
  | c' :: r =>
      if Ascii.eqb c' rbrace then Value (JObj [], r)
      else '(ms, r') ← parse_members fuel (c' :: r); Value (object_of ms, r')
  | [] => Malformed
  end.
Proof. done. Qed.

Lemma join_comma_start p ps tail c t :
  p = c :: t → ∃ t', join_comma (p :: ps) ++ tail = c :: t'.
Proof. intros ->. destruct ps; by eexists. Qed.

Lemma parse_value_number fuel q rest :
  decimal q = true → number_end rest = true →
  parse_value (S fuel) (print_number q ++ rest) = Value (JNum q, rest).
Proof.
  intros Hq Hrest. pose proof (parse_print_number q rest Hq Hrest) as Hp.
  destruct (print_number_start q) as (c & t & Heq & [Hs Hd]%number_start_dispatch).
  rewrite Heq in *. cbn [app parse_value] in *. unfold read_value.
  rewrite skip_ws_start by done.
  rewrite !orb_false_iff in Hd. destruct Hd as [[[[[-> ->] ->] ->] ->] ->].
  by rewrite Hp.
Qed.

Lemma parse_value_array fuel items rest :
  Forall reads_back items → sum_list_with (λ x, S (weight x)) items ≤ fuel →
  parse_value (S fuel) (print_value (JArr items) ++ rest) = Value (JArr items, rest).
Proof.
  intros Hitems Hfuel. cbn [print_value app]. rewrite parse_value_lbracket.
  rewrite <- (assoc_L (++)). cbn [app]. destruct items as [|x xs]; [done|].
  pose proof (parse_elements_print (x :: xs) ltac:(done) Hitems fuel rest Hfuel) as Hp.
  destruct (print_value_start x) as (c & t & Hx & Hc).
  destruct (join_comma_start _ (print_value <$> xs) (rbracket :: rest) c t Hx)
    as (t' & Heq).
  unfold print_elements in *. rewrite fmap_cons, Heq in *.
  rewrite skip_ws_start by done. destruct (value_start_not_closing c Hc) as [-> _].
  by rewrite Hp.
Qed.

Lemma parse_value_object fuel fields rest :
  forallb (λ kv, wire_value kv.2) fields = true → NoDup fields.*1 →
  Forall (λ kv, reads_back kv.2) fields →
  sum_list_with (λ kv, S (weight kv.2)) fields ≤ fuel →
  parse_value (S fuel) (print_value (JObj fields) ++ rest) = Value (JObj fields, rest).
Proof.
  intros Hw Hnd Hfields Hfuel. cbn [print_value app]. rewrite parse_value_lbrace.
  rewrite <- (assoc_L (++)), print_members_wire by done. cbn [app].
  destruct fields as [|kv fs]; [done|].
  pose proof (parse_members_print (kv :: fs) ltac:(done) Hfields fuel rest Hfuel) as Hp.
  destruct (join_comma_start (member_text kv) (member_text <$> fs)
    (rbrace :: rest) quote_mark _ eq_refl) as (t' & Heq).
  rewrite fmap_cons, Heq in *. rewrite skip_ws_start by done.
  change (Ascii.eqb quote_mark rbrace) with false. cbn iota.
  rewrite Hp. simpl. by rewrite object_of_NoDup.
Qed.

(** The text of a wire value reads back as the value. *)
Lemma print_value_reads_back v : wire_value v = true → reads_back v.
Proof.
  induction v as [| |b|q|s|items IH|fields IH] using JsVal_ind_nested;
    intros Hw [|fuel] rest Hfuel Hrest; simpl in Hfuel, Hw; try lia; try done.
  - by destruct b.
  - by apply parse_value_number.
  - cbn [print_value print_string app].
    by rewrite parse_value_quote, parse_string_print.
  - apply parse_value_array; [|lia].
    apply forallb_Forall in Hw. exact (Forall_modus_ponens _ _ _ IH Hw).
  - apply andb_true_iff in Hw as [Hw Hnd%bool_decide_eq_true].
    apply parse_value_object; [done|done| |lia].
    apply forallb_Forall in Hw. exact (Forall_modus_ponens _ _ _ IH Hw).
Qed.

(** ** Fuel *)

(** The fuel of a sequence is within the length of its text. *)
Lemma join_comma_weight {A} (w : A → nat) (text : A → list ascii) (l : list A) :
  Forall (λ x, w x ≤ length (text x)) l →
  sum_list_with (λ x, S (w x)) l ≤ S (length (join_comma (text <$> l))).
Proof.
  induction 1 as [|x l Hx Hl IH]; [simpl; lia|].
  destruct l as [|y l]; [simpl; lia|].
  rewrite fmap_cons, (fmap_cons _ y), join_comma_cons, <- fmap_cons, length_app.
  cbn [sum_list_with length] in *. lia.
Qed.

Lemma weight_length v : wire_value v = true → weight v ≤ length (print_value v).
Proof.
  induction v as [| |b|q|s|items IH|fields IH] using JsVal_ind_nested;
    intros Hw; simpl in Hw; try done; try (simpl; lia).
  - by destruct b; simpl; lia.
  - destruct (print_number_start q) as (c & t & Heq & _). simpl. rewrite Heq. simpl. lia.
  - apply forallb_Forall in Hw.
    pose proof (join_comma_weight weight print_value items
      (Forall_modus_ponens _ _ _ IH Hw)).
    cbn [weight print_value length]. unfold print_elements.
    rewrite length_app. simpl. lia.
  - apply andb_true_iff in Hw as [Hw _].
    cbn [weight print_value length]. rewrite print_members_wire, length_app by done.
    apply forallb_Forall in Hw.
    assert (Forall (λ kv, weight kv.2 ≤ length (member_text kv)) fields) as Hm.
    { eapply Forall_impl; [exact (Forall_modus_ponens _ _ _ IH Hw)|].
      intros [k x] Hx. unfold member_text. rewrite length_app. simpl in *. lia. }
    apply (join_comma_weight (λ kv, weight kv.2)) in Hm. simpl in *. lia.
Qed.

(** ** The round trip *)

(** The text of a wire value is a JSON text that denotes the value. *)
Lemma parse_print v : wire_value v = true → parse (print_value v) = Value v.
Proof.
  intros Hw. unfold parse, parse_with. rewrite <- (app_nil_r (print_value v)) at 2.
  rewrite (print_value_reads_back v Hw); [done| |done].
  pose proof (weight_length v Hw). unfold parse_fuel. lia.
Qed.

Lemma parse_stringify v text :
  wire_value v = true → stringify v = Some text → parse (chars text) = Value v.
Proof.
  unfold stringify. destruct (is_undefined v); [done|]. intros Hw [= <-].
  by rewrite String.list_ascii_of_string_of_list_ascii, parse_print.
Qed.

(** An [undefined] property is left out of the text, an [undefined]
    element is written as [null]. *)
Lemma print_members_undefined k fields :
  print_members print_value ((k, JUndefined) :: fields) =
  print_members print_value fields.
Proof. done. Qed.

Lemma print_members_snoc_undefined k fields :
  print_members print_value (fields ++ [(k, JUndefined)]) =
  print_members print_value fields.
Proof. unfold print_members. by rewrite omap_app, app_nil_r. Qed.

(** ** Texts that coincide *)

Lemma print_value_elements {A} (f g : A → JsVal) (l : list A) :
  (∀ x, print_value (f x) = print_value (g x)) →
  print_value (JArr (f <$> l)) = print_value (JArr (g <$> l)).
Proof.
  intros Hfg. cbn [print_value]. unfold print_elements.
  rewrite <- !list_fmap_compose. do 3 f_equal.
  apply list_fmap_ext. intros _ x _. apply Hfg.
Qed.

Lemma print_value_field k a b fields :
  is_undefined a = is_undefined b → print_value a = print_value b →
  print_value (JObj ((k, a) :: fields)) = print_value (JObj ((k, b) :: fields)).
Proof.
  intros Hu Hp. cbn [print_value]. unfold print_members. csimpl.
  unfold print_member at 1 3. cbn [fst snd]. by rewrite Hu, Hp.
Qed.

(** Values with the same text are the same value. *)
Lemma print_value_inj v v' :
  wire_value v = true → wire_value v' = true →
  print_value v = print_value v' → v = v'.
Proof.
  intros Hv Hv' Heq. apply parse_print in Hv, Hv'. rewrite Heq in Hv. congruence.
Qed.

(** ** Fuel: the length of the input is enough

    Every reader consumes at least one character for each unit of
    fuel it needs, so a result found with any fuel is found with as
    much fuel as the input is long. *)

Lemma skip_ws_length input : length (skip_ws input) ≤ length input.
Proof. induction input as [|c input IH]; simpl; [done|]. case_match; simpl; lia. Qed.

Lemma strip_prefix_length lit input r :
  strip_prefix lit input = Some r → length r ≤ length input.
Proof.
  revert input. induction lit as [|a lit IH]; intros [|b input]; simpl; try done.
  - by intros [= <-].
  - by intros [= <-].
  - case_match; [|done]. intros Hs%IH. lia.
Qed.

(** Inversion of a reader that gave a value. *)
Ltac read_inv :=
  repeat match goal with
  | H : Value _ = Value _ |- _ => injection H as ??; subst
  | H : Malformed = Value _ |- _ => discriminate H
  | H : Beyond = Value _ |- _ => discriminate H
  | H : of_option ?o = Value _ |- _ =>
      destruct o eqn:?; cbn [of_option] in H
  | H : mbind _ ?e = Value _ |- _ =>
      destruct e eqn:?; cbn [mbind Read_bind] in H
  | H : context [ match ?e with _ => _ end ] |- _ =>
      lazymatch type of H with _ = Value _ => destruct e eqn:? end
  end.

Lemma parse_chars_shorter input s r :
  parse_chars input = Value (s, r) → length r < length input.
Proof.
  remember (length input) as n eqn:Hn. revert input s r Hn.
  induction n as [n IH] using lt_wf_ind. intros input s r -> H.
  destruct input as [|c rest]; [done|]. cbn [parse_chars] in H.
  read_inv; cbn [length]; try lia;
    match goal with
    | H : parse_chars ?l = Value _ |- _ =>
        eapply (IH (length l)) in H; [cbn [length] in *; lia|cbn [length]; lia|done]
    end.
Qed.

Lemma parse_string_shorter input s r :
  parse_string input = Value (s, r) → length r < length input.
Proof.
  unfold parse_string. intros H. read_inv. by eapply parse_chars_shorter.
Qed.

Section covers.
Context {budget : nat}.
Context {value value' : list ascii → Read (JsVal * list ascii)}.
Context {elements elements' : list ascii → Read (list JsVal * list ascii)}.
Context {members members' : list ascii → Read (list (string * JsVal) * list ascii)}.
Context (Hvalue : covers budget value value').
Context (Helements : covers budget elements elements').
Context (Hmembers : covers budget members members').

Lemma read_more_covers {A} (others others' : list ascii → Read (list A * list ascii))
    close x :
  covers budget others others' →
  covers (S budget) (read_more others close x) (read_more others' close x).
Proof.
  intros Hothers input xs rest. unfold read_more.
  pose proof (skip_ws_length input).
  destruct (skip_ws input) as [|c r']; [done|]. cbn [length] in *.
  destruct (Ascii.eqb c comma).
  - destruct (others r') as [[ys r'']| |] eqn:Ho; [|done..].
    cbn [mbind Read_bind]. intros [= <- <-].
    destruct (Hothers _ _ _ Ho) as [Hlt Hq]. split; [lia|].
    intros Hb. by rewrite Hq by lia.
  - destruct (Ascii.eqb c close); [|done]. intros [= <- <-]. split; [lia|done].
Qed.

Lemma read_elements_covers :
  covers (S budget) (read_elements value elements) (read_elements value' elements').
Proof.
  intros input xs rest. unfold read_elements.
  destruct (value input) as [[v r]| |] eqn:Hv; [|done..]. cbn [mbind Read_bind].
  intros Hm. destruct (Hvalue _ _ _ Hv) as [Hlt Hq].
  destruct (read_more_covers _ _ rbracket v Helements _ _ _ Hm) as [Hlt' Hq'].
  split; [lia|]. intros Hb. rewrite Hq by lia. cbn [mbind Read_bind]. apply Hq'. lia.
Qed.

Lemma read_members_covers :
  covers (S budget) (read_members value members) (read_members value' members').
Proof.
  intros input xs rest. unfold read_members.
  pose proof (skip_ws_length input).
  destruct (skip_ws input) as [|q r0]; [done|].
  destruct (Ascii.eqb q quote_mark); [|done].
  destruct (parse_string r0) as [[k r1]| |] eqn:Hk; [|done..].
  apply parse_string_shorter in Hk. cbn [mbind Read_bind length] in *.
  pose proof (skip_ws_length r1).
  destruct (skip_ws r1) as [|c1 r2]; [done|].
  destruct (Ascii.eqb c1 colon); [|done].
  destruct (value r2) as [[v r3]| |] eqn:Hv; [|done..]. cbn [mbind Read_bind length] in *.
  intros Hm. destruct (Hvalue _ _ _ Hv) as [Hlt Hq].
  destruct (read_more_covers _ _ rbrace (k, v) Hmembers _ _ _ Hm) as [Hlt' Hq'].
  split; [lia|]. intros Hb. rewrite Hq by lia. cbn [mbind Read_bind]. apply Hq'. lia.
Qed.

(** A branch of [read_value] that reads without the nested readers. *)
Ltac covers_atom shorter :=
  let H := fresh "Hread" in
  match goal with
  | |- context [ mbind _ (of_option ?e) ] => destruct e as [[]|] eqn:H; [|done]
  | |- context [ mbind _ (of_option ?e) ] => destruct e eqn:H; [|done]
  | |- context [ mbind _ ?e ] => destruct e as [[]| |] eqn:H; [|done..]
  end;
  cbn [mbind Read_bind of_option]; intros [= <- <-]; apply shorter in H;
  cbn [length] in *; (split; [lia|done]).

(** A branch that opens an array or an object. *)
Ltac covers_nested Hnested :=
  let H := fresh "Hread" in
  match goal with
  | |- context [ skip_ws ?l ] =>
      pose proof (skip_ws_length l); destruct (skip_ws l) as [|? ?]; [done|]
  end;
  cbn [length] in *; case_match; [intros [= <- <-]; split; [lia|done]|];
  match goal with
  | |- context [ mbind _ ?e ] => destruct e as [[]| |] eqn:H; [|done..]
  end;
  cbn [mbind Read_bind]; intros [= <- <-];
  apply Hnested in H as [? Hq]; cbn [length] in *;
  (split; [lia|]); intros; by rewrite Hq by lia.

Lemma read_value_covers :
  covers (S budget) (read_value elements members) (read_value elements' members').
Proof.
  intros input v rest. unfold read_value.
  pose proof (skip_ws_length input).
  destruct (skip_ws input) as [|c r0]; [done|]. cbn [length] in *.
  destruct (Ascii.eqb c quote_mark); [covers_atom parse_string_shorter|].
  destruct (Ascii.eqb c lbracket); [covers_nested Helements|].
  destruct (Ascii.eqb c lbrace); [covers_nested Hmembers|].
  destruct (Ascii.eqb c "n"); [covers_atom strip_prefix_length|].
  destruct (Ascii.eqb c "t"); [covers_atom strip_prefix_length|].
  destruct (Ascii.eqb c "f"); [covers_atom strip_prefix_length|].
  covers_atom parse_number_shorter.
Qed.

End covers.

Lemma covers_zero {A} budget (p q q' : list ascii → Read (A * list ascii)) :
  covers budget p q → covers 0 p q'.
Proof. intros H input a rest Hp. destruct (H _ _ _ Hp). split; [done|lia]. Qed.

Lemma parse_covers fuel budget :
  covers budget (parse_value fuel) (parse_value budget) ∧
  covers budget (parse_elements fuel) (parse_elements budget) ∧
  covers budget (parse_members fuel) (parse_members budget).
Proof.
  revert budget. induction fuel as [|fuel IH]; intros budget; [by split_and!|].
  destruct budget as [|budget].
  - destruct (IH 0) as (Hv & He & Hm).
    split_and!; eapply covers_zero;
      [apply (read_value_covers He Hm)|apply (read_elements_covers Hv He)
      |apply (read_members_covers Hv Hm)].
  - destruct (IH budget) as (Hv & He & Hm).
    split_and!;
      [apply (read_value_covers He Hm)|apply (read_elements_covers Hv He)
      |apply (read_members_covers Hv Hm)].
Qed.

(** What any fuel finds, the length of the input finds. *)
Lemma parse_value_fuel fuel input v rest :
  parse_value fuel input = Value (v, rest) →
  ∀ fuel', length input ≤ fuel' → parse_value fuel' input = Value (v, rest).
Proof.
  intros H fuel' Hf. destruct (parse_covers fuel fuel') as [Hv _].
  destruct (Hv _ _ _ H) as [? Hq]. apply Hq. lia.
Qed.

Lemma parse_value_shorter fuel input v rest :
  parse_value fuel input = Value (v, rest) → length rest < length input.
Proof. intros H. by destruct (parse_covers fuel 0) as [Hv _], (Hv _ _ _ H). Qed.

(** ** Fuel: twice the length decides every outcome

    Opening an array or an object takes two units of fuel and one
    character, so with more than twice the length of the input no
    reader stops for lack of fuel: what it gives, a value or a
    refusal, is what every larger fuel gives. *)

Section ext.
Context {value value' : list ascii → Read (JsVal * list ascii)}.
Context {elements elements' : list ascii → Read (list JsVal * list ascii)}.
Context {members members' : list ascii → Read (list (string * JsVal) * list ascii)}.
Context (input : list ascii).
Context (Helements : ∀ i, length i < length input → elements i = elements' i).
Context (Hmembers : ∀ i, length i < length input → members i = members' i).

Lemma read_more_ext {A} (others others' : list ascii → Read (list A * list ascii))
    close x r :
  length r ≤ length input →
  (∀ i, length i < length input → others i = others' i) →
  read_more others close x r = read_more others' close x r.
Proof.
  intros Hr Hothers. unfold read_more. pose proof (skip_ws_length r).
  destruct (skip_ws r) as [|c r']; [done|]. cbn [length] in *.
  by rewrite Hothers by lia.
Qed.

Lemma read_value_ext :
  read_value elements members input = read_value elements' members' input.
Proof.
  unfold read_value. pose proof (skip_ws_length input).
  destruct (skip_ws input) as [|c r0]; [done|]. cbn [length] in *.
  pose proof (skip_ws_length r0).
  destruct (skip_ws r0) as [|c' r]; [done|]. cbn [length] in *.
  by rewrite Helements, Hmembers by (cbn [length]; lia).
Qed.

Lemma read_elements_ext :
  (∀ v r, value input = Value (v, r) → length r < length input) →
  value input = value' input →
  read_elements value elements input = read_elements value' elements' input.
Proof.
  intros Hshorter Hvalue. unfold read_elements. rewrite <- Hvalue.
  destruct (value input) as [[v r]| |] eqn:Hv; [|done..]. cbn [mbind Read_bind].
  apply read_more_ext; [|done]. specialize (Hshorter _ _ eq_refl). lia.
Qed.

Lemma read_members_ext :
  (∀ i v r, value i = Value (v, r) → length r < length i) →
  (∀ i, length i < length input → value i = value' i) →
  read_members value members input = read_members value' members' input.
Proof.
  intros Hshorter Hvalue. unfold read_members. pose proof (skip_ws_length input).
  destruct (skip_ws input) as [|q r0]; [done|]. cbn [length] in *.
  destruct (Ascii.eqb q quote_mark); [|done].
  destruct (parse_string r0) as [[k r1]| |] eqn:Hk; [|done..].
  apply parse_string_shorter in Hk. cbn [mbind Read_bind].
  pose proof (skip_ws_length r1).
  destruct (skip_ws r1) as [|c1 r2]; [done|]. cbn [length] in *.
  destruct (Ascii.eqb c1 colon); [|done]. rewrite <- Hvalue by lia.
  destruct (value r2) as [[v r3]| |] eqn:Hv; [|done..]. cbn [mbind Read_bind].
  apply read_more_ext; [|done]. apply Hshorter in Hv. lia.
Qed.

End ext.

Lemma parse_unfold fuel input :
  parse_value (S fuel) input =
    read_value (parse_elements fuel) (parse_members fuel) input ∧
  parse_elements (S fuel) input =
    read_elements (parse_value fuel) (parse_elements fuel) input ∧
  parse_members (S fuel) input =
    read_members (parse_value fuel) (parse_members fuel) input.
Proof. done. Qed.

Lemma parse_stable_S fuel :
  (∀ input, 2 * length input < fuel →
     parse_value (S fuel) input = parse_value fuel input) ∧
  (∀ input, 2 * length input + 1 < fuel →
     parse_elements (S fuel) input = parse_elements fuel input) ∧
  (∀ input, 2 * length input + 1 < fuel →
     parse_members (S fuel) input = parse_members fuel input).
Proof.
  induction fuel as [|fuel (IHv & IHe & IHm)]; [split_and!; intros; lia|].
  split_and!; intros input Hfuel;
    destruct (parse_unfold (S fuel) input) as (Ev & Ee & Em);
    destruct (parse_unfold fuel input) as (Ev' & Ee' & Em');
    rewrite ?Ev, ?Ee, ?Em, ?Ev', ?Ee', ?Em'.
  - apply read_value_ext; intros i Hi; [apply IHe|apply IHm]; lia.
  - apply read_elements_ext.
    + intros i Hi. apply IHe. lia.
    + intros v r. apply parse_value_shorter.
    + apply IHv. lia.
  - apply read_members_ext.
    + intros i Hi. apply IHm. lia.
    + intros i v r. apply parse_value_shorter.
    + intros i Hi. apply IHv. lia.
Qed.

(** Whatever [parse_value] gives with the fuel of [parse], it gives
    with every larger fuel. *)
Lemma parse_value_stable fuel input :
  parse_fuel input ≤ fuel → parse_value fuel input = parse_value (parse_fuel input) input.
Proof.
  unfold parse_fuel. induction 1 as [|fuel Hle IH]; [done|].
  rewrite <- IH. apply parse_stable_S. lia.
Qed.

(** ** [parse] is the reader that no fuel limits *)

Lemma parse_with_stable fuel text :
  parse_fuel text ≤ fuel → parse_with fuel text = parse text.
Proof. intros Hf. unfold parse, parse_with. by rewrite (parse_value_stable fuel). Qed.

Lemma parse_with_value fuel text v :
  parse_with fuel text = Value v → parse text = Value v.
Proof.
  unfold parse, parse_with. intros H.
  destruct (parse_value fuel text) as [[v' rest]| |] eqn:Hv; [|done..].
  rewrite (parse_value_fuel _ _ _ _ Hv) by (unfold parse_fuel; lia). done.
Qed.

(** The outcome of [JSON.parse] does not depend on the fuel of the
    reader: a value that some fuel finds is what [JSON.parse] returns,
    and when it throws, no fuel finds a value. *)
Lemma JSON_parse_value `{Engine} fuel text v :
  parse_with fuel (chars text) = Value v → JSON_parse text = Some (Fulfilled v).
Proof. intros Hv%parse_with_value. unfold JSON_parse. by rewrite Hv. Qed.

Lemma JSON_parse_throws `{Engine} text e :
  JSON_parse text = Some (Rejected e) →
  e = ErrorObj "SyntaxError" (syntax_error_message text) ∧
  (∀ fuel v, parse_with fuel (chars text) ≠ Value v) ∧
  (∀ fuel, parse_fuel (chars text) ≤ fuel → parse_with fuel (chars text) = Malformed).
Proof.
  unfold JSON_parse. destruct (parse (chars text)) as [v| |] eqn:Hp; [done| |done].
  intros [= <-]. split_and!; [done| |].
  - intros fuel v Hv%parse_with_value. congruence.
  - intros fuel Hf. by rewrite parse_with_stable.
Qed.
