(* ===== verification/Message.v ===== *)
(** * Wire types of the chat API (api/chat.ts, lines 1-18)

    The three interfaces the client declares ([Message], [ChatRequest],
    [ChatResponse]), the endpoint constant, and the two Fetch API records
    the client touches: the [init] argument it passes to [fetch] and the
    part of a [Response] it reads ([ok], [status], [json()]).

    [content] is a [JsVal]: the annotation [content: string] is erased at
    run time, and the assistant's content is read out of an unchecked
    response body.  [Message_typed] states the annotation; the store's
    theorems say when it holds. *)

From Stdlib Require Import QArith.
From stdpp Require Import strings.
From S2P Require Import Prelude JsValue.

(** ** [interface Message] *)

Inductive Role : Type := user | assistant | system.

(** What a [Role] is at run time: one of the three string literals. *)
Definition role_name (r : Role) : string :=
  match r with
  | user => "user"
  | assistant => "assistant"
  | system => "system"
  end.

Record Message : Type := mkMessage {
  role : Role;
  content : JsVal;
}.

(** ** [interface ChatRequest]; optional fields are [option]s. *)

Record ChatRequest : Type := mkChatRequest {
  req_messages : list Message;
  temperature : option Q;
  max_tokens : option Q;
}.

(** ** [interface ChatResponse]

    A body is a [ChatResponse] when it is an object whose [response]
    property is a string.  [sendChatMessage] never checks this. *)

Definition ChatResponse_typed (data : JsVal) : bool :=
  match get_prop data "response" with
  | Fulfilled v => is_string v
  | Rejected _ => false
  end.

(** ** [const API_BASE_URL] *)

Definition API_BASE_URL : string := "http://localhost:8000/api".

(** ** Fetch API

    [init_body] is the value handed to [JSON.stringify]; the string it
    produces is [request_text] of [Wire].  [body_json] is how [response.json()] will
    settle: with the parsed body, or by throwing the parser's
    [SyntaxError]. *)

Record RequestInit : Type := mkRequestInit {
  method : string;
  headers : list (string * string);
  init_body : ChatRequest;
}.

Record Response : Type := mkResponse {
  ok : bool;
  status : N;
  body_json : outcome Thrown JsVal;
}.

(** The Fetch standard: [ok] is true exactly on a status in 200-299. *)
Definition Response_wf (r : Response) : bool :=
  bool_decide (ok r = bool_decide (200 ≤ status r ≤ 299)%N).

(** ** The annotation [content: string], as a predicate *)

Definition Message_typed (m : Message) : bool := is_string (content m).

(** The text of a message whose content is a string. *)
Definition content_text (m : Message) : option string :=
  match content m with JStr s => Some s | _ => None end.

(** ** Decidable equality *)

#[export] Instance Role_eq_dec : EqDecision Role.
Proof. solve_decision. Defined.

#[export] Instance Message_eq_dec : EqDecision Message.
Proof. solve_decision. Defined.

#[export] Instance Q_eq_dec : EqDecision Q.
Proof. solve_decision. Defined.

#[export] Instance ChatRequest_eq_dec : EqDecision ChatRequest.
Proof. solve_decision. Defined.

#[export] Instance RequestInit_eq_dec : EqDecision RequestInit.
Proof. solve_decision. Defined.

#[export] Instance Response_eq_dec : EqDecision Response.
Proof. solve_decision. Defined.

(** ** Facts *)

Lemma Message_typed_iff m : Message_typed m = true ↔ ∃ s, content m = JStr s.
Proof. unfold Message_typed. destruct (content m); naive_solver. Qed.

Lemma Message_typed_text m :
  Message_typed m = true ↔ is_Some (content_text m).
Proof.
  rewrite Message_typed_iff. unfold content_text, is_Some.
  destruct (content m); naive_solver.
Qed.

Lemma ChatResponse_typed_iff data :
  ChatResponse_typed data = true ↔
  ∃ s, get_prop data "response" = Fulfilled (JStr s).
Proof.
  unfold ChatResponse_typed.
  destruct (get_prop data "response") as [[]|]; naive_solver.
Qed.

Lemma ChatResponse_typed_object s rest :
  ChatResponse_typed (JObj (("response", JStr s) :: rest)) = true.
Proof. done. Qed.

Lemma Response_wf_ok r :
  Response_wf r = true → (ok r = true ↔ (200 ≤ status r ≤ 299)%N).
Proof.
  unfold Response_wf. rewrite bool_decide_eq_true. intros ->.
  apply bool_decide_eq_true.
Qed.

#[export] Hint Resolve ChatResponse_typed_object : grobot.
