(* ===== verification/Task.v ===== *)
(** * Asynchronous functions as task trees

    An [async] function of the sources is a finite tree: it reads and
    writes the Zustand store ([get()], [set(...)]), writes to the console,
    throws, returns, and suspends at an [await] of one of the two promises
    the environment settles, [fetch(url, init)] and [response.json()].
    [Task St A] is the type of such trees over a store state [St] with
    results in [A]; its bind is sequencing, [try_catch] is [try { } catch].

    [run] executes a tree on a machine (store and console) until it
    returns, throws or suspends: one turn of the JavaScript event loop.
    Nothing else runs during a turn, so a turn is atomic; what happens
    between the turns of different tasks is the subject of [World].

    The trees hold continuations, so the monad laws are stated up to
    [task_equiv], equality with continuations compared pointwise. *)

From stdpp Require Import strings.
From S2P Require Import Prelude JsValue Message.

(** ** The tree *)

Inductive Task (St A : Type) : Type :=
| Ret (a : A)
| Throw (e : Thrown)
| GetState (k : St → Task St A)
| SetState (f : St → St) (k : Task St A)
| ConsoleError (label : string) (e : Thrown) (k : Task St A)
| AwaitFetch (url : string) (init : RequestInit)
    (k : outcome Thrown Response → Task St A)
| AwaitJson (r : Response) (k : outcome Thrown JsVal → Task St A).

Arguments Ret {St A} a.
Arguments Throw {St A} e.
Arguments GetState {St A} k.
Arguments SetState {St A} f k.
Arguments ConsoleError {St A} label e k.
Arguments AwaitFetch {St A} url init k.
Arguments AwaitJson {St A} r k.

(** ** Sequencing and exceptions *)

Fixpoint task_bind {St A B} (f : A → Task St B) (p : Task St A) : Task St B :=
  match p with
  | Ret a => f a
  | Throw e => Throw e
  | GetState k => GetState (λ s, task_bind f (k s))
  | SetState g k => SetState g (task_bind f k)
  | ConsoleError l e k => ConsoleError l e (task_bind f k)
  | AwaitFetch url init k => AwaitFetch url init (λ o, task_bind f (k o))
  | AwaitJson r k => AwaitJson r (λ o, task_bind f (k o))
  end.

#[export] Instance task_mret {St} : MRet (Task St) := λ _ a, Ret a.
#[export] Instance task_mbind {St} : MBind (Task St) := λ _ _ f p, task_bind f p.

(** [try { p } catch (e) { h e }] *)
Fixpoint try_catch {St A} (p : Task St A) (h : Thrown → Task St A) : Task St A :=
  match p with
  | Ret a => Ret a
  | Throw e => h e
  | GetState k => GetState (λ s, try_catch (k s) h)
  | SetState g k => SetState g (try_catch k h)
  | ConsoleError l e k => ConsoleError l e (try_catch k h)
  | AwaitFetch url init k => AwaitFetch url init (λ o, try_catch (k o) h)
  | AwaitJson r k => AwaitJson r (λ o, try_catch (k o) h)
  end.

(** ** The primitive statements *)

Section primitives.
Context {St : Type}.

(** [throw e] *)
Definition throw {A} (e : Thrown) : Task St A := Throw e.

(** [get()] *)
Definition get_state : Task St St := GetState Ret.

(** [set(f)] with an updater function *)
Definition set_state (f : St → St) : Task St unit := SetState f (Ret tt).

(** [console.error(label, e)] *)
Definition console_error (label : string) (e : Thrown) : Task St unit :=
  ConsoleError label e (Ret tt).

(** An expression that may throw, evaluated in place. *)
Definition eval {A} (o : outcome Thrown A) : Task St A :=
  match o with Fulfilled a => Ret a | Rejected e => Throw e end.

(** [await fetch(url, init)]: a rejected promise is rethrown by [await]. *)
Definition await_fetch (url : string) (init : RequestInit) : Task St Response :=
  AwaitFetch url init eval.

(** [await response.json()] *)
Definition await_json (r : Response) : Task St JsVal := AwaitJson r eval.

End primitives.

(** ** One turn of the event loop *)

(** A line of [console.error] output. *)
Record ConsoleEntry : Type := mkConsoleEntry {
  log_label : string;
  log_value : Thrown;
}.

(** What a turn acts on. *)
Record Machine (St : Type) : Type := mkMachine {
  store : St;
  console : list ConsoleEntry;
}.

Arguments mkMachine {St} store console.
Arguments store {St} m.
Arguments console {St} m.

(** How a turn ends. *)
Inductive Status (St A : Type) : Type :=
| Done (o : outcome Thrown A)
| OnFetch (url : string) (init : RequestInit)
    (k : outcome Thrown Response → Task St A)
| OnJson (r : Response) (k : outcome Thrown JsVal → Task St A).

Arguments Done {St A} o.
Arguments OnFetch {St A} url init k.
Arguments OnJson {St A} r k.

Fixpoint run {St A} (p : Task St A) (m : Machine St) : Machine St * Status St A :=
  match p with
  | Ret a => (m, Done (Fulfilled a))
  | Throw e => (m, Done (Rejected e))
  | GetState k => run (k (store m)) m
  | SetState f k => run k (mkMachine (f (store m)) (console m))
  | ConsoleError l e k =>
      run k (mkMachine (store m) (console m ++ [mkConsoleEntry l e]))
  | AwaitFetch url init k => (m, OnFetch url init k)
  | AwaitJson r k => (m, OnJson r k)
  end.

(** What the environment hands to a suspended task. *)
Inductive Reply : Type :=
| FetchSettled (o : outcome Thrown Response)
| JsonSettled.

(** The rest of a suspended task once its promise settles; [None] when
    the reply is not the one it waits for.  [response.json()] settles the
    way the response says it will. *)
Definition resume {St A} (s : Status St A) (r : Reply) : option (Task St A) :=
  match s, r with
  | OnFetch _ _ k, FetchSettled o => Some (k o)
  | OnJson resp k, JsonSettled => Some (k (body_json resp))
  | _, _ => None
  end.

(** Post-composition on the way a turn ends. *)
Definition status_bind {St A B} (f : A → Task St B) (s : Status St A)
    (m : Machine St) : Machine St * Status St B :=
  match s with
  | Done (Fulfilled a) => run (f a) m
  | Done (Rejected e) => (m, Done (Rejected e))
  | OnFetch url init k => (m, OnFetch url init (λ o, task_bind f (k o)))
  | OnJson r k => (m, OnJson r (λ o, task_bind f (k o)))
  end.

Definition status_catch {St A} (h : Thrown → Task St A) (s : Status St A)
    (m : Machine St) : Machine St * Status St A :=
  match s with
  | Done (Fulfilled a) => (m, Done (Fulfilled a))
  | Done (Rejected e) => run (h e) m
  | OnFetch url init k => (m, OnFetch url init (λ o, try_catch (k o) h))
  | OnJson r k => (m, OnJson r (λ o, try_catch (k o) h))
  end.

(** ** Equality up to continuations *)

Inductive task_equiv {St A} : relation (Task St A) :=
| equiv_Ret a : task_equiv (Ret a) (Ret a)
| equiv_Throw e : task_equiv (Throw e) (Throw e)
| equiv_GetState k k' :
    (∀ s, task_equiv (k s) (k' s)) → task_equiv (GetState k) (GetState k')
| equiv_SetState f f' k k' :
    (∀ s, f s = f' s) → task_equiv k k' →
    task_equiv (SetState f k) (SetState f' k')
| equiv_ConsoleError l e k k' :
    task_equiv k k' → task_equiv (ConsoleError l e k) (ConsoleError l e k')
| equiv_AwaitFetch url init k k' :
    (∀ o, task_equiv (k o) (k' o)) →
    task_equiv (AwaitFetch url init k) (AwaitFetch url init k')
| equiv_AwaitJson r k k' :
    (∀ o, task_equiv (k o) (k' o)) →
    task_equiv (AwaitJson r k) (AwaitJson r k').

#[export] Instance task_equiv_Equiv {St A} : Equiv (Task St A) := task_equiv.

(** Two ways of ending a turn are equivalent when they agree up to the
    continuations they hold. *)
Inductive status_equiv {St A} : relation (Status St A) :=
| equiv_Done o : status_equiv (Done o) (Done o)
| equiv_OnFetch url init k k' :
    (∀ o, k o ≡ k' o) → status_equiv (OnFetch url init k) (OnFetch url init k')
| equiv_OnJson r k k' :
    (∀ o, k o ≡ k' o) → status_equiv (OnJson r k) (OnJson r k').

#[export] Instance status_equiv_Equiv {St A} : Equiv (Status St A) := status_equiv.

(** ** How many suspensions a task can go through

    [settles_within n p]: on every path [p] suspends at most [n] times
    before it returns or throws. *)

Inductive settles_within {St A} : nat → Task St A → Prop :=
| sw_Ret n a : settles_within n (Ret a)
| sw_Throw n e : settles_within n (Throw e)
| sw_GetState n k : (∀ s, settles_within n (k s)) → settles_within n (GetState k)
| sw_SetState n f k : settles_within n k → settles_within n (SetState f k)
| sw_ConsoleError n l e k :
    settles_within n k → settles_within n (ConsoleError l e k)
| sw_AwaitFetch n url init k :
    (∀ o, settles_within n (k o)) → settles_within (S n) (AwaitFetch url init k)
| sw_AwaitJson n r k :
    (∀ o, settles_within n (k o)) → settles_within (S n) (AwaitJson r k).

(** ** What a task may write

    [guarantee G p]: every write [set(f)] of [p] takes a store [s] to a
    store [f s] with [G s (f s)].  [store_free p]: [p] never writes. *)

Inductive guarantee {St A} (G : relation St) : Task St A → Prop :=
| g_Ret a : guarantee G (Ret a)
| g_Throw e : guarantee G (Throw e)
| g_GetState k : (∀ s, guarantee G (k s)) → guarantee G (GetState k)
| g_SetState f k :
    (∀ s, G s (f s)) → guarantee G k → guarantee G (SetState f k)
| g_ConsoleError l e k : guarantee G k → guarantee G (ConsoleError l e k)
| g_AwaitFetch url init k :
    (∀ o, guarantee G (k o)) → guarantee G (AwaitFetch url init k)
| g_AwaitJson r k : (∀ o, guarantee G (k o)) → guarantee G (AwaitJson r k).

Inductive store_free {St A} : Task St A → Prop :=
| sf_Ret a : store_free (Ret a)
| sf_Throw e : store_free (Throw e)
| sf_GetState k : (∀ s, store_free (k s)) → store_free (GetState k)
| sf_ConsoleError l e k : store_free k → store_free (ConsoleError l e k)
| sf_AwaitFetch url init k :
    (∀ o, store_free (k o)) → store_free (AwaitFetch url init k)
| sf_AwaitJson r k : (∀ o, store_free (k o)) → store_free (AwaitJson r k).

(** [no_throw p]: no path of [p] ends in an uncaught [throw]. *)

Inductive no_throw {St A} : Task St A → Prop :=
| nt_Ret a : no_throw (Ret a)
| nt_GetState k : (∀ s, no_throw (k s)) → no_throw (GetState k)
| nt_SetState f k : no_throw k → no_throw (SetState f k)
| nt_ConsoleError l e k : no_throw k → no_throw (ConsoleError l e k)
| nt_AwaitFetch url init k : (∀ o, no_throw (k o)) → no_throw (AwaitFetch url init k)
| nt_AwaitJson r k : (∀ o, no_throw (k o)) → no_throw (AwaitJson r k).

(** ** Tasks that write once, in their last turn

    [quiet p]: [p] neither writes nor suspends.  [writes_last W p]: every
    path of [p] makes exactly one write, a [W]-step, and makes it in the
    turn in which it ends: no turn that suspends has written, and after
    the write nothing is written or awaited. *)

Inductive quiet {St A} : Task St A → Prop :=
| q_Ret a : quiet (Ret a)
| q_Throw e : quiet (Throw e)
| q_GetState k : (∀ s, quiet (k s)) → quiet (GetState k)
| q_ConsoleError l e k : quiet k → quiet (ConsoleError l e k).

Inductive writes_last {St A} (W : relation St) : Task St A → Prop :=
| wl_SetState f k : (∀ s, W s (f s)) → quiet k → writes_last W (SetState f k)
| wl_GetState k : (∀ s, writes_last W (k s)) → writes_last W (GetState k)
| wl_ConsoleError l e k : writes_last W k → writes_last W (ConsoleError l e k)
| wl_AwaitFetch url init k :
    (∀ o, writes_last W (k o)) → writes_last W (AwaitFetch url init k)
| wl_AwaitJson r k :
    (∀ o, writes_last W (k o)) → writes_last W (AwaitJson r k).

(** Whether a turn ended with the task done. *)
Definition is_done {St A} (s : Status St A) : bool :=
  match s with Done _ => true | _ => false end.

(** ** A task carried to its end by a server

    A server decides how each [fetch] settles from the request alone.
    [finish n server p m] runs [p] turn by turn for at most [n] replies,
    answering each suspension the way the server and the response
    dictate, with nothing else touching the machine between turns. *)

Definition Server : Type := string → RequestInit → outcome Thrown Response.

(** The reply a suspended task is waiting for. *)
Definition reply_of {St A} (server : Server) (s : Status St A) : Reply :=
  match s with
  | OnFetch url init _ => FetchSettled (server url init)
  | _ => JsonSettled
  end.

Fixpoint finish {St A} (n : nat) (server : Server) (p : Task St A)
    (m : Machine St) : Machine St * Status St A :=
  match n, resume (run p m).2 (reply_of server (run p m).2) with
  | S n', Some q => finish n' server q (run p m).1
  | _, _ => run p m
  end.

#[export] Hint Constructors task_equiv status_equiv settles_within guarantee
  store_free no_throw quiet writes_last : grobot.

(** ** [task_equiv] is an equivalence that the operations respect *)

(** Expose the inductive relations behind [≡]. *)
Ltac unfold_equiv :=
  unfold equiv, task_equiv_Equiv, status_equiv_Equiv in *.

Section equiv.
Context {St A : Type}.
Implicit Types p q : Task St A.

#[export] Instance task_equiv_refl : Reflexive (≡@{Task St A}).
Proof. intros p. unfold_equiv. induction p; constructor; auto. Qed.

#[export] Instance task_equiv_sym : Symmetric (≡@{Task St A}).
Proof. intros p q H. unfold_equiv. induction H; constructor; auto. Qed.

#[export] Instance task_equiv_trans : Transitive (≡@{Task St A}).
Proof.
  intros p q t H. unfold_equiv. revert t.
  induction H; intros t Ht; inv Ht; constructor; eauto.
  intros s. etrans; eauto.
Qed.

#[export] Instance task_equiv_equivalence : Equivalence (≡@{Task St A}).
Proof. split; apply _. Qed.

#[export] Instance status_equiv_equivalence : Equivalence (≡@{Status St A}).
Proof.
  split.
  - intros []; constructor; done.
  - intros s t []; constructor; done.
  - intros s t u [] Hu; inv Hu; constructor; intros; etrans; eauto.
Qed.

#[export] Instance try_catch_proper :
  Proper ((≡) ==> pointwise_relation _ (≡) ==> (≡)) (@try_catch St A).
Proof.
  intros p q Hpq h h' Hh. unfold_equiv.
  induction Hpq; simpl; try constructor; auto.
Qed.

Lemma run_proper p q m :
  p ≡ q → (run p m).1 = (run q m).1 ∧ (run p m).2 ≡ (run q m).2.
Proof.
  intros H. unfold_equiv. revert m.
  induction H as [| | | f f' k k' Hf | | |]; intros m; simpl; auto;
    try (split; [done | by constructor]).
  rewrite Hf. auto.
Qed.

End equiv.

#[export] Instance task_bind_proper {St A B} :
  Proper (pointwise_relation _ (≡) ==> (≡) ==> (≡)) (@task_bind St A B).
Proof.
  intros f f' Hf p q Hpq. unfold_equiv.
  induction Hpq; simpl; try constructor; auto.
Qed.

#[export] Instance task_monad_laws {St} : MonadLaws (Task St) (λ A, (≡)).
Proof.
  split.
  - intros A B a f. reflexivity.
  - intros A p. unfold mbind, task_mbind, mret, task_mret. unfold_equiv.
    induction p; simpl; constructor; auto.
  - intros A B C p f g. unfold mbind, task_mbind.
    induction p; simpl; try reflexivity; unfold_equiv; constructor; auto.
Qed.

(** ** Laws of [try_catch] *)

Section try_catch_laws.
Context {St A : Type}.
Implicit Types (p : Task St A) (h : Thrown → Task St A).

Lemma try_catch_rethrow p : try_catch p Throw ≡ p.
Proof. unfold_equiv. induction p; simpl; constructor; auto. Qed.

Lemma try_catch_nested p h h' :
  try_catch (try_catch p h) h' ≡ try_catch p (λ e, try_catch (h e) h').
Proof.
  induction p; simpl; try reflexivity; unfold_equiv; constructor; auto.
Qed.

Lemma try_catch_eval (o : outcome Thrown A) h :
  try_catch (eval o) h = match o with Fulfilled a => Ret a | Rejected e => h e end.
Proof. by destruct o. Qed.

End try_catch_laws.

(** ** A turn through a sequence and through a handler *)

Section run_lemmas.
Context {St : Type}.
Implicit Types m : Machine St.

Lemma run_bind {A B} (p : Task St A) (f : A → Task St B) m :
  run (p ≫= f) m = status_bind f (run p m).2 (run p m).1.
Proof.
  unfold mbind, task_mbind. revert m. induction p; intros m; simpl; auto.
Qed.

Lemma run_try_catch {A} (p : Task St A) h m :
  run (try_catch p h) m = status_catch h (run p m).2 (run p m).1.
Proof. revert m. induction p; intros m; simpl; auto. Qed.

(** A turn only appends to the console. *)
Lemma run_console_prefix {A} (p : Task St A) m :
  console m `prefix_of` console (run p m).1.
Proof.
  revert m. induction p as [| | |f k IH|l e k IH| |]; intros m; simpl; auto.
  - apply (IH (mkMachine _ _)).
  - etrans; [|apply (IH (mkMachine _ _))]. by apply prefix_app_r.
Qed.

(** A turn takes the store through writes that the guarantee allows. *)
Lemma run_guarantee {A} (G : relation St) (p : Task St A) m :
  guarantee G p → rtc G (store m) (store (run p m).1).
Proof.
  intros H. revert m.
  induction H as [| | |f k Hf _ IH|l e k _ IH| |]; intros m; simpl; auto;
    try reflexivity.
  - eapply rtc_l; [apply Hf | apply (IH (mkMachine _ _))].
  - apply (IH (mkMachine _ _)).
Qed.

(** What is left of a task after a reply keeps the guarantee. *)
Lemma resume_guarantee {A} (G : relation St) (p q : Task St A) m r :
  guarantee G p → resume (run p m).2 r = Some q → guarantee G q.
Proof.
  intros H. revert m. induction H as [| | |f k _ _ IH|l e k _ IH| |];
    intros m; simpl; eauto; destruct r; try done; intros [= <-]; auto.
Qed.

Lemma guarantee_weaken {A} (G G' : relation St) (p : Task St A) :
  (∀ s s', G s s' → G' s s') → guarantee G p → guarantee G' p.
Proof. intros HG H. induction H; constructor; auto. Qed.

Lemma guarantee_bind {A B} G (p : Task St A) (f : A → Task St B) :
  guarantee G p → (∀ a, guarantee G (f a)) → guarantee G (p ≫= f).
Proof.
  intros Hp Hf. unfold mbind, task_mbind.
  induction Hp; simpl; try constructor; auto.
Qed.

Lemma guarantee_try_catch {A} G (p : Task St A) h :
  guarantee G p → (∀ e, guarantee G (h e)) → guarantee G (try_catch p h).
Proof. intros Hp Hh. induction Hp; simpl; try constructor; auto. Qed.

Lemma guarantee_eval {A} G (o : outcome Thrown A) : guarantee G (eval (St:=St) o).
Proof. destruct o; constructor. Qed.

(** A task that never writes the store meets every guarantee and
    leaves the store as it found it. *)
Lemma store_free_guarantee {A} G (p : Task St A) : store_free p → guarantee G p.
Proof. intros H. induction H; constructor; auto. Qed.

Lemma run_store_free {A} (p : Task St A) m :
  store_free p → store (run p m).1 = store m.
Proof.
  intros H. apply (store_free_guarantee (λ _ _, False)), (run_guarantee _ _ m) in H.
  induction H as [|? ? ? []]; done.
Qed.

Lemma store_free_bind {A B} (p : Task St A) (f : A → Task St B) :
  store_free p → (∀ a, store_free (f a)) → store_free (p ≫= f).
Proof.
  intros Hp Hf. unfold mbind, task_mbind.
  induction Hp; simpl; try constructor; auto.
Qed.

Lemma store_free_try_catch {A} (p : Task St A) h :
  store_free p → (∀ e, store_free (h e)) → store_free (try_catch p h).
Proof. intros Hp Hh. induction Hp; simpl; try constructor; auto. Qed.

Lemma store_free_eval {A} (o : outcome Thrown A) : store_free (eval (St:=St) o).
Proof. destruct o; constructor. Qed.

(** ** Tasks that catch everything *)

Lemma no_throw_try_catch {A} (p : Task St A) h :
  (∀ e, no_throw (h e)) → no_throw (try_catch p h).
Proof. intros Hh. induction p; simpl; try constructor; auto. Qed.

Lemma no_throw_bind {A B} (p : Task St A) (f : A → Task St B) :
  no_throw p → (∀ a, no_throw (f a)) → no_throw (p ≫= f).
Proof.
  intros Hp Hf. unfold mbind, task_mbind.
  induction Hp; simpl; try constructor; auto.
Qed.

Lemma run_no_throw {A} (p : Task St A) m e :
  no_throw p → (run p m).2 ≠ Done (Rejected e).
Proof. intros H. revert m. induction H; intros m; simpl; auto; done. Qed.

Lemma resume_no_throw {A} (p q : Task St A) m r :
  no_throw p → resume (run p m).2 r = Some q → no_throw q.
Proof.
  intros H. revert m. induction H; intros m; simpl; eauto;
    destruct r; try done; intros [= <-]; auto.
Qed.

(** ** One write, in the last turn *)

Lemma run_quiet {A} (p : Task St A) m :
  quiet p → store (run p m).1 = store m ∧ is_done (run p m).2 = true.
Proof.
  intros H. revert m.
  induction H as [a|e|k _ IH|l e k _ IH]; intros m; simpl; auto.
  apply (IH (mkMachine _ _)).
Qed.

(** A turn that ends the task has made its one write; a turn that
    suspends has made none. *)
Lemma run_writes_last {A} (W : relation St) (p : Task St A) m :
  writes_last W p →
  if is_done (run p m).2 then W (store m) (store (run p m).1)
  else store (run p m).1 = store m.
Proof.
  intros H. revert m.
  induction H as [f k Hf Hk|k _ IH|l e k _ IH| |]; intros m; simpl;
    [|apply IH|apply (IH (mkMachine _ _))|done..].
  destruct (run_quiet k (mkMachine (f (store m)) (console m)) Hk) as [-> ->].
  apply Hf.
Qed.

Lemma resume_writes_last {A} (W : relation St) (p q : Task St A) m r :
  writes_last W p → resume (run p m).2 r = Some q → writes_last W q.
Proof.
  intros H. revert m. induction H as [f k Hf Hk|k _ IH|l e k _ IH| |];
    intros m; simpl; eauto; try (destruct r; try done; intros [= <-]; auto).
  destruct (run_quiet k (mkMachine (f (store m)) (console m)) Hk) as [_ Hd].
  destruct (run k _).2; [by destruct r | done..].
Qed.

Lemma quiet_eval {A} (o : outcome Thrown A) : quiet (eval (St:=St) o).
Proof. destruct o; constructor. Qed.

(** The shape of a guarded call: a callee that never writes, then a
    step that writes once whether it succeeds or is caught. *)
Lemma writes_last_try_catch_bind {A B} W (p : Task St A) (f : A → Task St B) h :
  store_free p →
  (∀ a, writes_last W (try_catch (f a) h)) →
  (∀ e, writes_last W (h e)) →
  writes_last W (try_catch (p ≫= f) h).
Proof.
  intros Hp Hf Hh. unfold mbind, task_mbind.
  induction Hp; simpl; try constructor; auto.
Qed.

Lemma writes_last_weaken {A} (W W' : relation St) (p : Task St A) :
  (∀ s s', W s s' → W' s s') → writes_last W p → writes_last W' p.
Proof. intros HW H. induction H; constructor; auto. Qed.

Lemma quiet_guarantee {A} G (p : Task St A) : quiet p → guarantee G p.
Proof. intros H. induction H; constructor; auto. Qed.

Lemma writes_last_guarantee {A} W (p : Task St A) : writes_last W p → guarantee W p.
Proof. intros H. induction H; constructor; auto using quiet_guarantee. Qed.

(** ** Carrying a task to its end *)

Lemma finish_0 {A} server (p : Task St A) m : finish 0 server p m = run p m.
Proof. done. Qed.

Lemma finish_done {A} n server (p : Task St A) m :
  is_done (run p m).2 = true → finish n server p m = run p m.
Proof. destruct n; simpl; [done|]. by destruct (run p m).2. Qed.

Lemma finish_S {A} n server (p q : Task St A) m :
  resume (run p m).2 (reply_of server (run p m).2) = Some q →
  finish (S n) server p m = finish n server q (run p m).1.
Proof. simpl. by intros ->. Qed.

(** A suspended task accepts the reply it waits for. *)
Lemma resume_reply_of {A} server (s : Status St A) :
  is_done s = false → is_Some (resume s (reply_of server s)).
Proof. destruct s; simpl; [done|eauto..]. Qed.

Lemma finish_guarantee {A} (G : relation St) n server (p : Task St A) m :
  guarantee G p → rtc G (store m) (store (finish n server p m).1).
Proof.
  revert p m. induction n as [|n IH]; intros p m Hp; simpl.
  { by apply run_guarantee. }
  destruct (resume _ _) as [q|] eqn:Hq; [|by apply run_guarantee].
  etrans; [by apply (run_guarantee G p m)|].
  eapply IH, resume_guarantee; eauto.
Qed.

(** Carried to its end, a task that writes last has written once. *)
Lemma finish_writes_last {A} (W : relation St) n server (p : Task St A) m :
  writes_last W p →
  if is_done (finish n server p m).2 then W (store m) (store (finish n server p m).1)
  else store (finish n server p m).1 = store m.
Proof.
  revert p m. induction n as [|n IH]; intros p m Hp; simpl.
  { by apply run_writes_last. }
  destruct (resume _ _) as [q|] eqn:Hq; [|by apply run_writes_last].
  pose proof (run_writes_last W p m Hp) as Hrun.
  destruct (run p m).2 eqn:Hs; [done|..]; simpl in Hrun;
    specialize (IH q (run p m).1 (resume_writes_last W p q m _ Hp
      (eq_trans (f_equal (λ s, resume s _) Hs) Hq)));
    by rewrite Hrun in IH.
Qed.

Lemma finish_no_throw {A} n server (p : Task St A) m e :
  no_throw p → (finish n server p m).2 ≠ Done (Rejected e).
Proof.
  revert p m. induction n as [|n IH]; intros p m Hp; simpl.
  { by apply run_no_throw. }
  destruct (resume _ _) as [q|] eqn:Hq; [|by apply run_no_throw].
  eapply IH, resume_no_throw; eauto.
Qed.

End run_lemmas.

(** ** Bounded suspension *)

Section settles.
Context {St : Type}.

Lemma settles_within_mono {A} n n' (p : Task St A) :
  n ≤ n' → settles_within n p → settles_within n' p.
Proof.
  intros Hle H. revert n' Hle. induction H; intros n' Hle; try (constructor; auto).
  - destruct n'; [lia|]. constructor. intros o. eauto with lia.
  - destruct n'; [lia|]. constructor. intros o. eauto with lia.
Qed.

Lemma settles_within_bind {A B} n k (p : Task St A) (f : A → Task St B) :
  settles_within n p → (∀ a, settles_within k (f a)) →
  settles_within (n + k) (p ≫= f).
Proof.
  intros Hp Hf. unfold mbind, task_mbind.
  induction Hp; simpl; try (constructor; auto).
  apply settles_within_mono with k; [lia | auto].
Qed.

Lemma settles_within_try_catch {A} n k (p : Task St A) h :
  settles_within n p → (∀ e, settles_within k (h e)) →
  settles_within (n + k) (try_catch p h).
Proof.
  intros Hp Hh. induction Hp; simpl; try (constructor; auto).
  apply settles_within_mono with k; [lia | auto].
Qed.

(** The common case: what follows, or what catches, does not suspend. *)
Lemma settles_within_bind_0 {A B} n (p : Task St A) (f : A → Task St B) :
  settles_within n p → (∀ a, settles_within 0 (f a)) → settles_within n (p ≫= f).
Proof. rewrite <-(Nat.add_0_r n) at 2. apply settles_within_bind. Qed.

Lemma settles_within_try_catch_0 {A} n (p : Task St A) h :
  settles_within n p → (∀ e, settles_within 0 (h e)) →
  settles_within n (try_catch p h).
Proof. rewrite <-(Nat.add_0_r n) at 2. apply settles_within_try_catch. Qed.

Lemma settles_within_eval {A} n (o : outcome Thrown A) :
  settles_within n (eval (St:=St) o).
Proof. destruct o; constructor. Qed.

(** A task that cannot suspend ends its turn done. *)
Lemma settles_within_0_done {A} (p : Task St A) m :
  settles_within 0 p → ∃ o, (run p m).2 = Done o.
Proof.
  intros H. remember 0 as n eqn:Hn. revert m.
  induction H; intros m; simpl; eauto; done.
Qed.

(** Each reply uses up one suspension. *)
Lemma settles_within_resume {A} n (p q : Task St A) m r :
  settles_within (S n) p → resume (run p m).2 r = Some q → settles_within n q.
Proof.
  intros H. remember (S n) as n' eqn:Hn. revert m.
  induction H; intros m; simpl; eauto.
  - destruct r; done.
  - destruct r; done.
  - injection Hn as ->. destruct r; [intros [= <-]; auto | done].
  - injection Hn as ->. destruct r; [done | intros [= <-]; auto].
Qed.

(** A task that suspended has used up one of its awaits. *)
Lemma settles_within_suspended {A} n (p q : Task St A) m r :
  settles_within n p → resume (run p m).2 r = Some q →
  settles_within (pred n) q.
Proof.
  destruct n as [|n]; [|apply settles_within_resume].
  intros [o Ho]%(settles_within_0_done p m). by rewrite Ho.
Qed.

(** With as many replies as it can suspend, a task is carried to its
    end whatever the server answers. *)
Lemma finish_settles {A} n server (p : Task St A) m :
  settles_within n p → is_done (finish n server p m).2 = true.
Proof.
  revert p m. induction n as [|n IH]; intros p m Hp.
  { destruct (settles_within_0_done p m Hp) as [o Ho]. simpl. by rewrite Ho. }
  simpl. destruct (resume _ _) as [q|] eqn:Hq.
  - eapply IH, settles_within_resume; eauto.
  - destruct (run p m).2 eqn:Hs; simpl in *; done.
Qed.

End settles.

#[export] Hint Resolve guarantee_bind guarantee_try_catch guarantee_eval
  store_free_bind store_free_try_catch store_free_eval quiet_eval
  no_throw_try_catch no_throw_bind settles_within_eval store_free_guarantee : grobot.
