(* ===== verification/ChatApi.v ===== *)
(** * What the store asks of the chat client

    The store imports one function from the API module, [sendChatMessage]
    (chatStore.ts line 14), and awaits it once per submission.  The store's
    theorems do not depend on how the client talks to the server; they
    need two promises, stated here as the laws of [ChatApi]:

    - the client never writes the store, so between the store's own
      writes the conversation is what the store made it;
    - the client suspends a bounded number of times, so a submission
      whose promises settle does finish.

    [Transport] implements the interface; [Store] is written against it. *)

From S2P Require Import Prelude JsValue Message Task.

Class ChatApi (St : Type) : Type := {
  (** the imported [sendChatMessage] *)
  chat_send : list Message → Task St JsVal;
  (** how many suspensions a call can go through, at most *)
  chat_awaits : nat;
  chat_send_store_free msgs : store_free (chat_send msgs);
  chat_send_settles msgs : settles_within chat_awaits (chat_send msgs);
}.

#[export] Hint Resolve chat_send_store_free chat_send_settles : grobot.

(** A client that answers at once, for tests of the store that need no
    network: it returns the given body, or throws the given value. *)
Definition stub_send {St} (reply : outcome Thrown JsVal) (msgs : list Message)
    : Task St JsVal := eval reply.

Definition stub_api {St} (reply : outcome Thrown JsVal) : ChatApi St := {|
  chat_send := stub_send reply;
  chat_awaits := 0;
  chat_send_store_free msgs := store_free_eval reply;
  chat_send_settles msgs := settles_within_eval 0 reply;
|}.
