(* ===== verification/Transport.v ===== *)
(** * The HTTP client (api/chat.ts, lines 17-44)

    [sendChatMessage] posts the message list with the two fixed sampling
    parameters to [API_BASE_URL/chat], throws on a status outside the
    success range, parses the body as JSON and returns it unchecked.
    Whatever is thrown inside is logged with [console.error] and thrown
    again.

    [exchange_result] is the reference: what the call settles to as a
    function of how [fetch] settled.  [sendChatMessage_finish] proves the
    task computes it on every branch, and [transport_api] discharges the
    [ChatApi] interface. *)

From Stdlib Require Import QArith.
From stdpp Require Import strings.
From S2P Require Import Prelude JsString JsValue Message Task ChatApi.

(** ** The request *)

(** [`${API_BASE_URL}/chat`] *)
Definition chat_url : string := API_BASE_URL +:+ "/chat".

(** The second argument of [fetch] (lines 22-32). *)
Definition chat_init (messages : list Message) : RequestInit := {|
  method := "POST";
  headers := [("Content-Type", "application/json")];
  init_body := {|
    req_messages := messages;
    temperature := Some 0.7%Q;
    max_tokens := Some 500%Q;
  |};
|}.

(** [new Error(`HTTP error! status: ${response.status}`)] (line 35) *)
Definition http_error (status : N) : Thrown :=
  ErrorObj "Error" ("HTTP error! status: " +:+ number_to_string status).

(** The label of the log line (line 41). *)
Definition send_error_label : string := "Error sending chat message:".

(** ** [sendChatMessage] *)

Definition sendChatMessage {St} (messages : list Message) : Task St JsVal :=
  try_catch
    (response ← await_fetch chat_url (chat_init messages);
     (if negb (ok response) then throw (http_error (status response))
      else mret tt);;
     data ← await_json response;
     mret data)
    (λ error,
     console_error send_error_label error;;
     throw error).

(** ** Reference: the result of one exchange *)

Definition exchange_result (o : outcome Thrown Response) : outcome Thrown JsVal :=
  match o with
  | Rejected e => Rejected e
  | Fulfilled r => if ok r then body_json r else Rejected (http_error (status r))
  end.

(** What the exchange adds to the console: one line per failure. *)
Definition exchange_log (o : outcome Thrown Response) : list ConsoleEntry :=
  match exchange_result o with
  | Fulfilled _ => []
  | Rejected e => [mkConsoleEntry send_error_label e]
  end.

(** ** The task computes the reference *)

Section transport.
Context {St : Type}.
Implicit Types (m : Machine St) (msgs : list Message).

(** The first turn sends the request and touches nothing. *)
Lemma sendChatMessage_first_turn msgs m :
  ∃ k, run (sendChatMessage msgs) m = (m, OnFetch chat_url (chat_init msgs) k).
Proof. eexists. reflexivity. Qed.

(** Carried through one exchange, the call settles to [exchange_result]
    of what the server did with the request, leaves the store alone and
    logs exactly the failure, if any. *)
Lemma sendChatMessage_finish server msgs m :
  let o := server chat_url (chat_init msgs) in
  finish 2 server (sendChatMessage msgs) m =
  (mkMachine (store m) (console m ++ exchange_log o), Done (exchange_result o)).
Proof.
  destruct m as [st log]. cbn.
  destruct (server chat_url (chat_init msgs)) as [[[] status [data|e]]|e];
    cbn; rewrite ?app_nil_r; reflexivity.
Qed.

Lemma sendChatMessage_store_free msgs : store_free (St:=St) (sendChatMessage msgs).
Proof.
  unfold sendChatMessage.
  apply store_free_try_catch; [|repeat constructor].
  constructor. intros [r|e]; [|constructor]. simpl.
  destruct (ok r); simpl; repeat constructor. intros []; constructor.
Qed.

Lemma sendChatMessage_settles msgs : settles_within (St:=St) 2 (sendChatMessage msgs).
Proof.
  unfold sendChatMessage. apply (settles_within_try_catch 2 0); [|repeat constructor].
  constructor. intros [r|e]; [|constructor]. simpl.
  destruct (ok r); simpl; repeat constructor. intros []; constructor.
Qed.

End transport.

(** The client as an implementation of the store's interface. *)
#[export] Instance transport_api {St} : ChatApi St := {|
  chat_send := sendChatMessage;
  chat_awaits := 2;
  chat_send_store_free := sendChatMessage_store_free;
  chat_send_settles := sendChatMessage_settles;
|}.

(** ** The reference, case by case *)

Lemma exchange_result_ok r :
  ok r = true → exchange_result (Fulfilled r) = body_json r.
Proof. simpl. by intros ->. Qed.

Lemma exchange_result_not_ok r :
  ok r = false → exchange_result (Fulfilled r) = Rejected (http_error (status r)).
Proof. simpl. by intros ->. Qed.

Lemma exchange_result_fulfilled o data :
  exchange_result o = Fulfilled data ↔
  ∃ r, o = Fulfilled r ∧ ok r = true ∧ body_json r = Fulfilled data.
Proof.
  destruct o as [r|e]; simpl; [|split; [done | by intros (? & [=] & _)]].
  destruct (ok r) eqn:Hok; split.
  - intros H. by exists r.
  - by intros (? & [= <-] & _ & H).
  - done.
  - intros (? & [= <-] & ? & _). congruence.
Qed.

Lemma exchange_log_length o : length (exchange_log o) ≤ 1.
Proof. unfold exchange_log. destruct (exchange_result o); simpl; lia. Qed.

Lemma exchange_log_failure o e :
  exchange_result o = Rejected e → exchange_log o = [mkConsoleEntry send_error_label e].
Proof. unfold exchange_log. by intros ->. Qed.

(** The message of an HTTP failure contains the status code in decimal. *)
Lemma http_error_message status :
  ∃ msg, http_error status = ErrorObj "Error" msg ∧
         includes msg (number_to_string status) = true.
Proof. eexists. split; [reflexivity|]. apply includes_suffix. Qed.

(** On a well-formed response the failure branch is taken exactly
    outside the success range 200-299. *)
Lemma exchange_result_status r :
  Response_wf r = true →
  exchange_result (Fulfilled r) =
  if bool_decide (200 ≤ status r ≤ 299)%N then body_json r
  else Rejected (http_error (status r)).
Proof.
  intros Hwf. pose proof (Response_wf_ok r Hwf) as Hok. simpl.
  destruct (ok r); case_bool_decide; naive_solver.
Qed.

