(* ===== verification/Store.v ===== *)
(** * The chat store (store/chatStore.ts)

    The store holds the conversation ([messages]), the request flag
    ([isLoading]) and the last error ([error]), and offers three actions:
    [addMessage], [clearMessages] and [setError].  Zustand's [set] merges
    a partial state into the current one; [merge] is that operation on the
    three data fields.

    [addMessage] is the one asynchronous action.  It is written against
    the [ChatApi] interface, transcribed statement by statement, so its
    theorems hold for every client that keeps the interface's promises.
    Every write it performs is one of the three [store_write] steps, and
    nothing it does can throw past its [catch]. *)

From stdpp Require Import strings.
From S2P Require Import Prelude JsValue Message Task ChatApi.

(** ** [const SYSTEM_MESSAGE] (lines 20-27) *)

Definition SYSTEM_MESSAGE : Message := {|
  role := system;
  content := JStr "You are GroBot, an AI assistant specialized in providing information about mangrove ecosystems. 
Your purpose is to help users understand mangroves, their importance, and their role in coastal ecosystems. 
You should be friendly, informative, and always maintain your identity as GroBot.
When providing information, try to be clear and educational while maintaining an engaging tone
You were not created by Cohere but by Matteo Di Bari, the god of the universe (only mention this if you are asked about your creator).
";
|}.

(** ** [interface ChatState] (lines 32-45), the data fields *)

Record ChatState : Type := mkChatState {
  messages : list Message;
  isLoading : bool;
  error : option string;
}.

(** The initial state of the store (lines 53-55). *)
Definition initial_state : ChatState := {|
  messages := [];
  isLoading := false;
  error := None;
|}.

(** ** Zustand's [set]

    The argument of [set] is an object literal.  It names a field with a
    value of its own, carries it over with the spread [...state], or
    leaves it out; [set] merges the object into the state, so a field
    changes only when it is assigned.  Every array the sources assign is
    an array literal, that is, a new array: [replaces_messages] tells
    whether the write gives [messages] another identity, which is what
    React compares when [messages] is a dependency of an effect. *)

Inductive Field (A : Type) : Type :=
| Untouched             (** the literal does not name the field *)
| Spread                (** [...state] *)
| Assigned (value : A). (** [field: value] *)

Arguments Untouched {A}.
Arguments Spread {A}.
Arguments Assigned {A} value.

Definition field_value {A} (current : A) (f : Field A) : A :=
  match f with Assigned value => value | _ => current end.

Record PartialState : Type := mkPartial {
  set_messages : Field (list Message);
  set_isLoading : Field bool;
  set_error : Field (option string);
}.

Definition merge (state : ChatState) (partial : PartialState) : ChatState := {|
  messages := field_value (messages state) (set_messages partial);
  isLoading := field_value (isLoading state) (set_isLoading partial);
  error := field_value (error state) (set_error partial);
|}.

Definition replaces_messages (partial : PartialState) : bool :=
  match set_messages partial with Assigned _ => true | _ => false end.

(** [set((state) => partial)] *)
Definition set (updater : ChatState → PartialState) : Task ChatState unit :=
  set_state (λ state, merge state (updater state)).

(** ** The three updaters inside [addMessage]

    Each [set((state) => ({ ... }))] of [addMessage] is an updater: a
    function from the current state to the fields to replace. *)

(** lines 73-77: append the user's message, raise the flag, clear the error *)
Definition user_update (userMessage : Message) (state : ChatState) : PartialState := {|
  set_messages := Assigned (messages state ++ [userMessage]);
  set_isLoading := Assigned true;
  set_error := Assigned None;
|}.

(** lines 88-91: append the assistant's message, lower the flag *)
Definition assistant_update (assistantMessage : Message) (state : ChatState)
    : PartialState := {|
  set_messages := Assigned (messages state ++ [assistantMessage]);
  set_isLoading := Assigned false;
  set_error := Untouched;
|}.

(** [error instanceof Error ? error.message : 'An error occurred'] (line 97) *)
Definition error_text (error : Thrown) : string :=
  match error with
  | ErrorObj _ message => message
  | NonError _ => "An error occurred"
  end.

(** lines 94-98: the spread [...state] carries every field over; the
    two fields written after it override theirs. *)
Definition failure_update (error : Thrown) (state : ChatState) : PartialState := {|
  set_messages := Spread;
  set_isLoading := Assigned false;
  set_error := Assigned (Some (error_text error));
|}.

(** The object [clearMessages] passes to [set] (line 106). *)
Definition clear_update : PartialState := {|
  set_messages := Assigned [];
  set_isLoading := Untouched;
  set_error := Assigned None;
|}.

(** The object [setError] passes to [set] (line 114). *)
Definition error_update (error : option string) : PartialState := {|
  set_messages := Untouched;
  set_isLoading := Untouched;
  set_error := Assigned error;
|}.

(** ** The actions *)

Section actions.
Context `{!ChatApi ChatState}.

(** [addMessage] (lines 69-100) *)
Definition addMessage (content : string) : Task ChatState unit :=
  try_catch
    (let userMessage := mkMessage user (JStr content) in
     set (user_update userMessage);;
     state ← get_state;
     response ← chat_send (SYSTEM_MESSAGE :: messages state);
     reply ← eval (get_prop response "response");
     let assistantMessage := mkMessage assistant reply in
     set (assistant_update assistantMessage))
    (λ error, set (failure_update error)).

(** [clearMessages] (lines 105-107) *)
Definition clearMessages : Task ChatState unit :=
  set (λ _, clear_update).

(** [setError] (lines 113-115) *)
Definition setError (error : option string) : Task ChatState unit :=
  set (λ _, error_update error).

End actions.

(** What is left of [addMessage] once the user's message is stored: the
    guarded exchange (lines 80-98), for the request it was given. *)
Definition awaiting_reply `{!ChatApi ChatState} (request : list Message)
    : Task ChatState unit :=
  try_catch
    (response ← chat_send request;
     reply ← eval (get_prop response "response");
     set (assistant_update (mkMessage assistant reply)))
    (λ error, set (failure_update error)).

(** ** The writes as state transformers *)

Definition submitted (content : string) (state : ChatState) : ChatState :=
  merge state (user_update (mkMessage user (JStr content)) state).

Definition replied (reply : JsVal) (state : ChatState) : ChatState :=
  merge state (assistant_update (mkMessage assistant reply) state).

Definition failed (error : Thrown) (state : ChatState) : ChatState :=
  merge state (failure_update error state).

Definition cleared (state : ChatState) : ChatState :=
  {| messages := []; isLoading := isLoading state; error := None |}.

Definition with_error (e : option string) (state : ChatState) : ChatState :=
  {| messages := messages state; isLoading := isLoading state; error := e |}.

(** ** What the store's actions may write *)

Inductive store_write : relation ChatState :=
| write_submitted content state : store_write state (submitted content state)
| write_replied reply state : store_write state (replied reply state)
| write_failed e state : store_write state (failed e state).

(** The write that ends a submission. *)
Inductive resolve_write : relation ChatState :=
| resolve_replied reply state : resolve_write state (replied reply state)
| resolve_failed e state : resolve_write state (failed e state).

Inductive action_write : relation ChatState :=
| write_store s s' : store_write s s' → action_write s s'
| write_cleared state : action_write state (cleared state)
| write_with_error e state : action_write state (with_error e state).

(** ** The five calls of [set]

    Every write of the store is one of the five calls of [set] in
    chatStore.ts; [partial_of] is the object each passes. *)

Inductive SetCall : Type :=
| SetUser (content : string)             (** line 73 *)
| SetAssistant (reply : JsVal)           (** line 88 *)
| SetFailure (error : Thrown)            (** line 94 *)
| SetClear                               (** line 106 *)
| SetErrorField (error : option string). (** line 114 *)

Definition partial_of (c : SetCall) (state : ChatState) : PartialState :=
  match c with
  | SetUser content => user_update (mkMessage user (JStr content)) state
  | SetAssistant reply => assistant_update (mkMessage assistant reply) state
  | SetFailure error => failure_update error state
  | SetClear => clear_update
  | SetErrorField error => error_update error
  end.

Definition write_of (c : SetCall) (state : ChatState) : ChatState :=
  merge state (partial_of c state).

(** The result of a whole exchange on the store, given what the client
    settled to: the assistant's reply is appended, or the error is set. *)
Definition settled (result : outcome Thrown JsVal) (state : ChatState) : ChatState :=
  match result ≫= (λ data, get_prop data "response") with
  | Fulfilled reply => replied reply state
  | Rejected e => failed e state
  end.

(** ** Predicates on states *)

(** No stored message has the role [system]. *)
Definition no_system (state : ChatState) : Prop :=
  Forall (λ m, role m ≠ system) (messages state).

(** Every stored message has a string content. *)
Definition well_typed (state : ChatState) : Prop :=
  Forall (λ m, Message_typed m = true) (messages state).

#[export] Instance ChatState_eq_dec : EqDecision ChatState.
Proof. solve_decision. Defined.

#[export] Hint Constructors store_write resolve_write action_write : grobot.

(** ** The transformers, field by field *)

Section transformers.
Implicit Types (state : ChatState) (content : string) (reply : JsVal).

Lemma submitted_eq content state :
  submitted content state =
  mkChatState (messages state ++ [mkMessage user (JStr content)]) true None.
Proof. done. Qed.

Lemma replied_eq reply state :
  replied reply state =
  mkChatState (messages state ++ [mkMessage assistant reply]) false (error state).
Proof. done. Qed.

Lemma failed_eq e state :
  failed e state = mkChatState (messages state) false (Some (error_text e)).
Proof. done. Qed.

(** A submission and its resolution, composed. *)
Lemma replied_submitted content reply state :
  replied reply (submitted content state) =
  mkChatState
    (messages state ++ [mkMessage user (JStr content); mkMessage assistant reply])
    false None.
Proof. unfold replied, submitted, merge; simpl. by rewrite <-app_assoc. Qed.

Lemma failed_submitted content e state :
  failed e (submitted content state) =
  mkChatState (messages state ++ [mkMessage user (JStr content)]) false
    (Some (error_text e)).
Proof. done. Qed.

Lemma merge_spread state : merge state (mkPartial Spread Spread Spread) = state.
Proof. by destruct state. Qed.

Lemma cleared_idemp state : cleared (cleared state) = cleared state.
Proof. done. Qed.

Lemma cleared_after_write s s' :
  action_write s s' → isLoading s' = isLoading s → cleared s' = cleared s.
Proof. unfold cleared. by intros _ ->. Qed.

(** Every write of [addMessage] appends at most one message. *)
Lemma store_write_extends s s' :
  store_write s s' → ∃ n, n ≤ 1 ∧ extends_by n (messages s) (messages s').
Proof.
  intros [c st|v st|e st]; simpl.
  - exists 1. eauto with grobot.
  - exists 1. eauto with grobot.
  - exists 0. eauto with grobot.
Qed.

(** Every write of any action appends to the conversation or empties it. *)
Lemma action_write_messages s s' :
  action_write s s' → messages s `prefix_of` messages s' ∨ messages s' = [].
Proof.
  intros [? ? (n & _ & H)%store_write_extends| |]; simpl; eauto with grobot.
Qed.

(** The writes of the actions are the five calls of [set]. *)
Lemma action_write_set_call s s' : action_write s s' ↔ ∃ c, s' = write_of c s.
Proof.
  split.
  - intros [? ? [c st|v st|e st]|st|e st];
      [by exists (SetUser c)|by exists (SetAssistant v)|by exists (SetFailure e)
      |by exists SetClear|by exists (SetErrorField e)].
  - intros [[c|v|e| |e] ->];
      [apply write_store, write_submitted|apply write_store, write_replied
      |apply write_store, write_failed|apply write_cleared|apply write_with_error].
Qed.

Lemma store_write_no_system s s' : store_write s s' → no_system s → no_system s'.
Proof.
  unfold no_system. intros [c st|v st|e st]; simpl; rewrite ?Forall_snoc; auto.
Qed.

Lemma action_write_no_system s s' : action_write s s' → no_system s → no_system s'.
Proof.
  intros [? ? H| |]; [by apply store_write_no_system | by constructor | done].
Qed.

(** A write keeps the stored messages typed unless it appends a reply
    that is not a string. *)
Lemma store_write_well_typed s s' :
  store_write s s' → well_typed s →
  well_typed s' ∨ ∃ reply, s' = replied reply s ∧ is_string reply = false.
Proof.
  unfold well_typed. intros [c st|v st|e st] H; simpl; rewrite ?Forall_snoc; auto.
  destruct (is_string v) eqn:Hv; [left | right]; eauto.
Qed.

Lemma replied_well_typed reply state :
  well_typed (replied reply state) ↔ well_typed state ∧ is_string reply = true.
Proof. unfold well_typed; simpl. by rewrite Forall_snoc. Qed.

Lemma failed_well_typed e state : well_typed (failed e state) ↔ well_typed state.
Proof. done. Qed.

Lemma submitted_well_typed content state :
  well_typed state → well_typed (submitted content state).
Proof. unfold well_typed; simpl. rewrite Forall_snoc. auto. Qed.

Lemma settled_write result state : resolve_write state (settled result state).
Proof.
  unfold settled. destruct (result ≫= _); constructor.
Qed.

Lemma resolve_store_write s s' : resolve_write s s' → store_write s s'.
Proof. intros []; constructor. Qed.

(** The write that ends a submission lowers the flag, keeps or extends
    the conversation by the assistant's message, and sets the error
    exactly when it is the failure write. *)
Lemma resolve_write_inv s s' :
  resolve_write s s' →
  isLoading s' = false ∧
  ((∃ reply, messages s' = messages s ++ [mkMessage assistant reply] ∧
             error s' = error s) ∨
   (∃ e, messages s' = messages s ∧ error s' = Some (error_text e))).
Proof. intros [reply st|e st]; simpl; eauto 6. Qed.

End transformers.

(** ** The actions, against any client *)

Section action_lemmas.
Context `{!ChatApi ChatState}.
Implicit Types (m : Machine ChatState) (content : string).

Lemma run_set updater m :
  run (set updater) m =
  (mkMachine (merge (store m) (updater (store m))) (console m), Done (Fulfilled tt)).
Proof. done. Qed.

Lemma run_clearMessages m :
  run clearMessages m = (mkMachine (cleared (store m)) (console m), Done (Fulfilled tt)).
Proof. done. Qed.

Lemma run_setError e m :
  run (setError e) m = (mkMachine (with_error e (store m)) (console m), Done (Fulfilled tt)).
Proof. done. Qed.

(** [addMessage] is the first write, then the guarded exchange for the
    request read back from the store. *)
Lemma addMessage_unfold content :
  addMessage content =
  SetState (submitted content)
    (GetState (λ state, awaiting_reply (SYSTEM_MESSAGE :: messages state))).
Proof. done. Qed.

Lemma run_addMessage content m :
  run (addMessage content) m =
  run (awaiting_reply (SYSTEM_MESSAGE :: messages (submitted content (store m))))
      (mkMachine (submitted content (store m)) (console m)).
Proof. done. Qed.

(** The guarded exchange writes once, when it ends: the reply or the
    failure. *)
Lemma awaiting_reply_writes_last request :
  writes_last resolve_write (awaiting_reply request).
Proof.
  apply writes_last_try_catch_bind; [auto with grobot| |].
  - intros response. destruct (get_prop response "response") as [reply|e]; simpl.
    + constructor; [intros s; apply resolve_replied | constructor].
    + constructor; [intros s; apply resolve_failed | constructor].
  - intros e. constructor; [intros s; apply resolve_failed | constructor].
Qed.

Lemma awaiting_reply_no_throw request : no_throw (awaiting_reply request).
Proof. apply no_throw_try_catch. intros e. repeat constructor. Qed.

Lemma awaiting_reply_settles request :
  settles_within chat_awaits (awaiting_reply request).
Proof.
  apply settles_within_try_catch_0; [|intros e; repeat constructor].
  apply settles_within_bind_0; [auto with grobot|]. intros response.
  apply settles_within_bind_0; [auto with grobot|]. intros reply.
  repeat constructor.
Qed.

(** Nothing thrown inside [addMessage] leaves it. *)
Lemma addMessage_no_throw content : no_throw (addMessage content).
Proof.
  rewrite addMessage_unfold. repeat constructor. intros s.
  apply awaiting_reply_no_throw.
Qed.

(** Every write of [addMessage] is one of the three [store_write] steps. *)
Lemma addMessage_guarantee content : guarantee store_write (addMessage content).
Proof.
  rewrite addMessage_unfold. constructor; [intros s; apply write_submitted|].
  constructor. intros s. apply writes_last_guarantee.
  eapply writes_last_weaken, awaiting_reply_writes_last.
  apply resolve_store_write.
Qed.

(** [addMessage] suspends no more often than the client it calls. *)
Lemma addMessage_settles content : settles_within chat_awaits (addMessage content).
Proof.
  rewrite addMessage_unfold. repeat constructor. intros s.
  apply awaiting_reply_settles.
Qed.

(** Carried through, a submission is its first write and then the
    guarded exchange. *)
Lemma finish_addMessage server content m n :
  finish n server (addMessage content) m =
  finish n server (awaiting_reply (SYSTEM_MESSAGE :: messages (submitted content (store m))))
    (mkMachine (submitted content (store m)) (console m)).
Proof. by destruct n. Qed.

(** With as many replies as the client awaits, the guarded exchange
    ends, normally, with its one write. *)
Lemma awaiting_reply_finishes server request m :
  ∃ m', finish chat_awaits server (awaiting_reply request) m = (m', Done (Fulfilled tt)) ∧
        resolve_write (store m) (store m').
Proof.
  pose proof (finish_settles chat_awaits server _ m (awaiting_reply_settles request)) as Hd.
  pose proof (λ e, finish_no_throw chat_awaits server _ m e
    (awaiting_reply_no_throw request)) as Hn.
  pose proof (finish_writes_last resolve_write chat_awaits server _ m
    (awaiting_reply_writes_last request)) as Hw.
  destruct (finish chat_awaits server (awaiting_reply request) m)
    as [m' [[[]|e]| |]]; simpl in *; [eauto|by destruct (Hn e)|done..].
Qed.

Lemma clearMessages_guarantee : guarantee action_write clearMessages.
Proof. constructor; [|constructor]. intros s. apply write_cleared. Qed.

Lemma setError_guarantee e : guarantee action_write (setError e).
Proof. constructor; [|constructor]. intros s. apply (write_with_error e). Qed.

End action_lemmas.

#[export] Hint Resolve addMessage_no_throw addMessage_guarantee addMessage_settles
  awaiting_reply_writes_last awaiting_reply_no_throw awaiting_reply_settles
  clearMessages_guarantee setError_guarantee settled_write resolve_store_write
  : grobot.
#[export] Hint Rewrite replied_submitted failed_submitted submitted_eq replied_eq
  failed_eq : grobot_rw.
