(* ===== verification/World.v ===== *)
(** * The event loop: the store under interleaved events

    The store is a module-level singleton (chatStore.ts line 52): every
    caller acts on the same state, and nothing stops a second
    [addMessage] while a first one waits for the network.  A [World] is
    that shared state with the tasks suspended on it.  An [Event] is one
    turn of the JavaScript event loop: a call of one of the store's three
    actions, or the settling of the promise a suspended task waits for.
    Turns are atomic and may come in any order.

    [step] is the executable transition function, [Step] the same
    transitions as rules, [reachable] the worlds the rules generate
    from [initial_world].  [settling] is the sequence of settle events
    that carries one suspended task to its end; [settling_completes]
    bounds its length by the awaits the task has ahead, and
    [call_settling_finish] shows that a call followed by its settle
    events does to the machine what [Task.finish] does to the task
    alone.  [issued] is the request an event makes the store send.
    Everything here holds for every client that implements [ChatApi]. *)

From stdpp Require Import strings.
From S2P Require Import Prelude JsValue Message Task ChatApi Store.

Section world.
Context `{!ChatApi ChatState}.

(** ** Worlds *)

Record World : Type := mkWorld {
  machine : Machine ChatState;
  (** the suspended calls of [addMessage], oldest first *)
  pending : list (Status ChatState unit);
  (** rejections of promises nobody handles *)
  unhandled : list Thrown;
}.

Definition state (w : World) : ChatState := store (machine w).

Definition initial_world : World :=
  mkWorld (mkMachine initial_state []) [] [].

(** ** Turns *)

(** The world after a turn that ran [p]: [others] are the suspended
    tasks if [p] is done, [place s] if it suspended again as [s]. *)
Definition after_turn (w : World) (p : Task ChatState unit)
    (others : list (Status ChatState unit))
    (place : Status ChatState unit → list (Status ChatState unit)) : World :=
  let r := run p (machine w) in
  match r.2 with
  | Done (Fulfilled _) => mkWorld r.1 others (unhandled w)
  | Done (Rejected e) => mkWorld r.1 others (unhandled w ++ [e])
  | s => mkWorld r.1 (place s) (unhandled w)
  end.

(** A call of an action: its first turn runs at once. *)
Definition call (p : Task ChatState unit) (w : World) : World :=
  after_turn w p (pending w) (λ s, pending w ++ [s]).

(** The promise that task [i] waits for settles. *)
Definition settle (i : nat) (r : Reply) (w : World) : option World :=
  s ← pending w !! i;
  p ← resume s r;
  Some (after_turn w p (delete i (pending w)) (λ s', <[i := s']> (pending w))).

(** ** Events and steps *)

Inductive Event : Type :=
| AddMessage (content : string)
| ClearMessages
| SetError (e : option string)
| Settle (i : nat) (r : Reply).

Definition step (w : World) (ev : Event) : option World :=
  match ev with
  | AddMessage content => Some (call (addMessage content) w)
  | ClearMessages => Some (call clearMessages w)
  | SetError e => Some (call (setError e) w)
  | Settle i r => settle i r w
  end.

Fixpoint exec (w : World) (evs : list Event) : option World :=
  match evs with
  | [] => Some w
  | ev :: rest => w' ← step w ev; exec w' rest
  end.

(** ** The requests a turn sends

    [fetch] is called in the turn in which the task suspends on it:
    the request a turn of [p] sends is the one its status waits for. *)
Definition launched (p : Task ChatState unit) (w : World) : list RequestInit :=
  match (run p (machine w)).2 with
  | OnFetch _ init _ => [init]
  | _ => []
  end.

(** The request an event makes the store send. *)
Definition issued (w : World) (ev : Event) : list RequestInit :=
  match ev with
  | AddMessage content => launched (addMessage content) w
  | ClearMessages => launched clearMessages w
  | SetError e => launched (setError e) w
  | Settle i r =>
      match pending w !! i ≫= (λ s, resume s r) with
      | Some p => launched p w
      | None => []
      end
  end.

(** The settle events that carry the task at position [i] to its end
    when the server decides the replies, at most [n] of them: the task
    is settled again as long as it stays suspended. *)
Fixpoint settling (n i : nat) (server : Server) (w : World) : list Event :=
  match n, pending w !! i with
  | S n', Some s =>
    let ev := Settle i (reply_of server s) in
    match step w ev with
    | Some w' =>
      ev :: (if decide (length (pending w') = length (pending w))
             then settling n' i server w' else [])
    | None => []
    end
  | _, _ => []
  end.

(** The world in which a task has ended with [r] beside the suspended
    tasks [others]: a rejection that nothing caught is recorded. *)
Definition ended (w : World) (others : list (Status ChatState unit))
    (r : Machine ChatState * Status ChatState unit) : World :=
  mkWorld r.1 others
    match r.2 with
    | Done (Rejected e) => unhandled w ++ [e]
    | _ => unhandled w
    end.

(** The same transitions as rules. *)
Inductive Step : World → Event → World → Prop :=
| Step_AddMessage w content :
    Step w (AddMessage content) (call (addMessage content) w)
| Step_ClearMessages w :
    Step w ClearMessages (call clearMessages w)
| Step_SetError w e :
    Step w (SetError e) (call (setError e) w)
| Step_Settle w i r s p :
    pending w !! i = Some s →
    resume s r = Some p →
    Step w (Settle i r)
      (after_turn w p (delete i (pending w)) (λ s', <[i := s']> (pending w))).

Inductive reachable : World → Prop :=
| reachable_init : reachable initial_world
| reachable_step w ev w' : reachable w → Step w ev w' → reachable w'.

(** ** What the suspended tasks are

    A task is [task_ok n] when it will write once, the reply or the
    failure, in the turn in which it ends, cannot throw, and suspends at
    most [n] more times.  A submission starts with [chat_awaits]
    suspensions ahead; once suspended it has one less. *)

Definition task_ok (n : nat) (p : Task ChatState unit) : Prop :=
  writes_last resolve_write p ∧ no_throw p ∧ settles_within n p.

Definition suspended_ok (n : nat) (s : Status ChatState unit) : Prop :=
  is_done s = false ∧ ∀ r p, resume s r = Some p → task_ok n p.

Definition pending_ok (s : Status ChatState unit) : Prop :=
  0 < chat_awaits ∧ suspended_ok (pred chat_awaits) s.

(** The invariant of the event loop. *)
Definition world_ok (w : World) : Prop :=
  unhandled w = [] ∧ Forall pending_ok (pending w).

(** ** What a step can do

    [Effect w ev w']: the change of the conversation and of the
    suspended tasks that event [ev] may cause.  A call of [addMessage]
    stores the user's message and suspends, or, with a client that
    answers at once, ends in the same turn.  A settling promise either
    ends its task with the one write of [resolve_write], or moves it to
    its next suspension without a write. *)

Definition with_store (f : ChatState → ChatState) (w : World) : World :=
  mkWorld (mkMachine (f (state w)) (console (machine w))) (pending w) (unhandled w).

Inductive Effect (w w' : World) : Event → Prop :=
| Effect_submit content s :
    state w' = submitted content (state w) →
    pending w' = pending w ++ [s] →
    Effect w w' (AddMessage content)
| Effect_submit_resolve content :
    resolve_write (submitted content (state w)) (state w') →
    pending w' = pending w →
    Effect w w' (AddMessage content)
| Effect_clear :
    state w' = cleared (state w) →
    pending w' = pending w →
    Effect w w' ClearMessages
| Effect_set_error e :
    state w' = with_error e (state w) →
    pending w' = pending w →
    Effect w w' (SetError e)
| Effect_resolve i r :
    i < length (pending w) →
    resolve_write (state w) (state w') →
    pending w' = delete i (pending w) →
    Effect w w' (Settle i r)
| Effect_advance i r s' :
    i < length (pending w) →
    state w' = state w →
    pending w' = <[i := s']> (pending w) →
    Effect w w' (Settle i r).

(** ** The rules and the function agree *)

Lemma Step_step w ev w' : Step w ev w' ↔ step w ev = Some w'.
Proof.
  split.
  - intros [ | | |? i r s p Hs Hp]; simpl; try done.
    unfold settle. rewrite Hs. simpl. by rewrite Hp.
  - destruct ev as [c| |e|i r]; simpl; try (intros [= <-]; constructor).
    unfold settle. destruct (pending w !! i) as [s|] eqn:Hs; simpl; [|done].
    destruct (resume s r) as [p|] eqn:Hp; simpl; [|done].
    intros [= <-]. by econstructor.
Qed.

(** ** One turn *)

Lemma task_ok_mono n n' p : n ≤ n' → task_ok n p → task_ok n' p.
Proof.
  intros Hle (? & ? & ?). split_and!; [done..|by eapply settles_within_mono].
Qed.

Lemma suspended_ok_mono n n' s : n ≤ n' → suspended_ok n s → suspended_ok n' s.
Proof.
  intros Hle [? Hs]. split; [done|]. intros r p Hr. eapply task_ok_mono, Hs; eauto.
Qed.

(** A turn of a task that writes last either ends it with its write or
    suspends it again, still well-behaved and one await further, without
    a write. *)
Lemma after_turn_ok n w p others place :
  task_ok n p →
  let w' := after_turn w p others place in
  unhandled w' = unhandled w ∧
  ((resolve_write (state w) (state w') ∧ pending w' = others) ∨
   (∃ s, 0 < n ∧ suspended_ok (pred n) s ∧ state w' = state w ∧
         pending w' = place s)).
Proof.
  intros (Hw & Hn & Hs). unfold after_turn, state.
  pose proof (run_writes_last _ p (machine w) Hw) as Hrun.
  pose proof (λ e, run_no_throw p (machine w) e Hn) as Hthrow.
  pose proof (λ r q, resume_writes_last _ p q (machine w) r Hw) as Hrw.
  pose proof (λ r q, resume_no_throw p q (machine w) r Hn) as Hrn.
  pose proof (λ r q, settles_within_suspended _ p q (machine w) r Hs) as Hrs.
  assert (is_done (run p (machine w)).2 = false → 0 < n) as Hpos.
  { destruct n; [|lia].
    destruct (settles_within_0_done p (machine w) Hs) as [o ->]. done. }
  destruct (run p (machine w)) as [m' [[[]|e]|url init k|resp k]];
    simpl in *; [by auto|by destruct (Hthrow e)|..];
    (split; [done|right; eexists; repeat split; eauto]).
Qed.

Lemma after_turn_pending w p others place :
  pending (after_turn w p others place) =
  if is_done (run p (machine w)).2 then others else place (run p (machine w)).2.
Proof.
  unfold after_turn. by destruct (run p (machine w)) as [m' [[[]|e]|url init k|resp k]].
Qed.

Lemma launched_done p w : is_done (run p (machine w)).2 = true → launched p w = [].
Proof. unfold launched. by destruct (run p (machine w)).2. Qed.

Lemma call_addMessage content w :
  call (addMessage content) w =
  after_turn (with_store (submitted content) w)
    (awaiting_reply (SYSTEM_MESSAGE :: messages (submitted content (state w))))
    (pending w) (λ s, pending w ++ [s]).
Proof. done. Qed.

Lemma call_clearMessages w : call clearMessages w = with_store cleared w.
Proof. done. Qed.

Lemma call_setError e w : call (setError e) w = with_store (with_error e) w.
Proof. done. Qed.

(** ** Every step has one of the effects and keeps the invariant *)

Lemma addMessage_task_ok request : task_ok chat_awaits (awaiting_reply request).
Proof. split_and!; auto with grobot. Qed.

Lemma Step_Effect w ev w' :
  world_ok w → Step w ev w' → Effect w w' ev ∧ world_ok w'.
Proof.
  intros Hok HS.
  destruct HS as [w0 c|w0|w0 e|w0 i r s p Hs Hr]; destruct Hok as [Hu Hp].
  - rewrite call_addMessage.
    destruct (after_turn_ok chat_awaits (with_store (submitted c) w0)
      (awaiting_reply (SYSTEM_MESSAGE :: messages (submitted c (state w0))))
      (pending w0) (λ s, pending w0 ++ [s]) (addMessage_task_ok _))
      as (Hu' & [[Hw Hp']|(s & Hpos & Hs & Hst & Hp')]).
    + split; [by apply Effect_submit_resolve|].
      split; [exact (eq_trans Hu' Hu)|by rewrite Hp'].
    + split; [by eapply Effect_submit|]. split; [exact (eq_trans Hu' Hu)|].
      rewrite Hp'. apply Forall_app. split; [done|]. by apply Forall_singleton.
  - rewrite call_clearMessages. split; [by constructor|done].
  - rewrite call_setError. split; [by constructor|done].
  - pose proof (lookup_lt_Some _ _ _ Hs) as Hi.
    destruct (Forall_lookup_1 _ _ _ _ Hp Hs) as [Hpos [_ Hok]].
    destruct (after_turn_ok _ w0 p (delete i (pending w0))
      (λ s', <[i:=s']> (pending w0)) (Hok r p Hr))
      as (Hu' & [[Hw Hp']|(s' & _ & Hs' & Hst & Hp')]).
    + split; [by apply Effect_resolve|]. split; [congruence|].
      rewrite Hp'. by apply Forall_delete.
    + split; [by eapply Effect_advance|]. split; [congruence|].
      rewrite Hp'. apply Forall_insert; [done|]. split; [done|].
      eapply suspended_ok_mono, Hs'. lia.
Qed.

(** ** A suspended request comes to its end *)

Lemma settling_S n i server w s w' :
  pending w !! i = Some s →
  step w (Settle i (reply_of server s)) = Some w' →
  settling (S n) i server w =
  Settle i (reply_of server s) ::
    (if decide (length (pending w') = length (pending w))
     then settling n i server w' else []).
Proof.
  intros Hs Hstep. change (settling (S n) i server w) with
    (match pending w !! i with
     | Some s =>
       match step w (Settle i (reply_of server s)) with
       | Some w' =>
         Settle i (reply_of server s) ::
           (if decide (length (pending w') = length (pending w))
            then settling n i server w' else [])
       | None => []
       end
     | None => []
     end).
  by rewrite Hs, Hstep.
Qed.

(** One settle event of a suspended task: the task ends with its
    write, or it is suspended again with one await less ahead. *)
Lemma settle_suspended server n w i s :
  world_ok w → pending w !! i = Some s → suspended_ok n s →
  ∃ w', step w (Settle i (reply_of server s)) = Some w' ∧ world_ok w' ∧
    ((resolve_write (state w) (state w') ∧ pending w' = delete i (pending w)) ∨
     (∃ s', 0 < n ∧ suspended_ok (pred n) s' ∧ state w' = state w ∧
            pending w' = <[i:=s']> (pending w))).
Proof.
  intros Hok Hs [Hd Hres]. destruct (resume_reply_of server s Hd) as [p Hp].
  pose proof (Step_Settle w i _ s p Hs Hp) as HS.
  destruct (Step_Effect _ _ _ Hok HS) as [_ Hok'].
  eexists. split; [by apply Step_step|]. split; [done|].
  by destruct (after_turn_ok _ w p (delete i (pending w))
    (λ s', <[i:=s']> (pending w)) (Hres _ p Hp)) as [_ ?].
Qed.

Lemma settling_completes server n w i s :
  world_ok w → pending w !! i = Some s → suspended_ok n s →
  ∃ w', exec w (settling (S n) i server w) = Some w' ∧
    pending w' = delete i (pending w) ∧
    resolve_write (state w) (state w') ∧
    length (settling (S n) i server w) ≤ S n.
Proof.
  revert w s. induction n as [|n IH]; intros w s Hok Hs Hsus;
    pose proof (lookup_lt_Some _ _ _ Hs) as Hi;
    pose proof (length_delete_lt _ _ Hi) as Hdel;
    destruct (settle_suspended server _ w i s Hok Hs Hsus)
      as (w1 & Hstep & Hok1 & [[Hw Hp]|(s' & Hpos & Hs' & Hst & Hp)]);
    try lia; rewrite (settling_S _ _ _ _ _ _ Hs Hstep), Hp.
  1,2: rewrite decide_False by lia; exists w1; cbn [exec]; rewrite Hstep;
       repeat split; [done..|simpl; lia].
  rewrite decide_True by apply length_insert.
  destruct (IH w1 s' Hok1) as (w' & Hex & Hpw & Hrw & Hlen);
    [by rewrite Hp, list_lookup_insert_eq|done|].
  exists w'. rewrite Hp, delete_insert_same, Hst in *.
  repeat split; [|done..|cbn [length]; lia]. cbn [exec]. by rewrite Hstep.
Qed.

(** ** The last task in flight, answered by a server

    The settle events of the task at the end of the list do to the
    machine what [finish] does to the task alone. *)

Lemma after_turn_done w p others place :
  is_done (run p (machine w)).2 = true →
  after_turn w p others place = ended w others (run p (machine w)).
Proof.
  unfold after_turn, ended.
  by destruct (run p (machine w)) as [m' [[[]|e]|url init k|resp k]].
Qed.

Lemma after_turn_suspended w p others place :
  is_done (run p (machine w)).2 = false →
  after_turn w p others place =
  mkWorld (run p (machine w)).1 (place (run p (machine w)).2) (unhandled w).
Proof.
  unfold after_turn.
  by destruct (run p (machine w)) as [m' [[[]|e]|url init k|resp k]].
Qed.

Lemma settling_finish n server w others s p :
  pending w = others ++ [s] → resume s (reply_of server s) = Some p →
  is_done (finish n server p (machine w)).2 = true →
  exec w (settling (S n) (length others) server w) =
  Some (ended w others (finish n server p (machine w))).
Proof.
  revert w s p. induction n as [|n IH]; intros w s p Hp Hres Hdone;
    assert (pending w !! length others = Some s) as Hs
      by (rewrite Hp; by apply list_lookup_middle);
    assert (step w (Settle (length others) (reply_of server s)) =
      Some (after_turn w p (delete (length others) (pending w))
              (λ s', <[length others:=s']> (pending w)))) as Hstep
      by (simpl; unfold settle; by rewrite Hs; simpl; rewrite Hres);
    rewrite (settling_S _ _ _ _ _ _ Hs Hstep);
    destruct (is_done (run p (machine w)).2) eqn:Hd.
  1,3: rewrite finish_done in * by done;
       rewrite after_turn_done, Hp, delete_middle, app_nil_r in * by done;
       rewrite decide_False by (simpl; rewrite length_app; simpl; lia);
       cbn [exec]; by rewrite Hstep.
  { by rewrite finish_0, Hd in Hdone. }
  destruct (resume_reply_of server _ Hd) as [q Hq].
  rewrite (finish_S _ _ _ _ _ Hq) in Hdone |- *.
  rewrite after_turn_suspended in Hstep |- * by done.
  set (w' := mkWorld _ _ _) in *.
  assert (pending w' = others ++ [(run p (machine w)).2]) as Hp'
    by (simpl; by rewrite Hp, insert_app_r_alt, Nat.sub_diag).
  rewrite decide_True by (by rewrite Hp', Hp, !length_app).
  cbn [exec]. rewrite Hstep. cbn [mbind option_bind].
  by rewrite (IH w' _ q Hp' Hq Hdone).
Qed.

(** A call from a world, carried to its end by the server: the call
    is the first turn of [finish], the settle events are the others. *)
Lemma call_settling_finish n server p w :
  is_done (finish n server p (machine w)).2 = true →
  exec (call p w) (settling n (length (pending w)) server (call p w)) =
  Some (ended w (pending w) (finish n server p (machine w))).
Proof.
  intros Hdone. unfold call. destruct (is_done (run p (machine w)).2) eqn:Hd.
  - rewrite finish_done in * by done. rewrite after_turn_done by done.
    destruct n; [done|]. simpl. by rewrite lookup_ge_None_2.
  - destruct n as [|n]; [by rewrite finish_0, Hd in Hdone|].
    destruct (resume_reply_of server _ Hd) as [q Hq].
    rewrite (finish_S _ _ _ _ _ Hq) in *. rewrite after_turn_suspended by done.
    set (w' := mkWorld _ _ _).
    by rewrite (settling_finish n server w' (pending w) _ q eq_refl Hq Hdone).
Qed.

Lemma reachable_ok w : reachable w → world_ok w.
Proof.
  induction 1 as [|w ev w' _ IH HS]; [by split|].
  by apply (Step_Effect w ev w').
Qed.

Lemma reachable_Effect w ev w' : reachable w → Step w ev w' → Effect w w' ev.
Proof. intros Hw HS. by apply Step_Effect; [apply reachable_ok|]. Qed.

(** An effect changes the store by at most two writes of the actions. *)
Lemma Effect_writes w w' ev : Effect w w' ev → rtc action_write (state w) (state w').
Proof.
  intros [c s -> _|c Hw _| -> _|e -> _|i r _ Hw _|i r s' _ -> _].
  - apply rtc_once, write_store, write_submitted.
  - eapply rtc_l; [apply write_store, (write_submitted c)|].
    apply rtc_once, write_store, resolve_store_write, Hw.
  - apply rtc_once, write_cleared.
  - apply rtc_once, write_with_error.
  - apply rtc_once, write_store, resolve_store_write, Hw.
  - reflexivity.
Qed.

(** A property of the store that every write of an action preserves
    holds in every reachable world. *)
Lemma reachable_stable (P : ChatState → Prop) w :
  P initial_state → (∀ s s', action_write s s' → P s → P s') →
  reachable w → P (state w).
Proof.
  intros H0 HP. induction 1 as [|w ev w' Hw IH HS]; [done|].
  pose proof (Effect_writes _ _ _ (reachable_Effect _ _ _ Hw HS)) as Hrtc.
  clear HS Hw. induction Hrtc; eauto.
Qed.

End world.

#[export] Hint Constructors Step reachable Effect : grobot.
#[export] Hint Resolve reachable_ok reachable_Effect : grobot.
