(* ===== verification/Typing.v ===== *)
(** * The annotation [content: string] at run time

    TypeScript erases the annotation of [Message.content], and the reply
    enters the store through the unchecked cast of api/chat.ts line 39.
    This file proves when the annotation holds all the same: as long as
    every response that reaches the client honours the [ChatResponse]
    interface, every message the store ever holds has a string content,
    under every interleaving of calls and settling promises.  The client
    is the real one, [sendChatMessage]. *)

From stdpp Require Import strings.
From S2P Require Import Prelude JsValue Message Task ChatApi Transport Store World.

(** ** Definitions *)

(** A response honours the interface when its body, if it is read,
    parses to an object whose [response] is a string. *)
Definition typed_response (r : Response) : Prop :=
  ok r = true → ∀ data, body_json r = Fulfilled data → ChatResponse_typed data = true.

Definition typed_reply (r : Reply) : Prop :=
  match r with
  | FetchSettled (Fulfilled resp) => typed_response resp
  | _ => True
  end.

Definition typed_event (ev : Event) : Prop :=
  match ev with
  | Settle _ r => typed_reply r
  | _ => True
  end.

(** [keeps_typed n p]: from a typed store, a turn of [p] leaves the store
    typed, and the task it becomes after a typed reply does so again,
    until it ends after at most [n] replies. *)
Fixpoint keeps_typed (n : nat) (p : Task ChatState unit) : Prop :=
  ∀ m, well_typed (store m) →
    well_typed (store (run p m).1) ∧
    match n with
    | 0 => is_done (run p m).2 = true
    | S n' => ∀ r q, typed_reply r → resume (run p m).2 r = Some q → keeps_typed n' q
    end.

Definition typed_pending (s : Status ChatState unit) : Prop :=
  ∃ n, ∀ r q, typed_reply r → resume s r = Some q → keeps_typed n q.

(** The invariant: the store is typed and will stay so. *)
Definition typed_world (w : World) : Prop :=
  well_typed (state w) ∧ Forall typed_pending (pending w).

(** A run used by the witness: one question, answered. *)
Definition one_turn : list Event :=
  [AddMessage "What are mangroves?";
   Settle 0 (FetchSettled (Fulfilled
     (mkResponse true 200 (Fulfilled (JObj [("response", JStr "Coastal trees.")])))));
   Settle 0 JsonSettled].

(** ** The guarded exchange keeps the store typed *)

Lemma typed_response_reply resp data reply :
  typed_response resp → ok resp = true → body_json resp = Fulfilled data →
  get_prop data "response" = Fulfilled reply → is_string reply = true.
Proof.
  intros Hr Hok Hb Hg. specialize (Hr Hok data Hb).
  unfold ChatResponse_typed in Hr. by rewrite Hg in Hr.
Qed.

Lemma awaiting_reply_keeps_typed request : keeps_typed 2 (awaiting_reply request).
Proof.
  intros m Hm. split; [done|]. intros [o|] q Ho; [|done]. intros [= <-].
  destruct o as [[[] status body]|e]; intros m' Hm'; (split; [done|]).
  - intros [|] q _; [done|]. intros [= <-] m'' Hm''. simpl.
    destruct body as [data|e]; simpl; [|done].
    destruct (get_prop data "response") as [reply|e] eqn:Hg; simpl; [|done].
    split; [|done]. apply replied_well_typed. split; [done|].
    by eapply (typed_response_reply _ data reply Ho).
  - done.
  - done.
Qed.

(** ** One turn *)

Lemma keeps_typed_turn n w p others place :
  keeps_typed n p → well_typed (state w) → Forall typed_pending others →
  (∀ s, typed_pending s → Forall typed_pending (place s)) →
  typed_world (after_turn w p others place).
Proof.
  intros Hp Hw Ho Hplace. destruct n as [|n]; destruct (Hp (machine w) Hw) as [Ht Hn];
    unfold after_turn, typed_world, state in *;
    destruct (run p (machine w)) as [m' [[[]|e]|url init k|resp k]]; simpl in *;
    try done; (split; [done|]); apply Hplace; by exists n.
Qed.

(** ** Steps keep the invariant *)

Lemma typed_world_step w ev w' :
  typed_world w → typed_event ev → step w ev = Some w' → typed_world w'.
Proof.
  intros [Hw Hp] Hev. destruct ev as [content| |e|i r]; simpl.
  - intros [= <-]. rewrite call_addMessage.
    eapply keeps_typed_turn; [apply awaiting_reply_keeps_typed| |done|].
    + by apply submitted_well_typed.
    + intros s Hs. apply Forall_app. split; [done|]. by apply Forall_singleton.
  - intros [= <-]. rewrite call_clearMessages. split; [by constructor|done].
  - intros [= <-]. by rewrite call_setError.
  - unfold settle. destruct (pending w !! i) as [s|] eqn:Hs; simpl; [|done].
    destruct (resume s r) as [p|] eqn:Hr; simpl; [|done]. intros [= <-].
    destruct (Forall_lookup_1 _ _ _ _ Hp Hs) as [n Hn].
    eapply keeps_typed_turn;
      [exact (Hn r p Hev Hr)|done|by apply Forall_delete|].
    intros s' Hs'. by apply Forall_insert.
Qed.

Lemma typed_world_exec evs w w' :
  typed_world w → Forall typed_event evs → exec w evs = Some w' → typed_world w'.
Proof.
  revert w. induction evs as [|ev evs IH]; intros w Hw Hevs; simpl.
  - by intros [= <-].
  - destruct (step w ev) as [w1|] eqn:Hs; simpl; [|done].
    apply Forall_cons in Hevs as [Hev Hevs].
    apply IH; [|done]. by eapply typed_world_step.
Qed.

Lemma typed_initial_world : typed_world initial_world.
Proof. split; by constructor. Qed.

(** ** The theorem *)

(** C17 (typed store): under every interleaving of calls of the three
    actions and settling promises, as long as every response that
    settles a [fetch] honours the [ChatResponse] interface, every
    message the store holds has a string content: the erased annotation
    [content: string] is true at run time. *)
Theorem typed_replies_keep_types evs w :
  Forall typed_event evs → exec initial_world evs = Some w →
  Forall (λ m, ∃ text, content m = JStr text) (messages (state w)).
Proof.
  intros Hevs Hex.
  destruct (typed_world_exec evs _ w typed_initial_world Hevs Hex) as [Hw _].
  eapply Forall_impl; [exact Hw|]. intros m. apply Message_typed_iff.
Qed.

Lemma typed_replies_keep_types_witness :
  ∃ w, exec initial_world one_turn = Some w ∧
    Forall (λ m, ∃ text, content m = JStr text) (messages (state w)).
Proof.
  eexists. split; [reflexivity|].
  apply (typed_replies_keep_types one_turn); [|reflexivity].
  repeat constructor. by intros _ data [= <-].
Defined.
