(* ===== verification/Wire.v ===== *)
(** * The request on the wire (api/chat.ts, lines 27-31)

    [sendChatMessage] hands [fetch] the text that [JSON.stringify]
    makes of the object literal [{ messages, temperature: 0.7,
    max_tokens: 500 }].  [request_value] is that object as a run-time
    value, [message_value] the object a [Message] is, and
    [request_text] the text of the body.

    A content that is a JSON value travels as it is.  A content that
    is [undefined], which the store holds after a reply without a
    [response] property, is left out by [JSON.stringify]: the message
    arrives with a role and no content.  [message_on_wire] is what a
    reader of the text finds, and [request_reads_back] shows that it
    finds nothing else. *)

From Stdlib Require Import QArith Ascii.
From stdpp Require Import strings.
From S2P Require Import Prelude JsString JsValue Decimal Json Message.
From S2P Require Import Task ChatApi Transport Store World Typing.

(** ** Definitions *)

(** A [Message] as the object it is at run time. *)
Definition message_value (m : Message) : JsVal :=
  JObj [("role", JStr (role_name (role m))); ("content", content m)].

(** An optional property of [ChatRequest]. *)
Definition optional_number (key : string) (o : option Q) : list (string * JsVal) :=
  match o with
  | Some q => [(key, JNum q)]
  | None => []
  end.

(** The object handed to [JSON.stringify] (lines 27-31). *)
Definition request_value (body : ChatRequest) : JsVal :=
  JObj (("messages", JArr (message_value <$> req_messages body))
          :: optional_number "temperature" (temperature body)
          ++ optional_number "max_tokens" (max_tokens body)).

(** [body: JSON.stringify(...)] *)
Definition request_text (init : RequestInit) : option string :=
  stringify (request_value (init_body init)).

(** What the text holds of a message: the content only when it is
    not [undefined]. *)
Definition message_on_wire (m : Message) : JsVal :=
  JObj (("role", JStr (role_name (role m)))
          :: if is_undefined (content m) then [] else [("content", content m)]).

(** What the text of a request of [sendChatMessage] holds. *)
Definition request_on_wire (messages : list Message) : JsVal :=
  JObj [("messages", JArr (message_on_wire <$> messages));
        ("temperature", JNum 0.7); ("max_tokens", JNum 500)].

(** The contents a message can have at run time: [undefined] or a
    value that came out of a JSON text. *)
Definition wire_content (m : Message) : bool :=
  is_undefined (content m) || wire_value (content m).

(** The server reads the body of a request. *)
Definition received (init : RequestInit) : Read JsVal :=
  text ← of_option (request_text init); parse (chars text).

(** Whether a message that was read has a [content] property. *)
Definition has_content (v : JsVal) : bool :=
  match v with
  | JObj fields => bool_decide ("content" ∈ fields.*1)
  | _ => false
  end.

(** A conversation in which a reply had no [response] property. *)
Definition broken_conversation : list Message :=
  [SYSTEM_MESSAGE; mkMessage user (JStr "hi"); mkMessage assistant JUndefined;
   mkMessage user (JStr "are you there?")].

(** The world after [Typing.one_turn]. *)
Definition answered_world : World :=
  mkWorld
    (mkMachine
       (mkChatState [mkMessage user (JStr "What are mangroves?");
                     mkMessage assistant (JStr "Coastal trees.")] false None) [])
    [] [].

(** ** Helper lemmas *)

Lemma print_message_on_wire m :
  print_value (message_value m) = print_value (message_on_wire m).
Proof. unfold message_value, message_on_wire. by destruct (content m). Qed.

Lemma print_request_on_wire messages :
  print_value (request_value (init_body (chat_init messages))) =
  print_value (request_on_wire messages).
Proof.
  apply print_value_field; [done|].
  apply print_value_elements, print_message_on_wire.
Qed.

Lemma wire_message_on_wire m :
  wire_content m = true → wire_value (message_on_wire m) = true.
Proof.
  unfold wire_content, message_on_wire.
  destruct (is_undefined (content m)); simpl; [done|]. intros ->. done.
Qed.

Lemma wire_request_on_wire messages :
  Forall (λ m, wire_content m = true) messages →
  wire_value (request_on_wire messages) = true.
Proof.
  intros Hms. unfold request_on_wire. cbn [wire_value forallb snd].
  rewrite !andb_true_iff. split_and!; try done.
  apply forallb_Forall, Forall_fmap.
  eapply Forall_impl; [done|]. intros m. apply wire_message_on_wire.
Qed.

Lemma typed_wire_content m : Message_typed m = true → wire_content m = true.
Proof. unfold Message_typed, wire_content. by destruct (content m). Qed.

Lemma typed_message_on_wire m :
  Message_typed m = true → message_on_wire m = message_value m.
Proof. unfold Message_typed, message_on_wire, message_value. by destruct (content m). Qed.

(** What the server reads is what the text holds. *)
Lemma received_chat_init messages :
  Forall (λ m, wire_content m = true) messages →
  received (chat_init messages) = Value (request_on_wire messages).
Proof.
  intros Hms. unfold received, request_text, stringify.
  change (is_undefined (request_value _)) with false. cbn [of_option mbind Read_bind].
  rewrite String.list_ascii_of_string_of_list_ascii, print_request_on_wire.
  by apply parse_print, wire_request_on_wire.
Qed.

Lemma typed_request_on_wire messages :
  Forall (λ m, Message_typed m = true) messages →
  Forall (λ m, wire_content m = true) messages ∧
  message_on_wire <$> messages = message_value <$> messages.
Proof.
  intros Hms. split.
  - eapply Forall_impl; [done|]. apply typed_wire_content.
  - apply Forall_fmap_ext_1. eapply Forall_impl; [done|]. apply typed_message_on_wire.
Qed.

(** ** Properties *)

(** C14 (wire): the body of a request is a JSON text, and what a reader
    finds in it is the three properties in the order written, the two
    sampling parameters as given, and the messages in order, each with
    its role; a message has its content property exactly when the
    content was not [undefined]. *)
Theorem request_reads_back messages :
  Forall (λ m, wire_content m = true) messages →
  (∃ text,
     request_text (chat_init messages) = Some text ∧
     parse (chars text) = Value (request_on_wire messages)) ∧
  Forall (λ m, has_content (message_on_wire m) = negb (is_undefined (content m)))
    messages.
Proof.
  intros Hms. split.
  - pose proof (received_chat_init messages Hms) as Hr. unfold received in Hr.
    destruct (request_text (chat_init messages)) as [text|]; [|done]. by exists text.
  - apply Forall_forall. intros m _. unfold message_on_wire.
    by destruct (is_undefined (content m)).
Qed.

(** C19 (wire, typed): in every world the store reaches while every
    response honours the [ChatResponse] interface, a submission
    suspends on one more request, and the body of that request reads
    back as the system message, the stored conversation and the new
    user message, every one an object with the properties [role] and
    [content] in that order, followed by temperature 0.7 and at most
    500 tokens. *)
Theorem submission_on_the_wire evs w content :
  Forall typed_event evs → exec initial_world evs = Some w →
  ∃ k init w',
    step w (AddMessage content) = Some w' ∧
    pending w' = pending w ++ [OnFetch chat_url init k] ∧
    received init =
      Value (JObj [("messages",
                   JArr ((λ m, JObj [("role", JStr (role_name (role m)));
                                     ("content", Message.content m)]) <$>
                           SYSTEM_MESSAGE :: messages (state w) ++
                             [mkMessage user (JStr content)]));
                  ("temperature", JNum 0.7); ("max_tokens", JNum 500)]).
Proof.
  intros Hevs Hex.
  destruct (typed_world_exec evs _ w typed_initial_world Hevs Hex) as [Hw _].
  set (ms := SYSTEM_MESSAGE :: messages (state w) ++ [mkMessage user (JStr content)]).
  eexists _, (chat_init ms), _. split; [reflexivity|]. split; [reflexivity|].
  destruct (typed_request_on_wire ms) as [Hms Heq].
  { constructor; [done|]. apply Forall_app. split; [done|]. by constructor. }
  rewrite received_chat_init by done. unfold request_on_wire. by rewrite Heq.
Qed.

(** ** Witnesses *)

Lemma request_reads_back_witness :
  (∃ text,
     request_text (chat_init broken_conversation) = Some text ∧
     parse (chars text) = Value (request_on_wire broken_conversation)) ∧
  has_content (message_on_wire (mkMessage assistant JUndefined)) = false.
Proof.
  destruct (request_reads_back broken_conversation) as [Ht Hc].
  { by repeat constructor. }
  split; [exact Ht|]. exact (Forall_lookup_1 _ _ 2 _ Hc eq_refl).
Defined.

Lemma submission_on_the_wire_witness :
  ∃ k init w',
    step answered_world (AddMessage "Where do they grow?") = Some w' ∧
    pending w' = [OnFetch chat_url init k] ∧
    received init =
      Value (JObj [("messages",
                   JArr ((λ m, JObj [("role", JStr (role_name (role m)));
                                     ("content", Message.content m)]) <$>
                           [SYSTEM_MESSAGE;
                            mkMessage user (JStr "What are mangroves?");
                            mkMessage assistant (JStr "Coastal trees.");
                            mkMessage user (JStr "Where do they grow?")]));
                  ("temperature", JNum 0.7); ("max_tokens", JNum 500)]).
Proof.
  apply (submission_on_the_wire one_turn answered_world "Where do they grow?");
    [|reflexivity].
  repeat constructor. by intros _ data [= <-].
Defined.
