(* ===== verification/Exchange.v ===== *)
(** * One submission, end to end

    The store's [addMessage] wired to the real client [sendChatMessage],
    carried through an exchange against an arbitrary server with no other
    event in between.  These are the functional theorems of the core: what
    is sent, and what the store holds once the exchange is over, on the
    success path and on each failure path, and when the stored messages
    keep the type their annotation states. *)

From Stdlib Require Import QArith.
From stdpp Require Import strings.
From S2P Require Import Prelude JsString JsValue Message Task ChatApi Transport Store.

(** ** Definitions *)

(** The message list a submission transmits. *)
Definition transmitted (content : string) (st : ChatState) : list Message :=
  SYSTEM_MESSAGE :: messages st ++ [mkMessage user (JStr content)].

(** How the server answers the request of a submission. *)
Definition answer (server : Server) (content : string) (st : ChatState)
    : outcome Thrown Response :=
  server chat_url (chat_init (transmitted content st)).

(** A server that answers every request with status 200 and the body
    [{"response": text}]. *)
Definition replying (text : string) : Server := λ _ _,
  Fulfilled (mkResponse true 200 (Fulfilled (JObj [("response", JStr text)]))).

(** A server that answers every request with the given status and a
    body that is not read. *)
Definition failing (status : N) : Server := λ _ _,
  Fulfilled (mkResponse false status (Fulfilled JNull)).

(** The network is down. *)
Definition unreachable : Server := λ _ _,
  Rejected (ErrorObj "TypeError" "Failed to fetch").

(** A server that answers 200 with the JSON body [null]. *)
Definition replying_null : Server := λ _ _,
  Fulfilled (mkResponse true 200 (Fulfilled JNull)).

(** A server that answers 200 with the JSON body [{}]. *)
Definition replying_empty : Server := λ _ _,
  Fulfilled (mkResponse true 200 (Fulfilled (JObj []))).

(** ** Helpers *)

Lemma finish_transmitted server content m n :
  finish n server (addMessage content) m =
  finish n server (awaiting_reply (transmitted content (store m)))
    (mkMachine (submitted content (store m)) (console m)).
Proof. apply finish_addMessage. Qed.

(** The guarded exchange, carried through: the reference decides. *)
Lemma finish_awaiting_reply server request m :
  let o := server chat_url (chat_init request) in
  finish 2 server (awaiting_reply request) m =
  (mkMachine (settled (exchange_result o) (store m)) (console m ++ exchange_log o),
   Done (Fulfilled tt)).
Proof.
  destruct m as [st log]. cbn.
  destruct (server chat_url (chat_init request)) as [[[] status [data|e]]|e];
    cbn; rewrite ?app_nil_r; try reflexivity.
  destruct data; reflexivity.
Qed.

(** Carry the submission of the goal through its exchange and name
    the client's result by the hypothesis [Ho] about the answer. *)
Ltac carry_through Ho :=
  rewrite finish_transmitted, finish_awaiting_reply;
  unfold answer in Ho; cbn [store console];
  unfold exchange_log, settled; rewrite ?Ho.

(** ** The first turn *)

(** C4 (request): the first turn of a submission stores the user's
    message, raises the loading flag, clears the error, and suspends on
    one POST to [API_BASE_URL/chat] whose message list is the system
    message followed by the stored conversation, the new user message
    last, with temperature 0.7 and at most 500 tokens. *)
Theorem submission_first_turn content st log :
  ∃ k,
    run (addMessage content) (mkMachine st log) =
    (mkMachine
       (mkChatState (messages st ++ [mkMessage user (JStr content)]) true None)
       log,
     OnFetch "http://localhost:8000/api/chat"
       (mkRequestInit "POST" [("Content-Type", "application/json")]
          (mkChatRequest
             (SYSTEM_MESSAGE :: messages st ++ [mkMessage user (JStr content)])
             (Some 0.7%Q) (Some 500%Q)))
       k).
Proof. eexists. reflexivity. Qed.

(** ** The whole exchange *)

(** C3 (reference): carried through its exchange, a submission ends
    with the store that the reference [settled] computes from the
    client's reference result [exchange_result]: the server's answer to
    the transmitted list decides everything; the task returns normally
    and logs exactly the failure, if there is one. *)
Theorem submission_refines_reference server content st log :
  let o := answer server content st in
  finish 2 server (addMessage content) (mkMachine st log) =
  (mkMachine (settled (exchange_result o) (submitted content st))
     (log ++ exchange_log o),
   Done (Fulfilled tt)).
Proof. rewrite finish_transmitted. apply finish_awaiting_reply. Qed.

(** C1 (success): when the server answers in the success range with a
    body whose [response] property reads as [reply], the store ends with
    exactly two more messages, the user's and then the assistant's, the
    loading flag down, the error cleared, and nothing logged. *)
Theorem submission_success server content st log r data reply :
  answer server content st = Fulfilled r →
  ok r = true →
  body_json r = Fulfilled data →
  get_prop data "response" = Fulfilled reply →
  finish 2 server (addMessage content) (mkMachine st log) =
  (mkMachine
     (mkChatState
        (messages st ++ [mkMessage user (JStr content); mkMessage assistant reply])
        false None)
     log,
   Done (Fulfilled tt)).
Proof.
  intros Ho Hok Hbody Hreply.
  rewrite finish_transmitted, finish_awaiting_reply. unfold answer in Ho.
  cbn [store console]. rewrite Ho. unfold exchange_log, settled.
  rewrite (exchange_result_ok r Hok), Hbody. simpl.
  by rewrite Hreply, app_nil_r, replied_submitted.
Qed.

(** Scenario 2 of the specification. *)
Lemma submission_success_witness :
  finish 2 (replying "Mangroves are coastal trees...")
    (addMessage "What are mangroves?") (mkMachine initial_state []) =
  (mkMachine
     (mkChatState
        [mkMessage user (JStr "What are mangroves?");
         mkMessage assistant (JStr "Mangroves are coastal trees...")]
        false None)
     [],
   Done (Fulfilled tt)).
Proof.
  exact (submission_success (replying "Mangroves are coastal trees...")
    "What are mangroves?" initial_state [] _ _ _ eq_refl eq_refl eq_refl eq_refl).
Defined.

(** C2 (HTTP failure): when the server answers outside the success
    range, the store ends with exactly one more message, the user's, the
    loading flag down, and an error text that contains the status code;
    the failure is logged once. *)
Theorem submission_http_failure server content st log r :
  answer server content st = Fulfilled r →
  ok r = false →
  ∃ text,
    finish 2 server (addMessage content) (mkMachine st log) =
    (mkMachine
       (mkChatState (messages st ++ [mkMessage user (JStr content)]) false (Some text))
       (log ++ [mkConsoleEntry send_error_label (http_error (status r))]),
     Done (Fulfilled tt)) ∧
    includes text (number_to_string (status r)) = true.
Proof.
  intros Ho Hok. exists ("HTTP error! status: " +:+ number_to_string (status r)).
  split; [|apply includes_suffix].
  rewrite finish_transmitted, finish_awaiting_reply. unfold answer in Ho.
  cbn [store console]. rewrite Ho. unfold exchange_log, settled.
  by rewrite (exchange_result_not_ok r Hok).
Qed.

(** Scenario 3 of the specification. *)
Lemma submission_http_failure_witness :
  ∃ text,
    finish 2 (failing 500) (addMessage "test") (mkMachine initial_state []) =
    (mkMachine (mkChatState [mkMessage user (JStr "test")] false (Some text))
       [mkConsoleEntry send_error_label (http_error 500)],
     Done (Fulfilled tt)) ∧
    includes text "500" = true.
Proof.
  exact (submission_http_failure (failing 500) "test" initial_state [] _
    eq_refl eq_refl).
Defined.

(** C22 (fault): whenever the client's exchange fails, because the
    request could not be sent, the status is outside the success range,
    or the body cannot be parsed, the store ends with the user's
    message kept, the loading flag down and the error set to the
    failure's own message, or to a fixed text when what was thrown is
    not an [Error]; the failure is logged once. *)
Theorem submission_fault server content st log e :
  exchange_result (answer server content st) = Rejected e →
  finish 2 server (addMessage content) (mkMachine st log) =
  (mkMachine
     (mkChatState (messages st ++ [mkMessage user (JStr content)]) false
        (Some (match e with
               | ErrorObj _ message => message
               | NonError _ => "An error occurred"
               end)))
     (log ++ [mkConsoleEntry send_error_label e]),
   Done (Fulfilled tt)).
Proof. intros Ho. carry_through Ho. simpl. by rewrite failed_submitted. Qed.

Lemma submission_fault_witness :
  finish 2 unreachable (addMessage "test") (mkMachine initial_state []) =
  (mkMachine (mkChatState [mkMessage user (JStr "test")] false (Some "Failed to fetch"))
     [mkConsoleEntry send_error_label (ErrorObj "TypeError" "Failed to fetch")],
   Done (Fulfilled tt)).
Proof.
  exact (submission_fault unreachable "test" initial_state [] _ eq_refl).
Defined.

(** C36 (unreadable reply): when the exchange succeeds with a body that
    is [null] or [undefined], reading its [response] property throws
    inside the store's [try]: the submission ends on the failure path
    with the [TypeError]'s message as the error, and nothing is logged,
    since the client had already returned. *)
Theorem submission_unreadable_reply server content st log data :
  exchange_result (answer server content st) = Fulfilled data →
  data = JNull ∨ data = JUndefined →
  ∃ text,
    finish 2 server (addMessage content) (mkMachine st log) =
    (mkMachine
       (mkChatState (messages st ++ [mkMessage user (JStr content)]) false (Some text))
       log,
     Done (Fulfilled tt)) ∧
    get_prop data "response" = Rejected (ErrorObj "TypeError" text).
Proof.
  intros Ho Hd. carry_through Ho.
  destruct Hd as [-> | ->]; (eexists; split; [|reflexivity]); simpl;
    by rewrite app_nil_r, failed_submitted.
Qed.

Lemma submission_unreadable_reply_witness :
  ∃ text,
    finish 2 replying_null (addMessage "test") (mkMachine initial_state []) =
    (mkMachine (mkChatState [mkMessage user (JStr "test")] false (Some text)) [],
     Done (Fulfilled tt)) ∧
    get_prop JNull "response" = Rejected (ErrorObj "TypeError" text).
Proof.
  exact (submission_unreadable_reply replying_null "test" initial_state [] JNull
    eq_refl (or_introl eq_refl)).
Defined.

(** C35 (missing field): a success body that is an object without a
    [response] property is not treated as a failure: the store appends
    an assistant message whose content is [undefined], which is not a
    typed message, and sets no error. *)
Theorem submission_missing_field server content st log fields :
  exchange_result (answer server content st) = Fulfilled (JObj fields) →
  "response" ∉ fields.*1 →
  finish 2 server (addMessage content) (mkMachine st log) =
  (mkMachine
     (mkChatState
        (messages st ++
           [mkMessage user (JStr content); mkMessage assistant JUndefined])
        false None)
     log,
   Done (Fulfilled tt)) ∧
  Message_typed (mkMessage assistant JUndefined) = false.
Proof.
  intros Ho Hf. split; [|done]. carry_through Ho. simpl.
  by rewrite (assoc_lookup_missing _ _ Hf), app_nil_r, replied_submitted.
Qed.

Lemma submission_missing_field_witness :
  finish 2 replying_empty (addMessage "test") (mkMachine initial_state []) =
  (mkMachine
     (mkChatState [mkMessage user (JStr "test"); mkMessage assistant JUndefined]
        false None)
     [],
   Done (Fulfilled tt)) ∧
  Message_typed (mkMessage assistant JUndefined) = false.
Proof.
  apply (submission_missing_field replying_empty "test" initial_state [] []
    eq_refl). apply not_elem_of_nil.
Defined.

(** C25 (typed): a submission keeps the annotation [content: string]
    on the stored messages exactly when the reply it reads, if the
    exchange succeeds and the body has one to read, is a string.  The
    user's message is always typed; nothing in the code checks the
    assistant's. *)
Theorem submission_keeps_typed server content st log :
  well_typed st →
  well_typed (store (finish 2 server (addMessage content) (mkMachine st log)).1) ↔
  (∀ data reply,
     exchange_result (answer server content st) = Fulfilled data →
     get_prop data "response" = Fulfilled reply → is_string reply = true).
Proof.
  intros Hst%(submitted_well_typed content).
  rewrite finish_transmitted, finish_awaiting_reply.
  unfold answer, settled. cbn [store console fst].
  destruct (exchange_result _) as [data|e]; simpl.
  - destruct (get_prop data "response") as [reply|e] eqn:Hg; simpl.
    + rewrite replied_well_typed. split; [|by eauto].
      intros [_ Hr] ? ? [= <-] Hg'. congruence.
    + rewrite failed_well_typed. split; [|done]. intros _ ? ? [= <-]. congruence.
  - rewrite failed_well_typed. by split.
Qed.

Lemma submission_keeps_typed_witness :
  well_typed (store (finish 2 (replying "Mangroves are coastal trees...")
    (addMessage "What are mangroves?") (mkMachine initial_state [])).1).
Proof.
  apply (submission_keeps_typed (replying "Mangroves are coastal trees...")
    "What are mangroves?" initial_state []); [by constructor|].
  by intros data reply [= <-] [= <-].
Defined.
