(* ===== verification/Reply.v ===== *)
(** * The reply on the wire (api/chat.ts, lines 34-39)

    What [sendChatMessage] reads of the [Response] that [fetch]
    fulfils with: [ok], [status] and [json()].  [text_response] is
    that object for a status and a body text: [ok] is the status being
    in the range 200-299, and [json()] settles as [JSON.parse] does on
    the text, with the parsed value or with the engine's [SyntaxError].

    With the request of [Wire] this closes the loop.  A [Backend] is
    what a server does with the request it reads; [wire_server] puts
    it behind the two texts, [value_server] hands it the request and
    takes its body as values.  [wire_transparent] shows that a
    submission cannot tell them apart: the theorems of [Exchange] and
    [Safety], which speak of bodies as values, speak of the texts.
    Everything holds for every [Engine]. *)

From Stdlib Require Import QArith Ascii.
From stdpp Require Import strings.
From S2P Require Import Prelude JsString JsValue Decimal Json Message.
From S2P Require Import Task ChatApi Transport Store World Typing Wire Exchange.

(** ** Definitions *)

(** [response.ok] for a status (the Fetch standard). *)
Definition ok_status (status : N) : bool := bool_decide (200 ≤ status ≤ 299)%N.

(** What a server does with a request: the status and the body of its
    answer. *)
Definition Backend : Type := JsVal → N * JsVal.

(** The connection fails: [fetch] rejects. *)
Definition network_error : Thrown := ErrorObj "TypeError" "Failed to fetch".

(** An engine, for the witnesses. *)
Definition some_engine : Engine :=
  {| syntax_error_message := λ _, "Unexpected token '<'" |}.

(** A gateway's error page, sent with status 200. *)
Definition html_page : string := "<html>Bad Gateway</html>".

Definition html_response : Response :=
  mkResponse true 200 (Rejected (ErrorObj "SyntaxError" "Unexpected token '<'")).

Definition html_server : Server := λ _ _, Fulfilled html_response.

(** A backend that answers with the content of the last message. *)
Definition echo : Backend := λ request,
  match get_prop request "messages" with
  | Fulfilled (JArr items) =>
      match last items with
      | Some (JObj fields) =>
          let content := assoc_lookup "content" fields in
          if wire_value content then (200%N, JObj [("response", content)])
          else (422%N, JObj [])
      | _ => (422%N, JObj [])
      end
  | _ => (422%N, JObj [])
  end.

Section reply.
Context {engine : Engine}.

(** The [Response] of a server that answers [status] with the body
    [text]. *)
Definition text_response (status : N) (text : string) : option Response :=
  body ← JSON_parse text;
  Some (mkResponse (ok_status status) status body).

(** The backend behind the wire: it reads the text of the request and
    answers with the text of its body.  A request it cannot read and a
    body that has no text are left to the connection, which fails. *)
Definition wire_server (backend : Backend) : Server := λ _ init,
  match received init with
  | Value request =>
      match stringify (backend request).2 ≫= text_response (backend request).1 with
      | Some r => Fulfilled r
      | None => Rejected network_error
      end
  | _ => Rejected network_error
  end.

(** The backend on values: it gets the object of the request and its
    body is what [json()] gives. *)
Definition value_server (backend : Backend) : Server := λ _ init,
  let answer := backend (request_value (init_body init)) in
  Fulfilled (mkResponse (ok_status answer.1) answer.1 (Fulfilled answer.2)).

(** ** Helper lemmas *)

Lemma text_response_Some status text r :
  text_response status text = Some r →
  ok r = ok_status status ∧ status = Message.status r ∧
  JSON_parse text = Some (body_json r).
Proof.
  unfold text_response. destruct (JSON_parse text) as [body|]; [|done].
  by intros [= <-].
Qed.

Lemma text_response_stringify status body :
  wire_value body = true →
  stringify body ≫= text_response status =
  Some (mkResponse (ok_status status) status (Fulfilled body)).
Proof.
  intros Hw. destruct (stringify body) as [text|] eqn:Ht;
    [|by destruct body].
  cbn [mbind option_bind]. unfold text_response, JSON_parse.
  by rewrite (parse_stringify body text Hw Ht).
Qed.

Lemma typed_request_value messages :
  Forall (λ m, Message_typed m = true) messages →
  received (chat_init messages) = Value (request_value (init_body (chat_init messages))).
Proof.
  intros Hms. destruct (typed_request_on_wire messages Hms) as [Hw Heq].
  rewrite received_chat_init by done. unfold request_on_wire. by rewrite Heq.
Qed.

(** On a typed request the two servers give the same answer. *)
Lemma wire_server_value backend messages :
  Forall (λ m, Message_typed m = true) messages →
  (∀ request, wire_value (backend request).2 = true) →
  wire_server backend chat_url (chat_init messages) =
  value_server backend chat_url (chat_init messages).
Proof.
  intros Hms Hbackend. unfold wire_server, value_server.
  by rewrite typed_request_value, text_response_stringify.
Qed.

(** ** Properties *)

(** C15 (transparent wire): for a store whose messages are strings and
    a backend whose bodies are JSON values, a submission against the
    backend behind the two texts, the request written by
    [JSON.stringify] and read by the server, the answer written by the
    server and read by [response.json()], ends exactly as the
    submission against the backend on values. *)
Theorem wire_transparent backend content st log :
  well_typed st → (∀ request, wire_value (backend request).2 = true) →
  finish 2 (wire_server backend) (addMessage content) (mkMachine st log) =
  finish 2 (value_server backend) (addMessage content) (mkMachine st log).
Proof.
  intros Hst Hbackend. rewrite !finish_transmitted, !finish_awaiting_reply.
  rewrite wire_server_value; [done| |done].
  constructor; [done|]. apply Forall_app. split; [done|]. by constructor.
Qed.

(** C23 (unparsable body): when the server answers in the success range
    with a body that is not a JSON text, [response.json()] rejects
    with the engine's [SyntaxError]: the user's message is kept, the
    loading flag is down, the error is the engine's message, and the
    failure is logged once. *)
Theorem unparsable_reply_fails server content st log status text r :
  answer server content st = Fulfilled r →
  text_response status text = Some r → ok_status status = true →
  parse (chars text) = Malformed →
  finish 2 server (addMessage content) (mkMachine st log) =
  (mkMachine
     (mkChatState (messages st ++ [mkMessage user (JStr content)]) false
        (Some (syntax_error_message text)))
     (log ++ [mkConsoleEntry send_error_label
                (ErrorObj "SyntaxError" (syntax_error_message text))]),
   Done (Fulfilled tt)).
Proof.
  intros Ho (Hok & _ & Hbody)%text_response_Some Hstatus Hp.
  unfold JSON_parse in Hbody. rewrite Hp in Hbody. injection Hbody as Hbody.
  carry_through Ho. rewrite exchange_result_ok by congruence.
  by rewrite <- Hbody.
Qed.

(** The reader's fuel is a device of the model and not of the
    program: what [response.json()] settles with does not depend on
    it.  A value that the reader finds with any fuel is the value it
    fulfils with, and when it rejects, the reader finds no value with
    any fuel and refuses the text with every fuel from [parse_fuel]
    on.  This is what makes the premise of [unparsable_reply_fails]
    mean that the text is not a JSON text. *)
Lemma response_json_decided status text r :
  text_response status text = Some r →
  (∀ fuel v, parse_with fuel (chars text) = Value v → body_json r = Fulfilled v) ∧
  (∀ e, body_json r = Rejected e →
     (∀ fuel v, parse_with fuel (chars text) ≠ Value v) ∧
     (∀ fuel, parse_fuel (chars text) ≤ fuel →
        parse_with fuel (chars text) = Malformed)).
Proof.
  intros (_ & _ & Hbody)%text_response_Some. split.
  - intros fuel v Hv%JSON_parse_value. congruence.
  - intros e He. rewrite He in Hbody. by apply JSON_parse_throws in Hbody as (_ & ? & ?).
Qed.

End reply.

(** ** Witnesses *)

Lemma echo_wire request : wire_value (echo request).2 = true.
Proof.
  unfold echo. repeat case_match; try done. simpl. by rewrite !andb_true_r.
Qed.

Lemma wire_transparent_witness :
  finish 2 (wire_server (engine := some_engine) echo) (addMessage "hello")
    (mkMachine initial_state []) =
  (mkMachine
     (mkChatState [mkMessage user (JStr "hello"); mkMessage assistant (JStr "hello")]
        false None) [],
   Done (Fulfilled tt)).
Proof.
  rewrite (wire_transparent (engine := some_engine) echo "hello" initial_state []).
  - reflexivity.
  - constructor.
  - apply echo_wire.
Defined.

Lemma unparsable_reply_fails_witness :
  finish 2 html_server (addMessage "hello") (mkMachine initial_state []) =
  (mkMachine
     (mkChatState [mkMessage user (JStr "hello")] false (Some "Unexpected token '<'"))
     [mkConsoleEntry send_error_label (ErrorObj "SyntaxError" "Unexpected token '<'")],
   Done (Fulfilled tt)).
Proof.
  apply (unparsable_reply_fails (engine := some_engine) html_server "hello"
    initial_state [] 200 html_page html_response); by vm_compute.
Defined.
