(* ===== verification/Safety.v ===== *)
(** * Safety of the store under every interleaving

    The theorems of this file hold in every world reachable from the
    initial one, through any sequence of calls and settling promises, and
    for every client that implements [ChatApi].  Each follows from the two
    facts [World] establishes: a step has one of the six [Effect]s, and
    a property that every write preserves holds everywhere.  The last
    theorem is the liveness of a suspended submission: its promises
    settling is all it needs to end. *)

From stdpp Require Import strings.
From S2P Require Import Prelude JsValue Message Task ChatApi Transport Store World.

(** ** Definitions *)

(** What a step may do to the conversation: append at most two messages
    (the user's, and with a client that answers at once the assistant's
    too), or, for [clearMessages] only, empty it. *)
Definition conversation_step (ev : Event) (before after : list Message) : Prop :=
  match ev with
  | ClearMessages => after = []
  | _ => ∃ n, n ≤ 2 ∧ extends_by n before after
  end.

(** What a step may do to the error field.  A promise that settles
    leaves it alone, or its task ends with the failure write: the
    conversation is kept, the loading flag is lowered and the error is
    the text of what was thrown. *)
Definition error_step (ev : Event) (w w' : World) : Prop :=
  match ev with
  | AddMessage _ =>
      if decide (length (pending w') = length (pending w))
      then error (state w') = None ∨ ∃ e, error (state w') = Some (error_text e)
      else error (state w') = None
  | ClearMessages => error (state w') = None
  | SetError e => error (state w') = e
  | Settle _ _ =>
      error (state w') = error (state w) ∨
      (length (pending w') < length (pending w) ∧
       messages (state w') = messages (state w) ∧
       isLoading (state w') = false ∧
       ∃ e, error (state w') = Some (error_text e))
  end.

(** The calls of [addMessage] in a run. *)
Definition is_submission (ev : Event) : bool :=
  match ev with AddMessage _ => true | _ => false end.

Definition submissions (evs : list Event) : nat :=
  length (List.filter is_submission evs).

(** A world used by the witnesses: one submission in flight. *)
Definition one_in_flight : World := call (addMessage "hello") initial_world.

(** The network fails under the first submission. *)
Definition failed_fetch : Reply :=
  FetchSettled (Rejected (ErrorObj "TypeError" "Failed to fetch")).

(** A server that is down for maintenance. *)
Definition unavailable : Server := λ _ _,
  Fulfilled (mkResponse false 503 (Fulfilled JNull)).

Section safety.
Context `{!ChatApi ChatState}.
Implicit Types (w : World) (ev : Event).

(** ** Helpers *)

Lemma resolve_write_conversation s s' :
  resolve_write s s' → ∃ n, n ≤ 1 ∧ extends_by n (messages s) (messages s').
Proof. intros H. by apply store_write_extends, resolve_store_write. Qed.

Lemma Effect_pending_length w w' ev :
  Effect w w' ev →
  match ev with
  | AddMessage _ =>
      length (pending w') = length (pending w) ∨
      length (pending w') = S (length (pending w))
  | Settle _ _ =>
      length (pending w') = length (pending w) ∨
      S (length (pending w')) = length (pending w)
  | _ => length (pending w') = length (pending w)
  end.
Proof.
  intros [c s _ ->|c _ ->|_ ->|e _ ->|i r Hi _ ->|i r s' Hi _ ->];
    rewrite ?length_app, ?length_insert; simpl; try lia.
  right. by apply length_delete_lt.
Qed.

(** ** The conversation *)

(** C7 (no system message): in every reachable world no stored message
    has the role [system]; the persona exists only in transmitted lists. *)
Theorem system_message_never_stored w : reachable w → no_system (state w).
Proof.
  apply (reachable_stable no_system); [by constructor|].
  apply action_write_no_system.
Qed.

(** C8 (append or reset): a step of a reachable world either appends at
    most two messages to the conversation, leaving what was there in
    place and in order, or is [clearMessages] and empties it. *)
Theorem conversation_grows_or_resets w ev w' :
  reachable w → Step w ev w' →
  conversation_step ev (messages (state w)) (messages (state w')).
Proof.
  intros Hw HS. destruct (reachable_Effect w ev w' Hw HS)
    as [c s -> _|c Hr _| -> _|e -> _|i r _ Hr _|i r s' _ -> _]; simpl.
  - exists 1. auto with grobot.
  - destruct (resolve_write_conversation _ _ Hr) as (n & Hn & He).
    exists (1 + n). split; [lia|].
    eapply extends_by_trans; [apply extends_by_snoc | exact He].
  - done.
  - exists 0. auto with grobot.
  - destruct (resolve_write_conversation _ _ Hr) as (n & Hn & He).
    exists n. split; [lia | done].
  - exists 0. auto with grobot.
Qed.

(** ** Errors *)

(** C9 (no escape): in every reachable world no rejection is left
    unhandled: whatever the client or the server does, nothing thrown
    during a submission crosses [addMessage]'s [catch]. *)
Theorem no_unhandled_rejection w : reachable w → unhandled w = [].
Proof. intros Hw. by destruct (reachable_ok w Hw). Qed.

(** C27 (error field): the error field changes only as the events allow:
    a submission's start and [clearMessages] null it, [setError] assigns
    it, and a settling promise leaves it alone unless it ends its task
    with the failure write, which keeps the conversation, lowers the
    loading flag and stores the text of what was thrown. *)
Theorem error_changes_as_allowed w ev w' :
  reachable w → Step w ev w' → error_step ev w w'.
Proof.
  intros Hw HS. destruct (reachable_Effect w ev w' Hw HS)
    as [c s Hst Hp|c Hr Hp|Hst _|e Hst _|i r Hi Hr Hp|i r s' _ Hst _]; simpl;
    rewrite ?Hst; auto.
  - rewrite Hp, length_app. simpl. case_decide; [lia | done].
  - rewrite Hp. rewrite decide_True by done.
    destruct (resolve_write_inv _ _ Hr) as (_ & [(v & _ & ->)|(e & _ & ->)]); eauto.
  - destruct (resolve_write_inv _ _ Hr) as (Hl & [(v & _ & ->)|(e & Hm & ->)]); auto.
    right. split_and!; [|done..|eauto]. rewrite Hp.
    pose proof (length_delete_lt (pending w) i Hi). lia.
Qed.

(** ** The loading flag *)

(** C26 (resolution): when a promise settles in a reachable world, either
    its task ends, with the one write that lowers the loading flag and
    appends the reply or sets the error, or the task moves to its next
    suspension and the store is untouched. *)
Theorem settling_resolves_or_waits w i r w' :
  reachable w → Step w (Settle i r) w' →
  (pending w' = delete i (pending w) ∧ resolve_write (state w) (state w') ∧
   isLoading (state w') = false) ∨
  (length (pending w') = length (pending w) ∧ state w' = state w).
Proof.
  intros Hw HS. pose proof (reachable_Effect w _ w' Hw HS) as HE.
  inversion HE as [| | | |? ? Hi Hr Hp|? ? s' Hi Hst Hp]; subst.
  - left. repeat split; auto. by apply resolve_write_inv in Hr as [? _].
  - right. split; [|done]. by rewrite Hp, length_insert.
Qed.

(** ** Bounds *)

(** What one step adds to the conversation and the requests in flight. *)
Lemma Effect_growth w w' ev :
  Effect w w' ev →
  length (messages (state w')) + length (pending w') ≤
    length (messages (state w)) + length (pending w) +
    (if is_submission ev then 2 else 0) ∧
  length (pending w') ≤ length (pending w) + (if is_submission ev then 1 else 0).
Proof.
  intros [c s Hst Hp|c Hw Hp|Hst Hp|e Hst Hp|i r Hi Hw Hp|i r s' Hi Hst Hp];
    rewrite ?Hst, Hp, ?length_app, ?length_insert; simpl;
    rewrite ?length_app; simpl; try lia.
  - destruct (resolve_write_conversation _ _ Hw) as (n & Hn & ->%extends_by_length).
    simpl. rewrite length_app. simpl. lia.
  - destruct (resolve_write_conversation _ _ Hw) as (n & Hn & ->%extends_by_length).
    pose proof (length_delete_lt _ _ Hi). lia.
Qed.

Lemma exec_growth evs w w' :
  world_ok w → exec w evs = Some w' →
  world_ok w' ∧
  length (messages (state w')) + length (pending w') ≤
    length (messages (state w)) + length (pending w) + 2 * submissions evs ∧
  length (pending w') ≤ length (pending w) + submissions evs.
Proof.
  revert w. induction evs as [|ev evs IH]; intros w Hok; simpl.
  { intros [= <-]. unfold submissions. simpl. split; [done|lia]. }
  destruct (step w ev) as [w1|] eqn:Hs; simpl; [|done]. intros Hex.
  apply Step_step in Hs. destruct (Step_Effect _ _ _ Hok Hs) as [HE Hok1].
  destruct (IH w1 Hok1 Hex) as (Hok' & H1 & H2).
  destruct (Effect_growth _ _ _ HE) as [G1 G2].
  unfold submissions in *. simpl. destruct (is_submission ev); simpl; split; (done || lia).
Qed.

(** C18 (bounds): after any run of the store from its initial state,
    the stored messages and the requests in flight together number at
    most twice the calls of [addMessage] in the run, the requests in
    flight at most the calls, and a request built from the store then
    carries at most one message more than twice the calls. *)
Theorem conversation_bounds evs w :
  exec initial_world evs = Some w →
  length (messages (state w)) + length (pending w) ≤ 2 * submissions evs ∧
  length (pending w) ≤ submissions evs ∧
  length (SYSTEM_MESSAGE :: messages (state w)) ≤ 2 * submissions evs + 1.
Proof.
  intros Hex. destruct (exec_growth evs initial_world w) as (_ & H1 & H2);
    [by split|done|]. simpl in *. lia.
Qed.

(** ** Progress *)

(** C11 (completion): in a reachable world every suspended
    submission comes to its end once its promises settle: whatever the
    server answers, at most [chat_awaits] settle events of that task end
    it with the one write that stores the reply or the error and lowers
    [isLoading], leaving the other tasks as they were.  A submission is
    stuck only if a promise never settles. *)
Theorem pending_request_completes server w i s :
  reachable w → pending w !! i = Some s →
  ∃ w', exec w (settling chat_awaits i server w) = Some w' ∧
    pending w' = delete i (pending w) ∧
    resolve_write (state w) (state w') ∧
    isLoading (state w') = false ∧
    length (settling chat_awaits i server w) ≤ chat_awaits.
Proof.
  intros Hw Hs. pose proof (reachable_ok w Hw) as Hok.
  destruct (Forall_lookup_1 _ _ _ _ (proj2 Hok) Hs) as [Hpos Hsus].
  destruct chat_awaits as [|n]; [lia|].
  destruct (settling_completes server n w i s Hok Hs Hsus)
    as (w' & Hex & Hp & Hwr & Hlen).
  exists w'. by destruct (resolve_write_inv _ _ Hwr).
Qed.

End safety.

(** ** Witnesses, with the real client *)

Lemma system_message_never_stored_witness : no_system (state one_in_flight).
Proof.
  apply system_message_never_stored.
  eapply reachable_step; [apply reachable_init | apply Step_AddMessage].
Defined.

Lemma conversation_grows_or_resets_witness :
  conversation_step ClearMessages (messages (state one_in_flight))
    (messages (state (call clearMessages one_in_flight))).
Proof.
  apply conversation_grows_or_resets; [|apply Step_ClearMessages].
  eapply reachable_step; [apply reachable_init | apply Step_AddMessage].
Defined.

Lemma no_unhandled_rejection_witness : unhandled one_in_flight = [].
Proof.
  apply no_unhandled_rejection.
  eapply reachable_step; [apply reachable_init | apply Step_AddMessage].
Defined.

Lemma error_changes_as_allowed_witness :
  error_step (SetError (Some "offline")) one_in_flight
    (call (setError (Some "offline")) one_in_flight).
Proof.
  apply error_changes_as_allowed; [|apply Step_SetError].
  eapply reachable_step; [apply reachable_init | apply Step_AddMessage].
Defined.

Lemma one_in_flight_reachable : reachable one_in_flight.
Proof. eapply reachable_step; [apply reachable_init | apply Step_AddMessage]. Qed.

Lemma settling_resolves_or_waits_witness :
  ∃ w', step one_in_flight (Settle 0 failed_fetch) = Some w' ∧
    ((pending w' = delete 0 (pending one_in_flight) ∧
      resolve_write (state one_in_flight) (state w') ∧
      isLoading (state w') = false) ∨
     (length (pending w') = length (pending one_in_flight) ∧
      state w' = state one_in_flight)).
Proof.
  eexists. split; [reflexivity|].
  apply (settling_resolves_or_waits one_in_flight 0 failed_fetch).
  - apply one_in_flight_reachable.
  - apply Step_step. reflexivity.
Defined.

Lemma pending_request_completes_witness :
  ∃ w', exec one_in_flight (settling 2 0 unavailable one_in_flight) = Some w' ∧
    pending w' = [] ∧
    resolve_write (state one_in_flight) (state w') ∧
    isLoading (state w') = false ∧
    length (settling 2 0 unavailable one_in_flight) ≤ 2.
Proof.
  exact (pending_request_completes unavailable one_in_flight 0 _
    one_in_flight_reachable eq_refl).
Defined.

Lemma conversation_bounds_witness :
  length (messages (state one_in_flight)) + length (pending one_in_flight) ≤ 2 ∧
  length (pending one_in_flight) ≤ 1 ∧
  length (SYSTEM_MESSAGE :: messages (state one_in_flight)) ≤ 3.
Proof. exact (conversation_bounds [AddMessage "hello"] one_in_flight eq_refl). Defined.
