(* ===== verification/Ordering.v ===== *)
(** * Questions before replies (chatStore.ts, lines 72-91)

    The store appends the user's message when [addMessage] is called
    and the assistant's when the exchange of that call resolves.
    Calls may overlap and their replies may arrive in any order, so a
    reply need not follow its own question directly; but every reply
    has a question of its own before it, as long as the conversation
    is not cleared under a request in flight.

    [questions_first] is that order: in every prefix of the
    conversation the user has said at least as much as the assistant;
    [in_order] computes it.
    [owed] adds the account that carries it through a run: the
    replies stored and the requests in flight together are no more
    than the questions stored.  Everything holds for every client. *)

From stdpp Require Import strings.
From S2P Require Import Prelude JsValue Message Task ChatApi Transport Store World.

(** ** Definitions *)

(** How many messages of the conversation have the role [r]. *)
Definition said (r : Role) (ms : list Message) : nat :=
  length (filter (λ m, role m = r) ms).

Definition questions_first (ms : list Message) : Prop :=
  ∀ p, p `prefix_of` ms → said assistant p ≤ said user p.

(** The same order, computed: [open] questions wait for a reply. *)
Fixpoint in_order (open : nat) (ms : list Message) : bool :=
  match ms with
  | [] => true
  | m :: ms =>
      match role m, open with
      | user, _ => in_order (S open) ms
      | assistant, 0 => false
      | assistant, S open => in_order open ms
      | system, _ => in_order open ms
      end
  end.

(** A response with the body [{"response": text}]. *)
Definition reply_with (text : string) : Reply :=
  FetchSettled
    (Fulfilled (mkResponse true 200 (Fulfilled (JObj [("response", JStr text)])))).

(** Two questions in flight, the second answered first. *)
Definition overtaken : list Event :=
  [AddMessage "first"; AddMessage "second";
   Settle 1 (reply_with "to the second"); Settle 1 JsonSettled;
   Settle 0 (reply_with "to the first"); Settle 0 JsonSettled].

Section ordering.
Context `{!ChatApi ChatState}.

(** The replies stored and the requests in flight are covered by the
    questions stored, and the questions come first. *)
Definition owed (w : World) : Prop :=
  questions_first (messages (state w)) ∧
  said assistant (messages (state w)) + length (pending w) ≤
    said user (messages (state w)).

(** In the run [evs] from [w], [clearMessages] is only called with no
    request in flight. *)
Fixpoint clears_when_idle (w : World) (evs : list Event) : Prop :=
  match evs with
  | [] => True
  | ev :: rest =>
      (ev = ClearMessages → pending w = []) ∧
      match step w ev with
      | Some w' => clears_when_idle w' rest
      | None => True
      end
  end.

(** ** Counting *)

Lemma said_app r ms ms' : said r (ms ++ ms') = said r ms + said r ms'.
Proof. unfold said. by rewrite filter_app, length_app. Qed.

Lemma said_snoc r ms m :
  said r (ms ++ [m]) = said r ms + (if decide (role m = r) then 1 else 0).
Proof. rewrite said_app. unfold said. simpl. rewrite filter_cons. by case_decide. Qed.

Lemma said_cons r m ms :
  said r (m :: ms) = (if decide (role m = r) then 1 else 0) + said r ms.
Proof. unfold said. rewrite filter_cons. by case_decide. Qed.

(** [in_order] decides the order. *)
Lemma in_order_prefixes k ms :
  in_order k ms = true ↔ ∀ p, p `prefix_of` ms → said assistant p ≤ k + said user p.
Proof.
  revert k. induction ms as [|m ms IH]; intros k; simpl.
  { split; [intros _ p ->%prefix_nil_inv; unfold said; simpl; lia|done]. }
  rewrite prefix_cons_forall. setoid_rewrite said_cons.
  change (said assistant []) with 0. change (said user []) with 0.
  destruct (role m), k as [|k]; rewrite ?IH; simpl;
    try (split; [intros H; split; [lia|intros p Hp; specialize (H p Hp); lia]
                |intros [_ H] p Hp; specialize (H p Hp); lia]).
  split; [done|]. intros [_ H]. specialize (H [] (prefix_nil _)).
  unfold said in H. simpl in H. lia.
Qed.

#[export] Instance questions_first_dec ms : Decision (questions_first ms).
Proof.
  refine (cast_if (decide (in_order 0 ms = true)));
    unfold questions_first; by rewrite in_order_prefixes in *.
Defined.

Lemma questions_first_nil : questions_first [].
Proof. by intros p ->%prefix_nil_inv. Qed.

(** A message may be appended when it is not one reply too many. *)
Lemma questions_first_snoc ms m :
  questions_first ms →
  (role m = assistant → said assistant ms < said user ms) →
  questions_first (ms ++ [m]).
Proof.
  intros Hms Hm p [k Hk]. destruct k as [|x k _] using rev_ind.
  - rewrite app_nil_r in Hk. subst p. rewrite !said_snoc.
    pose proof (Hms ms (reflexivity _)).
    destruct (decide (role m = assistant)) as [Ha|Ha]; [specialize (Hm Ha)|];
      case_decide; lia.
  - rewrite app_assoc in Hk. apply app_inj_tail in Hk as [-> _].
    apply Hms. by apply prefix_app_r.
Qed.

(** ** The account under the writes and the steps *)

Lemma owed_submitted content ms n :
  questions_first ms → said assistant ms + n ≤ said user ms →
  questions_first (ms ++ [mkMessage user (JStr content)]) ∧
  said assistant (ms ++ [mkMessage user (JStr content)]) + S n ≤
    said user (ms ++ [mkMessage user (JStr content)]).
Proof.
  intros Hq Hn. split; [by apply questions_first_snoc|].
  rewrite !said_snoc. simpl. lia.
Qed.

Lemma owed_resolved s s' n :
  resolve_write s s' →
  questions_first (messages s) → said assistant (messages s) + S n ≤ said user (messages s) →
  questions_first (messages s') ∧
  said assistant (messages s') + n ≤ said user (messages s').
Proof.
  intros (_ & [(reply & -> & _)|(e & -> & _)])%resolve_write_inv Hq Hn.
  - split; [apply questions_first_snoc; [done|lia]|]. rewrite !said_snoc. simpl. lia.
  - split; [done|lia].
Qed.

Lemma Effect_owed w w' ev :
  Effect w w' ev → (ev = ClearMessages → pending w = []) → owed w → owed w'.
Proof.
  unfold owed.
  intros [c s Hst Hp|c Hw Hp|Hst Hp|e Hst Hp|i r Hi Hw Hp|i r s' Hi Hst Hp]
    Hclear [Hq Hn]; rewrite ?Hst, Hp; simpl.
  - rewrite length_app, Nat.add_1_r. by apply owed_submitted.
  - destruct (owed_submitted c _ _ Hq Hn) as [Hq' Hn'].
    by apply (owed_resolved _ _ _ Hw).
  - rewrite Hclear by done. split; [apply questions_first_nil|done].
  - done.
  - pose proof (length_delete_lt _ _ Hi). apply (owed_resolved _ _ _ Hw); [done|].
    rewrite length_delete by (by apply lookup_lt_is_Some_2). lia.
  - by rewrite length_insert.
Qed.

Lemma exec_owed evs w w' :
  world_ok w → owed w → clears_when_idle w evs → exec w evs = Some w' → owed w'.
Proof.
  revert w. induction evs as [|ev evs IH]; intros w Hok Hw; simpl.
  { by intros _ [= <-]. }
  destruct (step w ev) as [w1|] eqn:Hs; simpl; [|done]. intros [Hclear Hrest] Hex.
  apply Step_step in Hs. destruct (Step_Effect _ _ _ Hok Hs) as [HE Hok1].
  by apply (IH w1 Hok1 (Effect_owed _ _ _ HE Hclear Hw)).
Qed.

(** ** The theorem *)

(** C13 (order): in every run of the store in which [clearMessages] is
    only called with no request in flight, however the calls of
    [addMessage] overlap and in whatever order their promises settle,
    every prefix of the conversation holds at least as many messages
    of the user as of the assistant, and the assistant's messages and
    the requests in flight together are no more than the user's: a
    reply is never stored before a question of its own. *)
Theorem questions_precede_replies evs w :
  exec initial_world evs = Some w → clears_when_idle initial_world evs →
  questions_first (messages (state w)) ∧
  said assistant (messages (state w)) + length (pending w) ≤
    said user (messages (state w)).
Proof.
  intros Hex Hclear. apply (exec_owed evs initial_world w); [by split| |done..].
  split; [apply questions_first_nil|done].
Qed.

End ordering.

(** ** Witness, with the real client *)

Lemma questions_precede_replies_witness :
  ∃ w, exec initial_world overtaken = Some w ∧
    messages (state w) =
      [mkMessage user (JStr "first"); mkMessage user (JStr "second");
       mkMessage assistant (JStr "to the second");
       mkMessage assistant (JStr "to the first")] ∧
    questions_first (messages (state w)).
Proof.
  eexists. split; [reflexivity|]. split; [reflexivity|].
  eapply (questions_precede_replies overtaken); [reflexivity|].
  repeat split; discriminate.
Defined.
