(* ===== verification/Input.v ===== *)
(** * The input component (components/InputArea.tsx)

    The component keeps the draft in local state ([useState('')]), sends
    the trimmed draft through the [onSendMessage] prop when asked to and
    allowed to, and renders a textarea and a send button.

    A handler is modelled by the list of effects it performs, in order:
    calling the prop, setting the local state, cancelling the key's
    default action.  [render] is the element tree the component returns,
    reduced to the properties it computes.  The names live in the module
    [InputArea], since the prop [isLoading] shares its name with the
    store's field. *)

From stdpp Require Import strings.
From S2P Require Import Prelude JsString JsValue.

Module InputArea.

(** ** Data *)

(** [interface InputAreaProps] (lines 7-10).  [A] is what calling the
    [onSendMessage] prop amounts to for the parent: the component only
    passes it on. *)
Record InputAreaProps (A : Type) : Type := mkInputAreaProps {
  onSendMessage : string → A;
  isLoading : bool;
}.

Arguments mkInputAreaProps {A} onSendMessage isLoading.
Arguments onSendMessage {A} props message : rename.
Arguments isLoading {A} props : rename.

(** The fields of a [KeyboardEvent] the handler reads. *)
Record KeyboardEvent : Type := mkKeyboardEvent {
  key : string;
  shiftKey : bool;
}.

(** What a handler does, step by step. *)
Inductive InputEffect (A : Type) : Type :=
| Invoke (call : A)             (** a call of a prop *)
| SetMessage (value : string)   (** [setMessage(value)] *)
| PreventDefault.               (** [e.preventDefault()] *)

Arguments Invoke {A} call.
Arguments SetMessage {A} value.
Arguments PreventDefault {A}.

(** ** Handlers *)

Section handlers.
Context {A : Type}.
Implicit Types (props : InputAreaProps A) (message : string).

(** [handleSend] (lines 15-20) *)
Definition handleSend props message : list (InputEffect A) :=
  if truthy_string (trim message) && negb (isLoading props)
  then [Invoke (onSendMessage props (trim message)); SetMessage ""]
  else [].

(** [handleKeyPress] (lines 22-27) *)
Definition handleKeyPress props message (e : KeyboardEvent) : list (InputEffect A) :=
  if String.eqb (key e) "Enter" && negb (shiftKey e)
  then PreventDefault :: handleSend props message
  else [].

(** The [onChange] handler of the textarea (line 36). *)
Definition handleChange (value : string) : list (InputEffect A) :=
  [SetMessage value].

End handlers.

(** ** Rendering (lines 29-47) *)

Record TextareaView : Type := mkTextareaView {
  ta_rows : nat;
  ta_placeholder : string;
  ta_value : string;
  ta_disabled : bool;
}.

Record ButtonView : Type := mkButtonView {
  btn_size : string;
  btn_disabled : bool;
}.

Record InputAreaView : Type := mkInputAreaView {
  textarea : TextareaView;
  button : ButtonView;
}.

Definition render {A} (props : InputAreaProps A) (message : string)
    : InputAreaView := {|
  textarea := {|
    ta_rows := 1;
    ta_placeholder := "Type your message...";
    ta_value := message;
    ta_disabled := isLoading props;
  |};
  button := {|
    btn_size := "icon";
    btn_disabled := negb (truthy_string (trim message)) || isLoading props;
  |};
|}.

(** ** The local state after a handler *)

Section effects.
Context {A : Type}.
Implicit Types (props : InputAreaProps A) (message : string).

(** The draft after the effects of a handler, in order. *)
Definition draft_after (effects : list (InputEffect A)) message : string :=
  foldl (λ m eff, match eff with SetMessage v => v | _ => m end) message effects.

(** The calls the handler made, in order. *)
Definition invoked (effects : list (InputEffect A)) : list A :=
  omap (λ eff, match eff with Invoke a => Some a | _ => None end) effects.

(** Whether the handler cancelled the key's default action. *)
Definition prevented (effects : list (InputEffect A)) : bool :=
  existsb (λ eff, match eff with PreventDefault => true | _ => false end) effects.

(** ** Helper lemmas *)

Lemma handleSend_cases props message :
  handleSend props message =
    [Invoke (onSendMessage props (trim message)); SetMessage ""] ∧
    trim message ≠ "" ∧ isLoading props = false
  ∨ handleSend props message = [] ∧
    (trim message = "" ∨ isLoading props = true).
Proof.
  unfold handleSend. destruct (truthy_string (trim message)) eqn:Ht; simpl.
  - apply truthy_string_nonempty in Ht. destruct (isLoading props); auto.
  - right. split; [done|]. left.
    destruct (decide (trim message = "")) as [|Hne]; [done|].
    apply truthy_string_nonempty in Hne. congruence.
Qed.

Lemma handleKeyPress_cases props message e :
  handleKeyPress props message e = PreventDefault :: handleSend props message ∧
    key e = "Enter" ∧ shiftKey e = false
  ∨ handleKeyPress props message e = [] ∧ (key e ≠ "Enter" ∨ shiftKey e = true).
Proof.
  unfold handleKeyPress. destruct (String.eqb_spec (key e) "Enter") as [->|Hk];
    destruct (shiftKey e); simpl; auto.
Qed.

Lemma render_button_enabled props message :
  btn_disabled (button (render props message)) = false ↔
  trim message ≠ "" ∧ isLoading props = false.
Proof.
  simpl. rewrite orb_false_iff, negb_false_iff, truthy_string_nonempty. done.
Qed.

(** ** Properties *)

(** C28 (send guard): whatever [handleSend] passes to [onSendMessage]
    is the trimmed draft, it is not empty, no request was in flight,
    it is the only call, and the draft is empty afterwards. *)
Theorem handleSend_guard props message a :
  a ∈ invoked (handleSend props message) →
  isLoading props = false ∧ trim message ≠ "" ∧
  handleSend props message =
    [Invoke (onSendMessage props (trim message)); SetMessage ""] ∧
  a = onSendMessage props (trim message) ∧
  draft_after (handleSend props message) message = "".
Proof.
  destruct (handleSend_cases props message) as [(-> & Ht & Hl)|[-> _]];
    simpl; [|by intros ?%elem_of_nil].
  intros ->%list_elem_of_singleton. done.
Qed.

(** Blocked send: with a request in flight, or with a draft that
    is empty or only whitespace, [handleSend] does nothing: no call, and
    the draft stays as typed. *)
Theorem handleSend_blocked props message :
  isLoading props = true ∨ trim message = "" →
  handleSend props message = [] ∧
  draft_after (handleSend props message) message = message.
Proof.
  destruct (handleSend_cases props message) as [(_ & Ht & Hl)|[-> _]];
    [|done].
  intros [Hl'| Ht']; congruence.
Qed.

(** Button: the send button is enabled exactly when a click on it
    sends, that is when [handleSend] calls [onSendMessage]. *)
Theorem button_enabled_iff_sends props message :
  btn_disabled (button (render props message)) = false ↔
  invoked (handleSend props message) = [onSendMessage props (trim message)].
Proof.
  rewrite render_button_enabled.
  destruct (handleSend_cases props message) as [(-> & Ht & Hl)|[-> Hb]];
    simpl; [done|].
  split; [intros [? ?]; destruct Hb; congruence|done].
Qed.

(** C30 (Enter): a key press cancels the key's default action exactly
    when the key is Enter without Shift, and then it does what
    [handleSend] does; every other key, Shift+Enter included, is left
    to the textarea. *)
Theorem handleKeyPress_enter props message e :
  (prevented (handleKeyPress props message e) = true ↔
     key e = "Enter" ∧ shiftKey e = false) ∧
  invoked (handleKeyPress props message e) =
    (if decide (key e = "Enter" ∧ shiftKey e = false)
     then invoked (handleSend props message) else []) ∧
  draft_after (handleKeyPress props message e) message =
    (if decide (key e = "Enter" ∧ shiftKey e = false)
     then draft_after (handleSend props message) message else message).
Proof.
  destruct (handleKeyPress_cases props message e) as [(-> & Hk & Hs)|[-> Hn]].
  - rewrite !decide_True by done. by repeat split.
  - rewrite !decide_False by (intros [? ?]; destruct Hn; congruence).
    split; [|done]. simpl. split; [done|].
    intros [? ?]; destruct Hn; congruence.
Qed.

(** What is sent: [handleSend] calls [onSendMessage] exactly
    when no request is in flight and the draft holds a character that
    is not whitespace. *)
Theorem handleSend_sends_iff props message :
  invoked (handleSend props message) ≠ [] ↔
  isLoading props = false ∧ Exists (λ c, is_whitespace c = false) (chars message).
Proof.
  rewrite <- trim_nonempty_iff.
  destruct (handleSend_cases props message) as [(-> & Ht & Hl)|[-> Hb]]; simpl.
  - by split.
  - split; [done|]. intros [Hl Ht]. destruct Hb; congruence.
Qed.

(** Trimmed: the text [handleSend] passes on is a fixed point of
    [trim]: it is not empty and neither begins nor ends with
    whitespace. *)
Theorem sent_text_is_trimmed props message :
  invoked (handleSend props message) ≠ [] →
  let text := trim message in
  invoked (handleSend props message) = [onSendMessage props text] ∧
  trim text = text ∧
  (∃ c rest, chars text = c :: rest ∧ is_whitespace c = false) ∧
  (∃ front c, chars text = front ++ [c] ∧ is_whitespace c = false).
Proof.
  destruct (handleSend_cases props message) as [(-> & Ht & Hl)|[-> Hb]];
    simpl; [intros _|done].
  split; [done|]. split; [apply trim_idemp|].
  destruct (chars (trim message)) as [|c rest] eqn:Hc.
  { destruct Ht. by apply chars_nil. }
  rewrite chars_trim in Hc. split.
  - exists c, rest. eauto using trim_chars_head.
  - destruct (exists_last (l := c :: rest)) as (front & d & Hd); [done|].
    exists front, d. rewrite Hd in Hc. eauto using trim_chars_last.
Qed.

End effects.

(** ** Witnesses *)

Lemma handleSend_guard_witness :
  handleSend (mkInputAreaProps id false) "  hello " =
    [Invoke "hello"; SetMessage ""].
Proof.
  apply (handleSend_guard (mkInputAreaProps id false) "  hello " "hello").
  vm_compute. apply list_elem_of_here.
Defined.

Lemma handleSend_blocked_witness :
  handleSend (mkInputAreaProps id true) "hello" = [] ∧
  handleSend (mkInputAreaProps id false) "  " = [].
Proof.
  split.
  - apply (handleSend_blocked (mkInputAreaProps id true) "hello"). by left.
  - apply (handleSend_blocked (mkInputAreaProps id false) "  "). by right.
Defined.

Lemma sent_text_is_trimmed_witness :
  invoked (handleSend (mkInputAreaProps id false) "  What are mangroves? ") =
    ["What are mangroves?"] ∧
  trim "What are mangroves?" = "What are mangroves?".
Proof.
  destruct (sent_text_is_trimmed (mkInputAreaProps id false)
    "  What are mangroves? ") as (H1 & H2 & _); [by vm_compute|].
  split; [exact H1|exact H2].
Defined.

End InputArea.
