(* ===== verification/View.v ===== *)
(** * The chat view (components/ChatInterface.tsx)

    [ChatInterface] reads the store and returns an element tree: a
    heading, the message log, and the input component bound to the
    store's [addMessage].  [render] is that tree reduced to what the
    component computes from the store: the children of the log, in
    order, and the props handed to [InputArea].  Class names and static
    attributes are left out; [MessageBubble] is imported from a file
    that is not part of the sources, so a bubble is the element with the
    props it is given.

    The component has one effect, the auto-scroll, which React runs
    after the first render and after every render in which [messages]
    is another array than before.  A [Commit] says how a render came
    about, and [useEffect_scroll] is what the effect does after it.
    The names live in the module [ChatInterface]. *)

From stdpp Require Import strings.
From S2P Require Import Prelude JsString JsValue Message Task ChatApi Store Input.

Module ChatInterface.

(** ** Data *)

(** The children of the [role="log"] element. *)
Inductive LogChild : Type :=
| Bubble (key : nat) (message : Message) (aria_label : string)
| Status (text : string)    (** the [role="status"] paragraph *)
| Alert (text : string)     (** the [role="alert"] paragraph *)
| ScrollAnchor.             (** the [div] that holds [messagesEndRef] *)

Record View : Type := mkView {
  heading : string;
  log : list LogChild;
  input : InputArea.InputAreaProps (Task ChatState unit);
}.

(** ** Rendering *)

(** The callback of [messages.map] (lines 46-52). *)
Definition bubble (index : nat) (message : Message) : LogChild :=
  Bubble index message (role_name (role message) +:+ " message").

(** [{isLoading && ...}] (lines 55-61) *)
Definition loading_indicator (isLoading : bool) : list LogChild :=
  if isLoading then [Status "Thinking..."] else [].

(** [{error && ...}] (lines 64-70): [null] and the empty string render
    nothing. *)
Definition error_display (error : option string) : list LogChild :=
  match error with
  | Some text => if truthy_string text then [Alert text] else []
  | None => []
  end.

(** The children of the log (lines 44-74). *)
Definition log_children (st : ChatState) : list LogChild :=
  imap bubble (messages st)
  ++ loading_indicator (isLoading st)
  ++ error_display (error st)
  ++ [ScrollAnchor].

Section render.
Context `{!ChatApi ChatState}.

(** The component (lines 22-84). *)
Definition render (st : ChatState) : View := {|
  heading := "GroBot";
  log := log_children st;
  input := InputArea.mkInputAreaProps addMessage (isLoading st);
|}.

End render.

(** ** The auto-scroll effect (lines 26-32) *)

Inductive DomEffect : Type :=
| ScrollIntoView (behavior : string).

(** How a render came about: the component was mounted, or the store
    notified it of a call of [set] made in state [before]. *)
Inductive Commit : Type :=
| Mount
| Update (c : SetCall) (before : ChatState).

(** Whether the dependency list [[messages]] differs from the previous
    render's: React compares the arrays by identity. *)
Definition deps_changed (commit : Commit) : bool :=
  match commit with
  | Mount => true
  | Update c before => replaces_messages (partial_of c before)
  end.

(** [useEffect(() => { messagesEndRef.current?.scrollIntoView({ behavior:
    'smooth' }) }, [messages])]: the anchor is rendered in every
    render, so the ref is set when the effect runs. *)
Definition useEffect_scroll (commit : Commit) : list DomEffect :=
  if deps_changed commit then [ScrollIntoView "smooth"] else [].

(** ** What the log shows *)

Definition bubbles (l : list LogChild) : list (Message * string) :=
  omap (λ c, match c with Bubble _ m a => Some (m, a) | _ => None end) l.

Definition statuses (l : list LogChild) : list string :=
  omap (λ c, match c with Status t => Some t | _ => None end) l.

Definition alerts (l : list LogChild) : list string :=
  omap (λ c, match c with Alert t => Some t | _ => None end) l.

#[export] Instance LogChild_eq_dec : EqDecision LogChild.
Proof. solve_decision. Defined.

(** ** Helper lemmas *)

Lemma bubbles_imap (ms : list Message) :
  bubbles (imap bubble ms) =
  (λ m, (m, role_name (role m) +:+ " message")) <$> ms.
Proof. by apply omap_imap_Some. Qed.

Lemma bubbles_log st :
  bubbles (log_children st) =
  (λ m, (m, role_name (role m) +:+ " message")) <$> messages st.
Proof.
  unfold log_children, bubbles. rewrite omap_app.
  fold (bubbles (imap bubble (messages st))). rewrite bubbles_imap.
  rewrite <- (app_nil_r (_ <$> _)) at 2. f_equal.
  unfold loading_indicator, error_display. by repeat case_match.
Qed.

Lemma statuses_imap ms : statuses (imap bubble ms) = [].
Proof. by apply omap_imap_None. Qed.

Lemma alerts_imap ms : alerts (imap bubble ms) = [].
Proof. by apply omap_imap_None. Qed.

Lemma statuses_log st :
  statuses (log_children st) = if isLoading st then ["Thinking..."] else [].
Proof.
  unfold log_children, statuses. rewrite omap_app.
  fold (statuses (imap bubble (messages st))). rewrite statuses_imap.
  unfold loading_indicator, error_display. by repeat case_match.
Qed.

Lemma alerts_log st :
  alerts (log_children st) =
  match error st with
  | Some text => if truthy_string text then [text] else []
  | None => []
  end.
Proof.
  unfold log_children, alerts. rewrite omap_app.
  fold (alerts (imap bubble (messages st))). rewrite alerts_imap.
  unfold loading_indicator, error_display. by repeat case_match.
Qed.

Lemma role_name_inj : Inj (=) (=) role_name.
Proof. by intros [] [] ?. Qed.

Lemma elem_of_log_children c st :
  c ∈ log_children st ↔
    (∃ i m, messages st !! i = Some m ∧ c = bubble i m) ∨
    (c = Status "Thinking..." ∧ isLoading st = true) ∨
    (∃ text, c = Alert text ∧ error st = Some text ∧ text ≠ "") ∨
    c = ScrollAnchor.
Proof.
  unfold log_children, loading_indicator, error_display.
  rewrite !elem_of_app, elem_of_lookup_imap, list_elem_of_singleton.
  destruct (isLoading st), (error st) as [t|];
    try (destruct (truthy_string t) eqn:Ht;
         [apply truthy_string_nonempty in Ht
         |apply not_true_iff_false in Ht; rewrite truthy_string_nonempty in Ht]);
    rewrite ?list_elem_of_singleton, ?elem_of_nil; naive_solver.
Qed.

(** The child at the position of a message. *)
Lemma lookup_log_children st i m :
  messages st !! i = Some m →
  log_children st !! i = Some (Bubble i m (role_name (role m) +:+ " message")).
Proof.
  intros Hm. unfold log_children.
  rewrite lookup_app_l by (rewrite length_imap; by eapply lookup_lt_Some).
  by rewrite list_lookup_imap, Hm.
Qed.

(** ** Properties *)

Section properties.
Context `{!ChatApi ChatState}.

(** C31 (log): the log shows the stored conversation and nothing else
    of it: the child at the position of a stored message is the bubble
    of that message, keyed by the position and labelled by the role;
    these are the first children, in order, and there are no other
    bubbles. *)
Theorem log_shows_conversation st :
  take (length (messages st)) (log (render st)) = imap bubble (messages st) ∧
  bubbles (log (render st)) =
    (λ m, (m, role_name (role m) +:+ " message")) <$> messages st ∧
  (∀ i m, messages st !! i = Some m →
     log (render st) !! i = Some (Bubble i m (role_name (role m) +:+ " message"))).
Proof.
  split_and!; [|apply bubbles_log|apply lookup_log_children].
  simpl. unfold log_children. rewrite take_app_length'; [done|]. by rewrite length_imap.
Qed.

(** C32 (indicators): the log shows [Thinking...] exactly while
    [isLoading] is set, and an alert exactly when [error] is a
    non-empty text, which is then the alert's text; the scroll anchor
    is the last child. *)
Theorem indicators_reflect_store st :
  (Status "Thinking..." ∈ log (render st) ↔ isLoading st = true) ∧
  (∀ text, Alert text ∈ log (render st) ↔ error st = Some text ∧ text ≠ "") ∧
  statuses (log (render st)) = (if isLoading st then ["Thinking..."] else []) ∧
  length (alerts (log (render st))) ≤ 1 ∧
  last (log (render st)) = Some ScrollAnchor.
Proof.
  simpl. split_and!.
  - rewrite elem_of_log_children. unfold bubble. naive_solver.
  - intros text. rewrite elem_of_log_children. unfold bubble. naive_solver.
  - apply statuses_log.
  - rewrite alerts_log. repeat case_match; simpl; lia.
  - unfold log_children. by rewrite !app_assoc, last_snoc.
Qed.

(** C33 (auto-scroll): the view scrolls to the end after it is mounted
    and after every write that changes the conversation; a write that
    records a failure or sets the error never scrolls; and the only
    scroll without a change of the conversation is after
    [clearMessages] on a conversation that was already empty. *)
Theorem auto_scroll_follows_conversation c st :
  useEffect_scroll Mount = [ScrollIntoView "smooth"] ∧
  (messages (write_of c st) ≠ messages st →
   useEffect_scroll (Update c st) = [ScrollIntoView "smooth"]) ∧
  (useEffect_scroll (Update c st) ≠ [] → messages (write_of c st) = messages st →
   c = SetClear ∧ messages st = []) ∧
  (useEffect_scroll (Update c st) = [] ↔
   (∃ e, c = SetFailure e) ∨ (∃ e, c = SetErrorField e)).
Proof.
  split; [done|]. destruct c as [content|reply|e| |e]; simpl;
    (split; [done|]); (split; [|naive_solver]); try done.
  - intros _ H. by apply (f_equal length) in H; rewrite length_app in H; simpl in H; lia.
  - intros _ H. by apply (f_equal length) in H; rewrite length_app in H; simpl in H; lia.
Qed.

End properties.

End ChatInterface.
