(* ===== verification/Page.v ===== *)
(** * The page (app/page.tsx and app/layout.tsx)

    [Home] wraps one [ChatInterface] in two static elements, and
    [RootLayout] wraps the page in the document shell.  Both are
    constant element trees; what matters to the rest of the development
    is what they mount: exactly one [ChatInterface], hence one
    subscriber of the store and one [InputArea] with one draft, which
    is the shape [Ui] gives the application.

    An element is its tag, its attributes and its children; a component
    the page mounts without rendering it itself is a leaf.  The class
    name of the font comes from [next/font], a library the sources only
    call, and is a parameter. *)

From stdpp Require Import strings.
From S2P Require Import Prelude.

Module Page.

(** ** Elements *)

#[local] Unset Elimination Schemes.
Inductive Node : Type :=
| Element (tag : string) (attributes : list (string * string)) (children : list Node)
| Component (name : string).
#[local] Set Elimination Schemes.

(** [export const metadata] (layout.tsx) *)
Record Metadata : Type := mkMetadata {
  title : string;
  description : string;
}.

Definition metadata : Metadata := {|
  title := "GroBot - Mangrove Ecosystem Assistant";
  description := "Your AI assistant for mangrove ecosystems and ecology information";
|}.

(** [Home] (page.tsx) *)
Definition Home : Node :=
  Element "main"
    [("className", "flex min-h-screen flex-col items-center justify-center p-4 bg-gradient-to-b from-background to-background/80")]
    [Element "div" [("className", "w-full max-w-5xl")]
       [Component "ChatInterface"]].

(** [RootLayout] (layout.tsx); [font] is [inter.className]. *)
Definition RootLayout (font : string) (children : list Node) : Node :=
  Element "html" [("lang", "en")]
    [Element "body"
       [("className", font +:+ " min-h-screen bg-gradient-to-br from-white via-green-50 to-blue-50 text-foreground")]
       children].

(** The document the router serves for the one route. *)
Definition document (font : string) : Node := RootLayout font [Home].

(** ** What a tree mounts *)

(** The components mounted in a tree, in document order. *)
Fixpoint mounted (n : Node) : list string :=
  match n with
  | Element _ _ children => mjoin (map mounted children)
  | Component name => [name]
  end.

(** ** Properties *)

Lemma mounted_RootLayout font children :
  mounted (RootLayout font children) = mjoin (map mounted children).
Proof. simpl. by rewrite app_nil_r. Qed.

(** The page mounts one [ChatInterface] and nothing else, whatever the
    font, and the layout adds no component of its own. *)
Lemma document_mounts_one_chat font :
  mounted (document font) = ["ChatInterface"].
Proof. done. Qed.

End Page.
