(* ===== verification/Ui.v ===== *)
(** * The application: the store driven through the view

    The page mounts one [ChatInterface], which binds one [InputArea] to
    the store's [addMessage] and hands it the store's [isLoading].  No
    component calls [clearMessages] or [setError].  A [Ui] is the draft
    held by the input component together with the [World] of the store;
    a [UiEvent] is a DOM event on one of the two controls or the
    settling of a promise.  The handlers run with the props of the
    latest render, which reflects the store as it is when the event
    arrives.

    Events on a disabled control are not excluded: the handlers guard
    themselves, so the theorems hold whether or not the browser
    delivers them.  [ui_requests] is what a run of the application
    sends to the server, in order. *)

From stdpp Require Import strings.
From S2P Require Import Prelude JsString JsValue Message Task ChatApi Store World.
From S2P Require Import Transport Input View.

Section model.
Context `{!ChatApi ChatState}.

(** ** State and events *)

Record Ui : Type := mkUi {
  draft : string;
  world : World;
}.

Definition initial_ui : Ui := mkUi "" initial_world.

Inductive UiEvent : Type :=
| Change (value : string)       (** [onChange] of the textarea *)
| KeyDown (e : InputArea.KeyboardEvent)   (** [onKeyDown] of the textarea *)
| Click                         (** [onClick] of the send button *)
| Promise (i : nat) (r : Reply).

(** The props the input component was rendered with. *)
Definition props (u : Ui) : InputArea.InputAreaProps (Task ChatState unit) :=
  ChatInterface.input (ChatInterface.render (state (world u))).

(** ** Steps *)

Definition perform (u : Ui) (eff : InputArea.InputEffect (Task ChatState unit)) : Ui :=
  match eff with
  | InputArea.Invoke p => mkUi (draft u) (call p (world u))
  | InputArea.SetMessage value => mkUi value (world u)
  | InputArea.PreventDefault => u
  end.

Definition handle (u : Ui) (effects : list (InputArea.InputEffect (Task ChatState unit))) : Ui :=
  foldl perform u effects.

Definition ui_step (u : Ui) (ev : UiEvent) : option Ui :=
  match ev with
  | Change value => Some (handle u (InputArea.handleChange value))
  | KeyDown e => Some (handle u (InputArea.handleKeyPress (props u) (draft u) e))
  | Click => Some (handle u (InputArea.handleSend (props u) (draft u)))
  | Promise i r => w ← settle i r (world u); Some (mkUi (draft u) w)
  end.

(** The requests the effects of a handler send, in order. *)
Fixpoint handle_issued (u : Ui)
    (effects : list (InputArea.InputEffect (Task ChatState unit))) : list RequestInit :=
  match effects with
  | [] => []
  | eff :: rest =>
      match eff with
      | InputArea.Invoke p => launched p (world u)
      | _ => []
      end ++ handle_issued (perform u eff) rest
  end.

Definition ui_issued (u : Ui) (ev : UiEvent) : list RequestInit :=
  match ev with
  | Change value => handle_issued u (InputArea.handleChange value)
  | KeyDown e => handle_issued u (InputArea.handleKeyPress (props u) (draft u) e)
  | Click => handle_issued u (InputArea.handleSend (props u) (draft u))
  | Promise i r => issued (world u) (Settle i r)
  end.

Fixpoint ui_exec (u : Ui) (evs : list UiEvent) : option Ui :=
  match evs with
  | [] => Some u
  | ev :: rest => u' ← ui_step u ev; ui_exec u' rest
  end.

(** The requests a run of the application sends, in order. *)
Fixpoint ui_requests (u : Ui) (evs : list UiEvent) : list RequestInit :=
  match evs with
  | [] => []
  | ev :: rest =>
      ui_issued u ev ++
      match ui_step u ev with
      | Some u' => ui_requests u' rest
      | None => []
      end
  end.

Inductive ui_reachable : Ui → Prop :=
| ui_reachable_init : ui_reachable initial_ui
| ui_reachable_step u ev u' :
    ui_reachable u → ui_step u ev = Some u' → ui_reachable u'.

(** ** Invariants *)

(** At most one request is in flight, and [isLoading] says whether one
    is. *)
Definition single_flight (w : World) : Prop :=
  (pending w = [] ∧ isLoading (state w) = false) ∨
  (∃ s, pending w = [s] ∧ isLoading (state w) = true).

(** Every assistant message directly follows a user message. *)
Definition replies_follow (ms : list Message) : Prop :=
  ∀ i m, ms !! i = Some m → role m = assistant →
    ∃ j q, i = S j ∧ ms !! j = Some q ∧ role q = user.

Definition ends_with_user (ms : list Message) : Prop :=
  ∃ q, last ms = Some q ∧ role q = user.

(** The conversation as the application keeps it. *)
Definition dialogue (st : ChatState) : Prop :=
  no_system st ∧ replies_follow (messages st) ∧
  (isLoading st = true → ends_with_user (messages st) ∧ error st = None).

Definition ui_ok (w : World) : Prop :=
  world_ok w ∧ single_flight w ∧ dialogue (state w).

(** ** The specification's state machine

    Section 4 of the specification: per submission, Idle to Sending on
    submit, then back to Idle with the assistant's message appended, or
    to Idle with the error set.  A submission is accepted only when
    idle, which is the policy the specification asks for. *)

Inductive Phase : Type := Idle | Sending.

Record Session : Type := mkSession {
  conversation : list Message;
  phase : Phase;
  failure : option string;
}.

Inductive SpecEvent : Type :=
| Submit (content : string)
| Succeed (reply : JsVal)
| Fail (text : string).

Inductive SpecStep : Session → SpecEvent → Session → Prop :=
| Spec_submit conv err content :
    SpecStep (mkSession conv Idle err) (Submit content)
      (mkSession (conv ++ [mkMessage user (JStr content)]) Sending None)
| Spec_succeed conv reply :
    SpecStep (mkSession conv Sending None) (Succeed reply)
      (mkSession (conv ++ [mkMessage assistant reply]) Idle None)
| Spec_fail conv text :
    SpecStep (mkSession conv Sending None) (Fail text)
      (mkSession conv Idle (Some text)).

Inductive SpecRun : Session → list SpecEvent → Session → Prop :=
| SpecRun_nil x : SpecRun x [] x
| SpecRun_cons x ev y evs z :
    SpecStep x ev y → SpecRun y evs z → SpecRun x (ev :: evs) z.

(** The session a store state stands for. *)
Definition session_of (st : ChatState) : Session :=
  mkSession (messages st) (if isLoading st then Sending else Idle) (error st).

(** ** What a step of the application is for the store *)

(** The step leaves the store alone, submits the trimmed draft with no
    request in flight, or settles a promise. *)
Inductive UiEffect (u u' : Ui) : UiEvent → Prop :=
| UiEffect_draft ev :
    world u' = world u →
    UiEffect u u' ev
| UiEffect_submit ev :
    isLoading (state (world u)) = false →
    trim (draft u) ≠ "" →
    draft u' = "" →
    Step (world u) (AddMessage (trim (draft u))) (world u') →
    UiEffect u u' ev
| UiEffect_settle i r :
    draft u' = draft u →
    Step (world u) (Settle i r) (world u') →
    UiEffect u u' (Promise i r).

End model.

(** ** The session of the witnesses, with the real client *)

(** The user types a question, presses Enter, and the server answers. *)
Definition enter : InputArea.KeyboardEvent := InputArea.mkKeyboardEvent "Enter" false.

Definition greeting : Response :=
  mkResponse true 200 (Fulfilled (JObj [("response", JStr "Hello!")])).

Definition typed : Ui := mkUi " hi " initial_world.

Definition sent : Ui := mkUi "" (call (addMessage "hi") initial_world).

Definition session : list UiEvent :=
  [Change " hi "; KeyDown enter; Click;
   Promise 0 (FetchSettled (Fulfilled greeting)); Promise 0 JsonSettled].

Section ui.
Context `{!ChatApi ChatState}.

(** ** The handlers on the application state *)

Lemma handle_handleSend u :
  handle u (InputArea.handleSend (props u) (draft u)) =
    mkUi "" (call (addMessage (trim (draft u))) (world u)) ∧
    trim (draft u) ≠ "" ∧ isLoading (state (world u)) = false
  ∨ handle u (InputArea.handleSend (props u) (draft u)) = u ∧
    (trim (draft u) = "" ∨ isLoading (state (world u)) = true).
Proof.
  destruct (InputArea.handleSend_cases (props u) (draft u))
    as [(-> & Ht & Hl)|[-> Hb]]; [left|right]; done.
Qed.

Lemma handle_handleKeyPress u e :
  handle u (InputArea.handleKeyPress (props u) (draft u) e) =
    handle u (InputArea.handleSend (props u) (draft u)) ∨
  handle u (InputArea.handleKeyPress (props u) (draft u) e) = u.
Proof.
  destruct (InputArea.handleKeyPress_cases (props u) (draft u) e)
    as [(-> & _)|[-> _]]; [left|right]; done.
Qed.

Lemma handleSend_UiEffect u ev :
  UiEffect u (handle u (InputArea.handleSend (props u) (draft u))) ev.
Proof.
  destruct (handle_handleSend u) as [(-> & Ht & Hl)|[-> _]].
  - apply UiEffect_submit; [done..|]. constructor.
  - by apply UiEffect_draft.
Qed.

Lemma ui_step_UiEffect u ev u' : ui_step u ev = Some u' → UiEffect u u' ev.
Proof.
  destruct ev as [v|e| |i r]; simpl.
  - intros [= <-]. by apply UiEffect_draft.
  - intros [= <-]. destruct (handle_handleKeyPress u e) as [-> | ->].
    + apply handleSend_UiEffect.
    + by apply UiEffect_draft.
  - intros [= <-]. apply handleSend_UiEffect.
  - destruct (settle i r (world u)) as [w|] eqn:Hs; simpl; [|done].
    intros [= <-]. apply UiEffect_settle; [done|]. by apply Step_step.
Qed.

(** ** The conversation under the writes of a submission *)

Lemma replies_follow_snoc_user ms q :
  replies_follow ms → role q = user → replies_follow (ms ++ [q]).
Proof.
  intros Hms Hq i m [[_ Hi]|[-> [= <-]]]%lookup_snoc_Some Hm; [|congruence].
  destruct (Hms i m Hi Hm) as (j & p & -> & Hj & Hp).
  exists j, p. by rewrite lookup_app_l by (apply lookup_lt_Some in Hj; lia).
Qed.

Lemma replies_follow_snoc ms m :
  replies_follow ms → ends_with_user ms → replies_follow (ms ++ [m]).
Proof.
  intros Hms (q & Hlast & Hq) i m' [[_ Hi]|[-> [= <-]]]%lookup_snoc_Some Hm.
  - destruct (Hms i m' Hi Hm) as (j & p & -> & Hj & Hp).
    exists j, p. by rewrite lookup_app_l by (apply lookup_lt_Some in Hj; lia).
  - rewrite last_lookup in Hlast. destruct ms as [|m0 ms]; [done|].
    simpl in Hlast. exists (length ms), q. split; [done|].
    by rewrite lookup_app_l by (simpl; lia).
Qed.

Lemma dialogue_submitted content st :
  dialogue st → dialogue (submitted content st).
Proof.
  intros (Hn & Hr & _). split_and!.
  - eapply store_write_no_system; [constructor|done].
  - by apply replies_follow_snoc_user.
  - intros _. split; [|done]. eexists. simpl. by rewrite last_snoc.
Qed.

Lemma dialogue_resolve s s' :
  resolve_write s s' → isLoading s = true → dialogue s → dialogue s'.
Proof.
  intros Hw Hl (Hn & Hr & He). destruct (He Hl) as [Hu _].
  pose proof (store_write_no_system _ _ (resolve_store_write _ _ Hw) Hn) as Hn'.
  destruct (resolve_write_inv _ _ Hw) as [Hl' [(reply & Hm & _)|(e & Hm & _)]];
    (split_and!; [done| |by rewrite Hl']); rewrite Hm; [|done].
  apply replies_follow_snoc; auto.
Qed.

(** ** The writes of a submission as steps of the specification *)

Lemma submitted_SpecStep content st :
  isLoading st = false →
  SpecStep (session_of st) (Submit content) (session_of (submitted content st)).
Proof. unfold session_of. intros ->. constructor. Qed.

Lemma resolve_SpecStep s s' :
  resolve_write s s' → isLoading s = true → error s = None →
  ∃ ev, SpecStep (session_of s) ev (session_of s').
Proof.
  unfold session_of. intros [reply st|e st] Hl He; simpl; rewrite Hl, ?He.
  - exists (Succeed reply). constructor.
  - exists (Fail (error_text e)). constructor.
Qed.

(** ** The invariant is kept *)

Lemma submit_ok w w' content :
  ui_ok w → isLoading (state w) = false →
  Step w (AddMessage content) w' → ui_ok w'.
Proof.
  intros (Hok & [[Hp _]|(s & _ & Hl)] & Hd) Hidle HS; [|congruence].
  destruct (Step_Effect _ _ _ Hok HS) as [HE Hok'].
  pose proof (dialogue_submitted content _ Hd) as Hd'.
  inversion HE as [c s Hst Hp'|c Hw Hp'| | | |]; subst.
  - split_and!; [done|right; exists s; by rewrite Hp', Hp, Hst|by rewrite Hst].
  - destruct (resolve_write_inv _ _ Hw) as [Hl _].
    split_and!; [done|left; by rewrite Hp'|by eapply dialogue_resolve].
Qed.

Lemma settle_ok w w' i r :
  ui_ok w → Step w (Settle i r) w' → ui_ok w'.
Proof.
  intros (Hok & Hsf & Hd) HS.
  destruct (Step_Effect _ _ _ Hok HS) as [HE Hok'].
  inversion HE as [| | | |? ? Hi Hw Hp'|? ? s' Hi Hst Hp']; subst;
    destruct Hsf as [[Hp _]|(s & Hp & Hl)];
    try (rewrite Hp in Hi; simpl in Hi; lia);
    rewrite Hp in Hi, Hp'; destruct i; simpl in Hi; try lia.
  - destruct (resolve_write_inv _ _ Hw) as [Hl' _].
    split_and!; [done|by left|by eapply dialogue_resolve].
  - split_and!; [done|right; exists s'; by rewrite Hst|by rewrite Hst].
Qed.

Lemma UiEffect_ok u u' ev : ui_ok (world u) → UiEffect u u' ev → ui_ok (world u').
Proof.
  intros Hok [? -> |? Hl _ _ HS|? ? _ HS];
    [done|by eapply submit_ok|by eapply settle_ok].
Qed.

Lemma initial_ok : ui_ok initial_world.
Proof.
  split_and!; [by split|by left|].
  split_and!; [by constructor|by intros i m ?|done].
Qed.

Lemma ui_reachable_ok u : ui_reachable u → ui_ok (world u).
Proof.
  induction 1 as [|u ev u' _ IH HS]; [apply initial_ok|].
  eapply UiEffect_ok, ui_step_UiEffect; eauto.
Qed.

Lemma ui_reachable_world u : ui_reachable u → reachable (world u).
Proof.
  induction 1 as [|u ev u' _ IH HS]; [constructor|].
  destruct (ui_step_UiEffect _ _ _ HS) as [? -> |? _ _ _ HW|? ? _ HW];
    eauto with grobot.
Qed.

(** ** Every step is a run of the specification *)

Lemma submit_SpecRun w w' content :
  ui_ok w → isLoading (state w) = false → Step w (AddMessage content) w' →
  ∃ tr, length tr ≤ 1 ∧
    SpecRun (session_of (state w)) (Submit content :: tr) (session_of (state w')).
Proof.
  intros (Hok & _ & Hd) Hidle HS.
  destruct (Step_Effect _ _ _ Hok HS) as [HE _].
  pose proof (submitted_SpecStep content _ Hidle) as H1.
  inversion HE as [c s Hst Hp'|c Hw Hp'| | | |]; subst.
  - exists []. split; [simpl; lia|]. rewrite Hst. repeat econstructor; done.
  - destruct (resolve_SpecStep _ _ Hw) as [ev H2]; [done..|].
    exists [ev]. split; [simpl; lia|]. repeat econstructor; done.
Qed.

Lemma settle_SpecRun w w' i r :
  ui_ok w → Step w (Settle i r) w' →
  ∃ tr, length tr ≤ 1 ∧ SpecRun (session_of (state w)) tr (session_of (state w')).
Proof.
  intros (Hok & Hsf & (_ & _ & Hd)) HS.
  destruct (Step_Effect _ _ _ Hok HS) as [HE _].
  inversion HE as [| | | |? ? Hi Hw Hp'|? ? s' Hi Hst Hp']; subst.
  - destruct Hsf as [[Hp _]|(s & Hp & Hl)]; [rewrite Hp in Hi; simpl in Hi; lia|].
    destruct (resolve_SpecStep _ _ Hw) as [ev H2]; [done|by apply Hd|].
    exists [ev]. split; [simpl; lia|]. repeat econstructor; done.
  - exists []. split; [simpl; lia|]. rewrite Hst. constructor.
Qed.

Lemma ui_exec_reachable u evs u' :
  ui_reachable u → ui_exec u evs = Some u' → ui_reachable u'.
Proof.
  revert u. induction evs as [|ev evs IH]; intros u Hu; simpl.
  - by intros [= <-].
  - destruct (ui_step u ev) as [u1|] eqn:Hs; simpl; [|done].
    apply IH. by eapply ui_reachable_step.
Qed.

(** ** Properties *)

(** C5 (single flight): driven through the view, the store has at
    most one request in flight, and [isLoading] is set exactly while
    there is one.  The guard is in [InputArea.handleSend]; the store
    itself has none. *)
Theorem ui_single_flight u :
  ui_reachable u →
  (pending (world u) = [] ∧ isLoading (state (world u)) = false) ∨
  (∃ s, pending (world u) = [s] ∧ is_done s = false ∧
        isLoading (state (world u)) = true).
Proof.
  intros ((_ & Hp) & [?|(s & Hs & Hl)] & _)%ui_reachable_ok; [by left|right].
  exists s. rewrite Hs in Hp |- *. by destruct (Forall_inv Hp) as [_ [? _]].
Qed.

Lemma SpecRun_app x tr y tr' z :
  SpecRun x tr y → SpecRun y tr' z → SpecRun x (tr ++ tr') z.
Proof. induction 1; [done|]. intros. econstructor; eauto. Qed.

(** One step is a run of at most two transitions: none when only the
    draft changes or a task moves to its next suspension, a submit
    from Idle, a resolution from Sending, or both when the client
    answers within the turn. *)
Lemma ui_step_SpecRun u ev u' :
  ui_reachable u → ui_step u ev = Some u' →
  ∃ tr, length tr ≤ 2 ∧
    SpecRun (session_of (state (world u))) tr (session_of (state (world u'))).
Proof.
  intros Hok%ui_reachable_ok [? -> |? Hl _ _ HS|? ? _ HS]%ui_step_UiEffect.
  - exists []. split; [simpl; lia|constructor].
  - destruct (submit_SpecRun _ _ _ Hok Hl HS) as (tr & Hn & Hr).
    eexists. split; [|done]. simpl; lia.
  - destruct (settle_SpecRun _ _ _ _ Hok HS) as (tr & Hn & Hr).
    exists tr. split; [lia|done].
Qed.

(** C20 (lifecycle): every run of the application is a run of the
    specification's state machine, of at most two transitions an
    event: a submit from Idle, a resolution from Sending, both when
    the client answers within the turn, and none when only the draft
    changes or a task moves to its next suspension. *)
Theorem ui_refines_lifecycle u evs u' :
  ui_reachable u → ui_exec u evs = Some u' →
  ∃ tr, length tr ≤ 2 * length evs ∧
    SpecRun (session_of (state (world u))) tr (session_of (state (world u'))).
Proof.
  revert u. induction evs as [|ev evs IH]; intros u Hu; simpl.
  { intros [= <-]. exists []. split; [done|constructor]. }
  destruct (ui_step u ev) as [u1|] eqn:Hstep; [|done]. cbn [mbind option_bind].
  intros Hex. destruct (ui_step_SpecRun u ev u1 Hu Hstep) as (tr1 & Hn1 & Hr1).
  destruct (IH u1 (ui_reachable_step _ _ _ Hu Hstep) Hex) as (tr & Hn & Hr).
  exists (tr1 ++ tr). split; [rewrite length_app; lia|by eapply SpecRun_app].
Qed.

(** C29 (dialogue): driven through the view, every stored assistant
    message directly follows a user message, no stored message has the
    role system, and while a request is in flight the last stored
    message is the user's and the error is null. *)
Theorem ui_replies_follow_questions u :
  ui_reachable u →
  let st := state (world u) in
  no_system st ∧ replies_follow (messages st) ∧
  (isLoading st = true → ends_with_user (messages st) ∧ error st = None).
Proof. intros (_ & _ & Hd)%ui_reachable_ok. exact Hd. Qed.

(** Events: an event of the application leaves the store alone,
    or calls [addMessage] with the trimmed, non-empty draft while no
    request is in flight and empties the draft, or settles a promise;
    the application never calls [clearMessages] or [setError], and
    reaches only worlds the store's own events reach. *)
Theorem ui_refines_world u ev u' :
  ui_reachable u → ui_step u ev = Some u' →
  reachable (world u') ∧
  (world u' = world u ∨
   (isLoading (state (world u)) = false ∧ trim (draft u) ≠ "" ∧ draft u' = "" ∧
    step (world u) (AddMessage (trim (draft u))) = Some (world u')) ∨
   (∃ i r, ev = Promise i r ∧ draft u' = draft u ∧
    step (world u) (Settle i r) = Some (world u'))).
Proof.
  intros Hu HS. split.
  - eapply ui_reachable_world, ui_reachable_step; eauto.
  - destruct (ui_step_UiEffect _ _ _ HS) as [? -> |? Hl Ht Hd HW|? ? Hd HW];
      [by left|right; left|right; right].
    + by apply Step_step in HW.
    + apply Step_step in HW. eauto.
Qed.

(** Labels: in the log of the application every bubble is
    labelled [user message] or [assistant message]: the persona is
    never displayed. *)
Theorem ui_log_labels u m label :
  ui_reachable u →
  (m, label) ∈ ChatInterface.bubbles
    (ChatInterface.log (ChatInterface.render (state (world u)))) →
  label = "user message" ∨ label = "assistant message".
Proof.
  intros (_ & _ & Hn & _)%ui_reachable_ok. simpl.
  rewrite ChatInterface.bubbles_log, list_elem_of_fmap.
  intros (m' & [= -> ->] & Hm).
  unfold no_system in Hn. rewrite Forall_forall in Hn. specialize (Hn _ Hm).
  by destruct (role m'); [left|right|].
Qed.

(** C40 (second submit rejected): while [isLoading] is set, no event
    on the controls reaches the store: typing still changes the draft,
    but Enter and the button do nothing and keep the draft.  A request
    that never settles therefore blocks the application for good. *)
Theorem ui_blocked_while_loading u ev u' :
  isLoading (state (world u)) = true →
  (∀ i r, ev ≠ Promise i r) →
  ui_step u ev = Some u' →
  world u' = world u ∧ ((∀ value, ev ≠ Change value) → draft u' = draft u).
Proof.
  intros Hl Hev. assert (handle u (InputArea.handleSend (props u) (draft u)) = u)
    as Hsend by (destruct (handle_handleSend u) as [(_ & _ & ?)|[? _]]; congruence).
  destruct ev as [v|e| |i r]; simpl; [| | |by destruct (Hev i r)]; intros [= <-].
  - split; [done|]. by intros Hv; destruct (Hv v).
  - by destruct (handle_handleKeyPress u e) as [-> | ->]; rewrite ?Hsend.
  - by rewrite Hsend.
Qed.

End ui.

(** ** Witnesses, with the real client *)

Lemma typed_reachable : ui_reachable typed.
Proof. by apply (ui_exec_reachable initial_ui [Change " hi "]); [constructor|]. Qed.

Lemma sent_reachable : ui_reachable sent.
Proof.
  by apply (ui_exec_reachable initial_ui [Change " hi "; KeyDown enter]);
    [constructor|].
Qed.

Lemma ui_single_flight_witness :
  (pending (world sent) = [] ∧ isLoading (state (world sent)) = false) ∨
  (∃ s, pending (world sent) = [s] ∧ is_done s = false ∧
        isLoading (state (world sent)) = true).
Proof. exact (ui_single_flight sent sent_reachable). Defined.

Lemma ui_refines_lifecycle_witness :
  ∃ tr, length tr ≤ 2 ∧
    SpecRun (session_of (state (world typed))) tr (session_of (state (world sent))).
Proof. exact (ui_refines_lifecycle typed [Click] sent typed_reachable eq_refl). Defined.

Lemma ui_replies_follow_questions_witness :
  ∃ u, ui_exec initial_ui session = Some u ∧
    messages (state (world u)) =
      [mkMessage user (JStr "hi"); mkMessage assistant (JStr "Hello!")] ∧
    replies_follow (messages (state (world u))).
Proof.
  eexists. split; [reflexivity|]. split; [reflexivity|].
  eapply ui_replies_follow_questions, (ui_exec_reachable initial_ui session);
    [constructor|reflexivity].
Defined.

Lemma ui_refines_world_witness :
  step (world typed) (AddMessage "hi") = Some (world sent).
Proof.
  destruct (ui_refines_world typed Click sent typed_reachable eq_refl)
    as [_ [H|[(_ & _ & _ & H)|(i & r & H & _)]]]; [discriminate H|exact H|discriminate H].
Defined.

Lemma ui_log_labels_witness :
  "user message" = "user message" ∨ "user message" = "assistant message".
Proof.
  apply (ui_log_labels sent (mkMessage user (JStr "hi")) "user message" sent_reachable).
  vm_compute. apply list_elem_of_here.
Defined.

Lemma ui_blocked_while_loading_witness :
  ui_step (mkUi "again" (world sent)) Click = Some (mkUi "again" (world sent)).
Proof.
  destruct (ui_step (mkUi "again" (world sent)) Click) as [u'|] eqn:Hs; [|done].
  destruct (ui_blocked_while_loading (mkUi "again" (world sent)) Click u' eq_refl
    (λ i r, ltac:(discriminate)) Hs) as [Hw Hd].
  destruct u' as [d w]. simpl in *. by rewrite Hw, (Hd (λ v, ltac:(discriminate))).
Defined.
