(* ===== verification/Session.v ===== *)
(** * What the server is sent in a session

    The application with the real client, seen from the network.  A
    submission with [sendChatMessage] is suspended twice, on [fetch]
    and then on [json()]: [awaiting_fetch] and [awaiting_json] are
    the two statuses, and every suspended task of a reachable world is
    one of them ([reachable_shape]), so a settling promise never sends
    a request.

    In the application only a submission sends one, and it carries the
    system message followed by the whole conversation on display, the
    new message last.  No component clears the store, so each request
    repeats the one before and adds to it: [session_requests]. *)

From stdpp Require Import strings.
From S2P Require Import Prelude JsString JsValue Message Task ChatApi Transport.
From S2P Require Import Store World Ordering Input View Ui.

(** ** Definitions *)

(** Suspended on [fetch], with the list to transmit. *)
Definition awaiting_fetch (request : list Message) : Status ChatState unit :=
  (run (awaiting_reply request) (mkMachine initial_state [])).2.

(** Suspended on [json()], with the response whose body is read. *)
Definition awaiting_json (response : Response) : Status ChatState unit :=
  match resume (awaiting_fetch []) (FetchSettled (Fulfilled response)) with
  | Some p => (run p (mkMachine initial_state [])).2
  | None => Done (Fulfilled tt)
  end.

Definition pending_shape (s : Status ChatState unit) : Prop :=
  (∃ request, s = awaiting_fetch request) ∨
  (∃ response, ok response = true ∧ s = awaiting_json response).

(** The messages a request carries. *)
Definition carried (r : RequestInit) : list Message := req_messages (init_body r).

(** Each request strictly extends the conversation before it, and the
    conversation at the end extends the last request. *)
Fixpoint chain (low : list Message) (rs : list RequestInit) (high : list Message)
    : Prop :=
  match rs with
  | [] => low `prefix_of` high
  | r :: rs =>
      ∃ ms, r = chat_init (SYSTEM_MESSAGE :: ms) ∧
        low `prefix_of` ms ∧ length low < length ms ∧
        ends_with_user ms ∧ chain ms rs high
  end.

(** The session of [Ui] followed by a second question and its answer. *)
Definition two_questions : list UiEvent :=
  session ++ [Change "and you?"; Click;
    Promise 0 (FetchSettled (Fulfilled greeting)); Promise 0 JsonSettled].

(** ** The two suspensions *)

Lemma run_awaiting_reply request m :
  run (awaiting_reply request) m = (m, awaiting_fetch request).
Proof. by destruct m. Qed.

Lemma launched_awaiting_reply request w :
  launched (awaiting_reply request) w = [chat_init request].
Proof. unfold launched. by rewrite run_awaiting_reply. Qed.

(** After the fetch has settled the task waits for the body of a
    successful response, or it is over. *)
Lemma fetch_settled request o p m :
  resume (awaiting_fetch request) (FetchSettled o) = Some p →
  (∃ response, o = Fulfilled response ∧ ok response = true ∧
     run p m = (m, awaiting_json response)) ∨
  is_done (run p m).2 = true.
Proof.
  intros [= <-]. destruct m as [st log], o as [[[] status body]|e]; [left|right..];
    [by eexists|done..].
Qed.

Lemma json_settled response p m :
  resume (awaiting_json response) JsonSettled = Some p → ok response = true →
  is_done (run p m).2 = true.
Proof.
  destruct response as [[] status body]; [|done]. intros [= <-] _.
  destruct m as [st log], body as [data|e]; simpl; [|done].
  by destruct (get_prop data "response").
Qed.

(** ** The suspended tasks of a reachable world *)

Lemma awaiting_json_not_done response :
  ok response = true → is_done (awaiting_json response) = false.
Proof. by destruct response as [[] status body]. Qed.

(** A step keeps the shape of the suspended tasks, and a settling
    promise sends nothing. *)
Lemma step_shape w ev w' :
  Forall pending_shape (pending w) → step w ev = Some w' →
  Forall pending_shape (pending w') ∧
  (∀ i r, ev = Settle i r → issued w ev = []).
Proof.
  intros Hp. destruct ev as [content| |e|i r]; simpl.
  - intros [= <-]. split; [|done]. rewrite call_addMessage, after_turn_pending.
    rewrite run_awaiting_reply. apply Forall_app. split; [done|].
    apply Forall_singleton. left. by eexists.
  - intros [= <-]. by rewrite call_clearMessages.
  - intros [= <-]. by rewrite call_setError.
  - unfold settle. destruct (pending w !! i) as [s|] eqn:Hs; [|done].
    cbn [mbind option_bind]. destruct (resume s r) as [p|] eqn:Hr; [|done].
    intros [= <-]. rewrite after_turn_pending.
    assert (is_done (run p (machine w)).2 = true ∨
            ∃ response, ok response = true ∧
              run p (machine w) = (machine w, awaiting_json response)) as Hrun.
    { destruct (Forall_lookup_1 _ _ _ _ Hp Hs) as [[request ->]|(resp & Hok & ->)].
      - destruct r as [o|]; [|done].
        destruct (fetch_settled request o p (machine w) Hr)
          as [(resp & _ & Hok & Hrun)|Hd]; eauto.
      - destruct r as [o|]; [by destruct resp as [[] ? ?]|].
        left. by eapply json_settled. }
    destruct Hrun as [Hd|(resp & Hok & Hrun)].
    + rewrite Hd. split; [by apply Forall_delete|]. intros ? ? _.
      by apply launched_done.
    + rewrite Hrun. cbn [snd]. rewrite awaiting_json_not_done by done.
      split; [apply Forall_insert; [done|right; eauto]|]. intros ? ? _.
      unfold launched. rewrite Hrun. by destruct resp as [[] ? ?].
Qed.

Lemma reachable_shape w : reachable w → Forall pending_shape (pending w).
Proof.
  induction 1 as [|w ev w' _ IH HS%Step_step]; [constructor|].
  by destruct (step_shape w ev w' IH HS).
Qed.

(** ** What a step of the application sends *)

Lemma call_addMessage_state content w :
  state (call (addMessage content) w) = submitted content (state w) ∧
  launched (addMessage content) w =
    [chat_init (SYSTEM_MESSAGE :: messages (submitted content (state w)))].
Proof.
  unfold call, after_turn, launched. by rewrite run_addMessage, run_awaiting_reply.
Qed.

(** The handler of a send: nothing, or one request with the
    conversation as it is once the message is stored. *)
Lemma handleSend_issued u :
  let effects := InputArea.handleSend (props u) (draft u) in
  (handle_issued u effects = [] ∧ world (handle u effects) = world u) ∨
  (handle_issued u effects =
     [chat_init (SYSTEM_MESSAGE :: messages (state (world (handle u effects))))] ∧
   trim (draft u) ≠ "" ∧
   messages (state (world (handle u effects))) =
     messages (state (world u)) ++ [mkMessage user (JStr (trim (draft u)))]).
Proof.
  destruct (InputArea.handleSend_cases (props u) (draft u))
    as [(-> & Ht & _)|[-> _]]; [right|by left].
  destruct (call_addMessage_state (trim (draft u)) (world u)) as [Hst Hl].
  cbn [handle_issued handle foldl perform world InputArea.onSendMessage props
       ChatInterface.render ChatInterface.input].
  rewrite Hl, Hst. by rewrite app_nil_r.
Qed.

Lemma handle_prevent u effects :
  handle u (InputArea.PreventDefault :: effects) = handle u effects ∧
  handle_issued u (InputArea.PreventDefault :: effects) = handle_issued u effects.
Proof. done. Qed.

Lemma settle_prefix w i r w' :
  world_ok w → step w (Settle i r) = Some w' →
  messages (state w) `prefix_of` messages (state w').
Proof.
  intros Hok HS%Step_step. destruct (Step_Effect _ _ _ Hok HS) as [HE _].
  inversion HE as [| | | |? ? _ Hw _|? ? s' _ -> _]; [|done].
  destruct (resolve_write_inv _ _ Hw) as [_ [(reply & -> & _)|(e & -> & _)]];
    [by apply prefix_app_r|done].
Qed.

Lemma settle_said w i r w' :
  world_ok w → step w (Settle i r) = Some w' →
  said user (messages (state w')) = said user (messages (state w)).
Proof.
  intros Hok HS%Step_step. destruct (Step_Effect _ _ _ Hok HS) as [HE _].
  inversion HE as [| | | |? ? _ Hw _|? ? s' _ -> _]; [|done].
  destruct (resolve_write_inv _ _ Hw) as [_ [(reply & -> & _)|(e & -> & _)]];
    [|done]. rewrite said_snoc. simpl. lia.
Qed.

(** A step sends nothing and stores no message of the user, or it
    stores one and sends the conversation with it. *)
Lemma ui_step_issued u ev u' :
  ui_reachable u → ui_step u ev = Some u' →
  (ui_issued u ev = [] ∧
   messages (state (world u)) `prefix_of` messages (state (world u')) ∧
   said user (messages (state (world u'))) = said user (messages (state (world u)))) ∨
  (ui_issued u ev = [chat_init (SYSTEM_MESSAGE :: messages (state (world u')))] ∧
   trim (draft u) ≠ "" ∧
   messages (state (world u')) =
     messages (state (world u)) ++ [mkMessage user (JStr (trim (draft u)))]).
Proof.
  intros Hu. destruct ev as [value|e| |i r]; simpl.
  - intros [= <-]. by left.
  - intros [= <-].
    destruct (InputArea.handleKeyPress_cases (props u) (draft u) e)
      as [(-> & _)|[-> _]]; [|by left].
    destruct (handle_prevent u (InputArea.handleSend (props u) (draft u))) as [-> ->].
    destruct (handleSend_issued u) as [[-> ->]|(-> & ? & ->)]; [by left|by right].
  - intros [= <-].
    destruct (handleSend_issued u) as [[-> ->]|(-> & ? & ->)]; [by left|by right].
  - destruct (settle i r (world u)) as [w'|] eqn:HS; [|done]. intros [= <-]. left.
    pose proof (ui_reachable_world u Hu) as Hw. split_and!.
    + by eapply (step_shape _ (Settle i r)); [apply reachable_shape|exact HS|].
    + eapply settle_prefix; [|exact HS]. by apply reachable_ok.
    + eapply settle_said; [|exact HS]. by apply reachable_ok.
Qed.

(** ** Chains of requests *)

Lemma chain_prefix low rs high : chain low rs high → low `prefix_of` high.
Proof.
  revert low. induction rs as [|r rs IH]; intros low; simpl; [done|].
  intros (ms & _ & Hlow & _ & _ & Hms%IH). by etrans.
Qed.

Lemma chain_weaken low low' rs high :
  low' `prefix_of` low → chain low rs high → chain low' rs high.
Proof.
  intros Hlow. destruct rs as [|r rs]; simpl; [by etrans|].
  intros (ms & -> & Hms & Hlen & Hu & Hc). exists ms. split_and!; try done.
  - by etrans.
  - apply prefix_length in Hlow. lia.
Qed.

Lemma chain_lookup low rs high k r :
  chain low rs high → rs !! k = Some r →
  ∃ ms, r = chat_init (SYSTEM_MESSAGE :: ms) ∧
    low `prefix_of` ms ∧ ms `prefix_of` high ∧ ends_with_user ms ∧
    length low + k < length ms.
Proof.
  revert low k. induction rs as [|r0 rs IH]; intros low k; [done|].
  intros (ms & -> & Hlow & Hlen & Hu & Hc). destruct k as [|k]; simpl.
  - intros [= <-]. exists ms. split_and!; try done; [by eapply chain_prefix|lia].
  - intros Hk. destruct (IH ms k Hc Hk) as (ms' & -> & Hms & Hhigh & Hu' & Hlen').
    exists ms'. split_and!; try done; [by etrans|lia].
Qed.

Lemma chain_consecutive low rs high k r r' :
  chain low rs high → rs !! k = Some r → rs !! S k = Some r' →
  carried r `prefix_of` carried r' ∧ length (carried r) < length (carried r').
Proof.
  revert low k. induction rs as [|r0 rs IH]; intros low k; [done|].
  intros (ms & -> & _ & _ & _ & Hc). destruct k as [|k]; simpl; [|by apply (IH ms)].
  intros [= <-] Hr'. destruct (chain_lookup ms rs high 0 r' Hc Hr')
    as (ms' & -> & Hms & _ & _ & Hlen).
  split; [by apply prefix_cons|simpl; lia].
Qed.

(** The requests of a run of the application form a chain from the
    conversation it starts with to the one it ends with. *)
Lemma requests_chain u evs u' :
  ui_reachable u → ui_exec u evs = Some u' →
  chain (messages (state (world u))) (ui_requests u evs) (messages (state (world u'))).
Proof.
  revert u. induction evs as [|ev evs IH]; intros u Hu; simpl.
  { by intros [= <-]. }
  destruct (ui_step u ev) as [u1|] eqn:Hstep; [|done]. cbn [mbind option_bind].
  intros Hex. specialize (IH u1 (ui_reachable_step _ _ _ Hu Hstep) Hex).
  destruct (ui_step_issued u ev u1 Hu Hstep) as [(-> & Hp & _)|(-> & Ht & Hm)]; simpl.
  - by eapply chain_weaken.
  - exists (messages (state (world u1))). rewrite Hm in *.
    split_and!; [done|by apply prefix_app_r|rewrite length_app; simpl; lia| |done].
    eexists. by rewrite last_snoc.
Qed.

(** One request for each message of the user. *)
Lemma requests_count u evs u' :
  ui_reachable u → ui_exec u evs = Some u' →
  said user (messages (state (world u'))) =
  said user (messages (state (world u))) + length (ui_requests u evs).
Proof.
  revert u. induction evs as [|ev evs IH]; intros u Hu; simpl.
  { intros [= <-]. lia. }
  destruct (ui_step u ev) as [u1|] eqn:Hstep; [|done]. cbn [mbind option_bind].
  intros Hex. rewrite (IH u1 (ui_reachable_step _ _ _ Hu Hstep) Hex), length_app.
  destruct (ui_step_issued u ev u1 Hu Hstep) as [(-> & _ & ->)|(-> & _ & ->)];
    [simpl; lia|]. rewrite said_snoc. simpl. lia.
Qed.

(** ** The theorem *)

(** C12 (session): in a session of the application every request
    carries the system message followed by a conversation that ends
    with a message of the user and is still the beginning of the
    conversation on display; each request repeats the one before it
    and adds to it, so the request number [k] carries more than [k + 1]
    messages; and there are as many requests as stored messages of the
    user: every question is sent once, and none again. *)
Theorem session_requests evs u :
  ui_exec initial_ui evs = Some u →
  let rs := ui_requests initial_ui evs in
  (∀ k r, rs !! k = Some r →
     ∃ ms, r = chat_init (SYSTEM_MESSAGE :: ms) ∧ ends_with_user ms ∧
       ms `prefix_of` messages (state (world u)) ∧ k + 1 < length (carried r)) ∧
  (∀ k r r', rs !! k = Some r → rs !! S k = Some r' →
     carried r `prefix_of` carried r' ∧ length (carried r) < length (carried r')) ∧
  length rs = said user (messages (state (world u))).
Proof.
  intros Hex. pose proof (requests_chain initial_ui evs u ui_reachable_init Hex) as Hc.
  split_and!.
  - intros k r Hr. destruct (chain_lookup _ _ _ k r Hc Hr) as (ms & -> & _ & ? & ? & ?).
    exists ms. split_and!; try done. simpl in *. lia.
  - intros k r r'. by apply (chain_consecutive _ _ _ k r r' Hc).
  - by rewrite (requests_count initial_ui evs u ui_reachable_init Hex).
Qed.

(** ** Witness *)

Lemma session_requests_witness :
  ui_requests initial_ui two_questions =
    [chat_init [SYSTEM_MESSAGE; mkMessage user (JStr "hi")];
     chat_init [SYSTEM_MESSAGE; mkMessage user (JStr "hi");
       mkMessage assistant (JStr "Hello!"); mkMessage user (JStr "and you?")]] ∧
  ∃ u, ui_exec initial_ui two_questions = Some u ∧
    length (ui_requests initial_ui two_questions) =
      said user (messages (state (world u))).
Proof.
  split; [reflexivity|]. eexists. split; [reflexivity|].
  exact (proj2 (proj2 (session_requests two_questions _ eq_refl))).
Defined.
