(* ===== verification/Dialogue.v ===== *)
(** * A whole dialogue, from the keyboard to the server and back

    The components composed: the user types a question and clicks
    (InputArea.tsx), the store appends it and calls the client
    (chatStore.ts), the client sends the request and reads the answer
    (api/chat.ts), and the network settles the two promises with what
    a server decides.  [turn] is one such round and [converse] a list
    of them.

    - [dialogue_refines_reference]: for every server, the dialogue
      ends in the state that the reference of one exchange
      ([Store.settled] on [Transport.exchange_result]) gives when it
      is folded over the questions; a failed exchange does not stop
      the dialogue.
    - [network_settles]: from every reachable state the answers of
      the network bring the application back to a state with no
      request in flight.
    - [dialogue_over_the_wire]: with the backend behind the two JSON
      texts ([Reply.wire_server]) and answering every request in the
      success range with a string, the conversation is the questions
      and the answers the backend gives to the object of each request,
      in turn. *)

From stdpp Require Import strings.
From S2P Require Import Prelude JsString JsValue Json Message Task ChatApi Transport.
From S2P Require Import Store World Wire Exchange Reply Input View Ui.

(** ** Definitions *)

(** A settle event as an event of the application. *)
Definition promise (ev : Event) : option UiEvent :=
  match ev with
  | Settle i r => Some (Promise i r)
  | _ => None
  end.

(** The events with which the network, answering as [server] does,
    settles the promises of the request in flight. *)
Definition network (server : Server) (u : Ui) : list UiEvent :=
  omap promise (settling (chat_awaits (St:=ChatState)) 0 server (world u)).

(** One round: the user types [q] and clicks, the network answers. *)
Definition turn (server : Server) (q : string) (u : Ui) : option Ui :=
  u' ← ui_exec u [Change q; Click];
  ui_exec u' (network server u').

Fixpoint converse (server : Server) (qs : list string) (u : Ui) : option Ui :=
  match qs with
  | [] => Some u
  | q :: qs => turn server q u ≫= converse server qs
  end.

(** *** The reference *)

(** The store and the console after the exchange of a submission. *)
Definition exchanged (server : Server) (content : string)
    (m : Machine ChatState) : Machine ChatState :=
  let o := answer server content (store m) in
  mkMachine (settled (exchange_result o) (submitted content (store m)))
    (console m ++ exchange_log o).

(** The application after a round: a blank question stays in the
    textarea and nothing is sent. *)
Definition reference_turn (server : Server) (u : Ui) (q : string) : Ui :=
  if decide (trim q = "") then mkUi q (world u)
  else mkUi "" (mkWorld (exchanged server (trim q) (machine (world u)))
                  [] (unhandled (world u))).

(** No request in flight. *)
Definition idle (u : Ui) : Prop :=
  pending (world u) = [] ∧ isLoading (state (world u)) = false.

(** *** Backends *)

(** The bodies of the backend are JSON values, and a body sent with a
    status of the success range has a string [response]. *)
Definition obliging (backend : Backend) : Prop :=
  ∀ request, wire_value (backend request).2 = true ∧
    (ok_status (backend request).1 = true →
     ∃ a, get_prop (backend request).2 "response" = Fulfilled (JStr a)).

(** What the backend answers to the conversation [asked]. *)
Definition answer_of (backend : Backend) (asked : list Message) : JsVal :=
  match get_prop
    (backend (request_value (init_body (chat_init (SYSTEM_MESSAGE :: asked))))).2
    "response" with
  | Fulfilled a => a
  | Rejected _ => JUndefined
  end.

(** The conversation after the questions [qs], each answered. *)
Fixpoint transcript (backend : Backend) (history : list Message) (qs : list string)
    : list Message :=
  match qs with
  | [] => history
  | q :: qs =>
      let asked := history ++ [mkMessage user (JStr (trim q))] in
      transcript backend (asked ++ [mkMessage assistant (answer_of backend asked)]) qs
  end.

(** A backend that answers every conversation with its length. *)
Definition counting : Backend := λ request,
  match get_prop request "messages" with
  | Fulfilled (JArr ms) =>
      (200%N, JObj [("response", JStr (number_to_string (N.of_nat (length ms))))])
  | _ => (200%N, JObj [("response", JStr "?")])
  end.

(** ** One round *)

Lemma finish_exchanged server content m :
  finish 2 server (addMessage content) m =
  (exchanged server content m, Done (Fulfilled tt)).
Proof. by rewrite finish_transmitted, finish_awaiting_reply. Qed.

Lemma exchanged_idle server content m :
  isLoading (store (exchanged server content m)) = false.
Proof.
  unfold exchanged, settled. cbn [store].
  by destruct (exchange_result _ ≫= _).
Qed.

(** What typing and clicking does to an idle application. *)
Lemma ask q u :
  isLoading (state (world u)) = false →
  ui_exec u [Change q; Click] =
  Some (if decide (trim q = "") then mkUi q (world u)
        else mkUi "" (call (addMessage (trim q)) (world u))).
Proof.
  intros Hidle. cbn [ui_exec ui_step mbind option_bind].
  change (handle u (InputArea.handleChange q)) with (mkUi q (world u)).
  destruct (handle_handleSend (mkUi q (world u))) as [(-> & Ht & _)|[-> [Ht|Hl]]];
    cbn [draft world] in *.
  - by rewrite decide_False.
  - by rewrite decide_True.
  - congruence.
Qed.

(** Settle events only touch the store's world. *)
Lemma settling_promise n i server w ev :
  ev ∈ settling n i server w → ∃ r, ev = Settle i r.
Proof.
  revert w. induction n as [|n IH]; intros w; [by intros ?%elem_of_nil|].
  destruct (pending w !! i) as [s|] eqn:Hs; [|simpl; rewrite Hs; by intros ?%elem_of_nil].
  destruct (step w (Settle i (reply_of server s))) as [w'|] eqn:Hstep.
  - rewrite (settling_S _ _ _ _ _ _ Hs Hstep). intros [->|Hev]%elem_of_cons; [by eexists|].
    case_decide; [by eapply IH|by apply elem_of_nil in Hev].
  - simpl in *. rewrite Hs. simpl in *. rewrite Hstep. by intros ?%elem_of_nil.
Qed.

Lemma ui_exec_promises d evs w :
  (∀ ev, ev ∈ evs → ∃ i r, ev = Settle i r) →
  ui_exec (mkUi d w) (omap promise evs) = mkUi d <$> exec w evs.
Proof.
  revert w. induction evs as [|ev evs IH]; intros w Hevs; [done|].
  destruct (Hevs ev) as (i & r & ->); [left|]. cbn.
  destruct (settle i r w) as [w'|]; [|done]. cbn.
  apply IH. intros ev Hev. apply Hevs. by right.
Qed.

Lemma ui_exec_network server d w :
  ui_exec (mkUi d w) (network server (mkUi d w)) =
  mkUi d <$> exec w (settling (chat_awaits (St:=ChatState)) 0 server w).
Proof.
  apply ui_exec_promises. intros ev [r ->]%settling_promise. by eexists _, _.
Qed.

(** A round of an idle application is the reference's. *)
Lemma turn_reference server q u :
  idle u → turn server q u = Some (reference_turn server u q).
Proof.
  destruct u as [d [m ps un]]. intros [Hp Hidle]. simpl in Hp. subst ps.
  unfold turn, reference_turn. rewrite ask by done. cbn [mbind option_bind world].
  case_decide; [done|]. rewrite ui_exec_network.
  change 0 with (length (pending (mkWorld m [] un))) at 1.
  rewrite call_settling_finish by (by rewrite finish_exchanged).
  by rewrite finish_exchanged.
Qed.

Lemma reference_turn_idle server q u : idle u → idle (reference_turn server u q).
Proof.
  intros [Hp Hidle]. unfold reference_turn. case_decide; [done|].
  split; [done|]. apply exchanged_idle.
Qed.

Lemma foldl_reference_idle server qs u :
  idle u → idle (foldl (reference_turn server) u qs).
Proof.
  revert u. induction qs as [|q qs IH]; intros u Hu; [done|].
  by apply IH, reference_turn_idle.
Qed.

Lemma converse_reference server qs u :
  idle u → converse server qs u = Some (foldl (reference_turn server) u qs).
Proof.
  revert u. induction qs as [|q qs IH]; intros u Hu; [done|].
  cbn [converse foldl]. rewrite turn_reference by done. cbn [mbind option_bind].
  by apply IH, reference_turn_idle.
Qed.

(** ** From any state of the application

    Whatever the application has been through, if a request is in
    flight the answers of the network end it, and the application is
    idle again: a dialogue can go on from every reachable state. *)
Lemma network_settles server u :
  ui_reachable u →
  ∃ u', ui_exec u (network server u) = Some u' ∧ idle u' ∧ draft u' = draft u ∧
    length (network server u) ≤ chat_awaits (St:=ChatState) ∧
    (if decide (pending (world u) = []) then u' = u
     else resolve_write (state (world u)) (state (world u'))).
Proof.
  intros Hu. destruct (ui_reachable_ok u Hu) as (Hok & [[Hp Hl]|(s & Hp & Hl)] & _);
    destruct u as [d w]; rewrite ui_exec_network; unfold network;
    cbn [world draft] in *.
  - exists (mkUi d w). rewrite decide_True by done. simpl. rewrite Hp. simpl.
    repeat split; try done. lia.
  - destruct (Forall_lookup_1 _ _ 0 s (proj2 Hok)) as [Hpos Hsus]; [by rewrite Hp|].
    destruct (settling_completes server 1 w 0 s Hok)
      as (w' & Hex & Hp' & Hw & Hlen); [by rewrite Hp|done|].
    exists (mkUi d w'). change (chat_awaits (St:=ChatState)) with 2.
    rewrite Hex, decide_False by (by rewrite Hp). repeat split; cbn [world].
    + by rewrite Hp', Hp.
    + by destruct (resolve_write_inv _ _ Hw).
    + etrans; [apply length_omap_le|done].
    + done.
Qed.

(** ** The two texts between the application and the backend *)

Section wire.
Context {engine : Engine}.

Lemma typed_transmitted content st :
  well_typed st → Forall (λ m, Message_typed m = true) (transmitted content st).
Proof.
  intros Hst. constructor; [done|]. apply Forall_app. split; [done|]. by constructor.
Qed.

(** From a typed store the round behind the wire is the round on
    values. *)
Lemma reference_turn_wire backend q u :
  obliging backend → well_typed (state (world u)) →
  reference_turn (wire_server backend) u q = reference_turn (value_server backend) u q.
Proof.
  intros Hb Hst. unfold reference_turn, exchanged, answer.
  by rewrite wire_server_value by (by apply typed_transmitted || apply Hb).
Qed.

(** What the round on values stores: the answer, or the failure of the
    status. *)
Lemma exchanged_value backend content m :
  let asked := messages (store m) ++ [mkMessage user (JStr content)] in
  let reply := backend (request_value (init_body (chat_init (SYSTEM_MESSAGE :: asked)))) in
  exchanged (value_server backend) content m =
  if ok_status reply.1
  then mkMachine
         (settled (Fulfilled reply.2) (submitted content (store m))) (console m)
  else mkMachine
         (failed (http_error reply.1) (submitted content (store m)))
         (console m ++ [mkConsoleEntry send_error_label (http_error reply.1)]).
Proof.
  unfold exchanged, answer, value_server, exchange_log, exchange_result, transmitted.
  cbn [ok body_json status]. destruct (ok_status _); [|done]. by rewrite app_nil_r.
Qed.

Lemma reference_turn_typed backend q u :
  obliging backend → well_typed (state (world u)) →
  well_typed (state (world (reference_turn (value_server backend) u q))).
Proof.
  destruct u as [d [[st log] ps un]]. intros Hb Hst.
  unfold reference_turn. case_decide; [done|].
  cbn [world state machine store] in *. rewrite exchanged_value.
  cbn [store console]. destruct (Hb (request_value (init_body (chat_init
    (SYSTEM_MESSAGE :: messages st ++ [mkMessage user (JStr (trim q))])))))
    as [_ Hok].
  destruct (ok_status _).
  - destruct Hok as [a Ha]; [done|]. unfold settled. cbn [mbind outcome_bind store].
    rewrite Ha. unfold well_typed. simpl.
    rewrite !Forall_app. by repeat split; [|constructor..].
  - unfold well_typed. simpl. rewrite Forall_app. by split; [|constructor].
Qed.

Lemma foldl_reference_wire backend qs u :
  obliging backend → well_typed (state (world u)) →
  foldl (reference_turn (wire_server backend)) u qs =
  foldl (reference_turn (value_server backend)) u qs.
Proof.
  intros Hb. revert u. induction qs as [|q qs IH]; intros u Hu; [done|].
  cbn [foldl]. rewrite reference_turn_wire by done.
  by apply IH, reference_turn_typed.
Qed.

(** When every answer is in the success range the rounds on values
    build the transcript and leave the console alone. *)
Lemma foldl_reference_transcript backend qs d st log un :
  obliging backend → (∀ request, ok_status (backend request).1 = true) →
  Forall (λ q, trim q ≠ "") qs → isLoading st = false → error st = None →
  world (foldl (reference_turn (value_server backend))
    (mkUi d (mkWorld (mkMachine st log) [] un)) qs) =
  mkWorld (mkMachine (mkChatState (transcript backend (messages st) qs) false None) log)
    [] un.
Proof.
  intros Hb Hok Hqs. revert d st. induction Hqs as [|q qs Hq _ IH];
    intros d [ms l e] Hl He; simpl in Hl, He; subst; [done|].
  cbn [foldl transcript]. unfold reference_turn at 2. rewrite decide_False by done.
  cbn [world machine unhandled]. rewrite exchanged_value. cbn zeta. rewrite Hok.
  unfold settled, answer_of. cbn [mbind outcome_bind store messages].
  destruct (Hb (request_value (init_body (chat_init
    (SYSTEM_MESSAGE :: ms ++ [mkMessage user (JStr (trim q))]))))) as [_ [a Ha]];
    [apply Hok|]. rewrite Ha. by rewrite IH.
Qed.

End wire.

(** ** Properties *)

(** C6 (dialogue): for every server, a dialogue with the application
    from a state with no request in flight, each question typed and
    sent with a click and each request settled by the server before
    the next question, ends in the state the reference gives: the
    store and the console of [exchanged] for each question that is not
    blank, with no request left in flight and no rejection unhandled;
    a blank question stays in the textarea. *)
Theorem dialogue_refines_reference server qs u :
  idle u →
  converse server qs u = Some (foldl (reference_turn server) u qs) ∧
  idle (foldl (reference_turn server) u qs) ∧
  unhandled (world (foldl (reference_turn server) u qs)) = unhandled (world u).
Proof.
  intros Hu. split; [by apply converse_reference|].
  split; [by apply foldl_reference_idle|].
  revert u Hu. induction qs as [|q qs IH]; intros u Hu; [done|].
  cbn [foldl]. rewrite IH by (by apply reference_turn_idle).
  unfold reference_turn. by case_decide.
Qed.

(** C16 (dialogue over the wire): with the backend behind the two JSON
    texts, answering every request in the success range with a body
    that is a JSON value with a string [response], a dialogue of
    questions that are not blank ends with the questions, trimmed, each
    followed by the answer the backend gives to the object of the
    request that carries the system message and the conversation so
    far; the loading flag is down, no error is set, nothing is logged
    and no request is in flight. *)
Theorem dialogue_over_the_wire `{Engine} backend qs :
  obliging backend → (∀ request, ok_status (backend request).1 = true) →
  Forall (λ q, trim q ≠ "") qs →
  ∃ u, converse (wire_server backend) qs initial_ui = Some u ∧
    world u =
    mkWorld (mkMachine (mkChatState (transcript backend [] qs) false None) []) [] [].
Proof.
  intros Hb Hok Hqs. eexists. split; [by apply converse_reference|].
  rewrite foldl_reference_wire by (done || constructor).
  by apply (foldl_reference_transcript backend qs "" initial_state).
Qed.

(** ** Witnesses *)

Lemma counting_obliging : obliging counting.
Proof.
  intros request. unfold counting.
  destruct (get_prop request "messages") as [[]|]; split; try done; by eexists.
Qed.

Lemma counting_ok request : ok_status (counting request).1 = true.
Proof. unfold counting. by destruct (get_prop request "messages") as [[]|]. Qed.

Lemma dialogue_refines_reference_witness :
  converse (replying "Hello!") [" hi "; "  "] initial_ui =
    Some (mkUi "  " (mkWorld (mkMachine (mkChatState
      [mkMessage user (JStr "hi"); mkMessage assistant (JStr "Hello!")] false None)
      []) [] [])).
Proof.
  exact (proj1 (dialogue_refines_reference (replying "Hello!") [" hi "; "  "]
    initial_ui (conj eq_refl eq_refl))).
Defined.

Lemma dialogue_over_the_wire_witness :
  ∃ u, converse (wire_server (engine:=some_engine) counting) ["one"; " two "] initial_ui =
    Some u ∧
    messages (state (world u)) =
    [mkMessage user (JStr "one"); mkMessage assistant (JStr "2");
     mkMessage user (JStr "two"); mkMessage assistant (JStr "4")].
Proof.
  destruct (dialogue_over_the_wire (H:=some_engine) counting ["one"; " two "]
    counting_obliging counting_ok) as (u & Hu & Hw).
  { by repeat constructor. }
  exists u. split; [done|]. by rewrite Hw.
Defined.
