(* ===== verification/Screen.v ===== *)
(** * What is on the screen (ChatInterface.tsx with its InputArea)

    The page shows one [ChatInterface], and inside it one [InputArea]
    rendered with the props of line 77 and its own draft.  [screen] is
    the two element trees of a state of the application.  The
    components compute them from the store alone; the theorems here
    say what they tell the user about the application behind them.

    - [screen_reflects_application]: in every reachable state the
      textarea is disabled and [Thinking...] is shown exactly while a
      request is in flight, no alert is shown beside it, the button is
      enabled exactly when a click sends a request, and an event on a
      disabled control, were it delivered, would send nothing and
      leave the store alone.
    - [application_recovers]: from every reachable state, whatever
      the server answers, the promises of the request in flight
      settle in at most two events, after which the controls are
      enabled again and the draft is as the user left it.
    - [dialogue_on_screen]: after a dialogue with an obliging backend
      the log is the transcript, one bubble a message, and the input
      is empty and ready. *)

From stdpp Require Import strings.
From S2P Require Import Prelude JsString JsValue Json Message Task ChatApi Transport.
From S2P Require Import Store World Wire Exchange Reply Input View Ui Session Dialogue.

(** ** Definitions *)

Record Screen : Type := mkScreen {
  chat : ChatInterface.View;
  input_area : InputArea.InputAreaView;
}.

(** The render of [ChatInterface] from the store, and of its
    [InputArea] from the props it is handed and the draft it holds. *)
Definition screen (u : Ui) : Screen := {|
  chat := ChatInterface.render (state (world u));
  input_area := InputArea.render (props u) (draft u);
|}.

Definition textarea_disabled (s : Screen) : bool :=
  InputArea.ta_disabled (InputArea.textarea (input_area s)).

Definition button_disabled (s : Screen) : bool :=
  InputArea.btn_disabled (InputArea.button (input_area s)).

(** A browser dispatches no event of a disabled control. *)
Definition delivered (s : Screen) (ev : UiEvent) : bool :=
  match ev with
  | Change _ | KeyDown _ => negb (textarea_disabled s)
  | Click => negb (button_disabled s)
  | Promise _ _ => true
  end.

(** The label the log gives a message. *)
Definition labelled (m : Message) : Message * string :=
  (m, role_name (role m) +:+ " message").

(** ** The screen of a reachable state *)

Lemma textarea_disabled_loading u :
  textarea_disabled (screen u) = isLoading (state (world u)).
Proof. done. Qed.

Lemma button_enabled u :
  button_disabled (screen u) = false ↔
  trim (draft u) ≠ "" ∧ isLoading (state (world u)) = false.
Proof. apply InputArea.render_button_enabled. Qed.

(** The loading flag says whether a request is in flight. *)
Lemma loading_in_flight u :
  ui_reachable u → isLoading (state (world u)) = true ↔ pending (world u) ≠ [].
Proof.
  intros (_ & [[-> ->]|(s & -> & ->)] & _)%ui_reachable_ok; by split.
Qed.

(** A click: the request it sends, and whether it is one. *)
Lemma click_issued u :
  ui_issued u Click ≠ [] ↔ trim (draft u) ≠ "" ∧ isLoading (state (world u)) = false.
Proof.
  cbn [ui_issued].
  destruct (InputArea.handleSend_cases (props u) (draft u))
    as [(Heq & Ht & Hl)|[Heq Hb]]; rewrite Heq.
  - destruct (call_addMessage_state (trim (draft u)) (world u)) as [_ Hsent].
    cbn [handle_issued InputArea.onSendMessage props ChatInterface.render
         ChatInterface.input]. rewrite Hsent. by split.
  - split; [done|]. intros [? ?]. destruct Hb; simpl in *; congruence.
Qed.

(** What a handler does behind a disabled control. *)
Lemma undelivered_inert u ev :
  delivered (screen u) ev = false →
  ∃ u', ui_step u ev = Some u' ∧ world u' = world u ∧ ui_issued u ev = [] ∧
    (draft u' = draft u ∨ ∃ value, ev = Change value).
Proof.
  destruct ev as [value|e| |i r]; cbn [delivered]; [| | |done].
  - intros _. eexists. split; [done|]. split; [done|]. split; [done|]. eauto.
  - intros Hl%negb_false_iff. rewrite textarea_disabled_loading in Hl.
    eexists. split; [done|]. cbn [ui_issued].
    destruct (InputArea.handleKeyPress_cases (props u) (draft u) e)
      as [(-> & _)|[-> _]]; [|by auto].
    destruct (InputArea.handleSend_cases (props u) (draft u))
      as [(_ & _ & Hl')|[-> _]]; [simpl in Hl'; congruence|by auto].
  - intros Hb%negb_false_iff. eexists. split; [done|]. cbn [ui_issued].
    destruct (InputArea.handleSend_cases (props u) (draft u))
      as [(_ & Ht & Hl)|[-> _]]; [|by auto].
    assert (button_disabled (screen u) = false) by (by apply button_enabled).
    congruence.
Qed.

(** ** The draft through a dialogue *)

Lemma reference_turn_draft server u q :
  trim q ≠ "" → draft (reference_turn server u q) = "".
Proof. intros Hq. unfold reference_turn. by rewrite decide_False. Qed.

Lemma foldl_reference_draft server qs u :
  Forall (λ q, trim q ≠ "") qs → draft u = "" →
  draft (foldl (reference_turn server) u qs) = "".
Proof.
  intros Hqs. revert u. induction Hqs as [|q qs Hq _ IH]; intros u Hu; [done|].
  by apply IH, reference_turn_draft.
Qed.

(** ** Properties *)

(** C21 (screen): in every reachable state of the application the
    textarea is disabled exactly while a request is in flight, and
    then the log shows [Thinking...] and no alert; the button is
    enabled exactly when a click sends a request; and an event on a
    disabled control, if the browser did deliver it, would send
    nothing and leave the store as it is, the draft too unless the
    event is a change of the text. *)
Theorem screen_reflects_application u ev :
  ui_reachable u →
  (textarea_disabled (screen u) = true ↔ pending (world u) ≠ []) ∧
  (ChatInterface.statuses (ChatInterface.log (chat (screen u))) =
     if decide (pending (world u) = []) then [] else ["Thinking..."]) ∧
  (pending (world u) ≠ [] →
     ChatInterface.alerts (ChatInterface.log (chat (screen u))) = []) ∧
  (button_disabled (screen u) = false ↔ ui_issued u Click ≠ []) ∧
  (delivered (screen u) ev = false →
     ∃ u', ui_step u ev = Some u' ∧ world u' = world u ∧ ui_issued u ev = [] ∧
       (draft u' = draft u ∨ ∃ value, ev = Change value)).
Proof.
  intros Hu. pose proof (loading_in_flight u Hu) as Hflight.
  destruct (ui_reachable_ok u Hu) as (_ & _ & _ & _ & Hloading).
  split_and!.
  - by rewrite textarea_disabled_loading.
  - cbn [screen chat ChatInterface.render ChatInterface.log].
    rewrite ChatInterface.statuses_log.
    destruct (isLoading (state (world u))); case_decide as Hp; try done.
    + by destruct (proj1 Hflight eq_refl).
    + by pose proof (proj2 Hflight Hp).
  - intros [_ He]%Hflight%Hloading.
    cbn [screen chat ChatInterface.render ChatInterface.log].
    by rewrite ChatInterface.alerts_log, He.
  - by rewrite button_enabled, click_issued.
  - apply undelivered_inert.
Qed.

(** C24 (recovery): the application does not stay blocked.  From every
    reachable state, whatever the server answers (a reply, a failure
    status, a body that cannot be read, no connection), the promises
    of the request in flight settle in at most as many events as the
    client awaits, and then no request is in flight, the textarea is
    enabled, [Thinking...] is gone, the draft is what the user left,
    and the button is enabled exactly when the draft is not blank.
    With nothing in flight there is nothing to settle; otherwise the
    store has changed by the one write that ends the submission. *)
Theorem application_recovers server u :
  ui_reachable u →
  ∃ u', ui_exec u (network server u) = Some u' ∧
    length (network server u) ≤ chat_awaits (St:=ChatState) ∧
    pending (world u') = [] ∧
    textarea_disabled (screen u') = false ∧
    ChatInterface.statuses (ChatInterface.log (chat (screen u'))) = [] ∧
    draft u' = draft u ∧
    (button_disabled (screen u') = false ↔ trim (draft u) ≠ "") ∧
    (if decide (pending (world u) = []) then u' = u
     else resolve_write (state (world u)) (state (world u'))).
Proof.
  intros Hu.
  destruct (network_settles server u Hu) as (u' & Hex & [Hp Hl] & Hd & Hlen & Hw).
  exists u'. split_and!; [done..| | |done| |done].
  - by rewrite textarea_disabled_loading.
  - cbn [screen chat ChatInterface.render ChatInterface.log].
    by rewrite ChatInterface.statuses_log, Hl.
  - rewrite button_enabled, Hd. naive_solver.
Qed.

(** After a dialogue: with the backend behind the wire answering every
    request in the success range with a string, the log holds one
    bubble a message of the transcript, labelled by its role, no
    [Thinking...] and no alert; the textarea is empty and enabled, and
    the button is disabled until the user types. *)
Theorem dialogue_on_screen `{Engine} backend qs :
  obliging backend → (∀ request, ok_status (backend request).1 = true) →
  Forall (λ q, trim q ≠ "") qs →
  ∃ u, converse (wire_server backend) qs initial_ui = Some u ∧
    ChatInterface.bubbles (ChatInterface.log (chat (screen u))) =
      labelled <$> transcript backend [] qs ∧
    ChatInterface.statuses (ChatInterface.log (chat (screen u))) = [] ∧
    ChatInterface.alerts (ChatInterface.log (chat (screen u))) = [] ∧
    input_area (screen u) =
      InputArea.render (InputArea.mkInputAreaProps addMessage false) "".
Proof.
  intros Hb Hok Hqs. eexists. split; [by apply converse_reference|].
  set (u := foldl _ _ _).
  assert (world u = mkWorld (mkMachine
    (mkChatState (transcript backend [] qs) false None) []) [] []) as Hw.
  { unfold u. rewrite foldl_reference_wire by (done || constructor).
    by apply (foldl_reference_transcript backend qs "" initial_state). }
  assert (draft u = "") as Hd by (by apply foldl_reference_draft).
  cbn [screen chat input_area ChatInterface.render ChatInterface.log props
       ChatInterface.input].
  rewrite ChatInterface.bubbles_log, ChatInterface.statuses_log,
    ChatInterface.alerts_log, Hd, Hw. done.
Qed.

(** ** Witnesses *)

Lemma screen_reflects_application_witness :
  textarea_disabled (screen sent) = true ∧
  ChatInterface.statuses (ChatInterface.log (chat (screen sent))) = ["Thinking..."] ∧
  ui_step sent Click = Some sent.
Proof.
  destruct (screen_reflects_application sent Click sent_reachable)
    as (_ & Hstatus & _ & _ & Hinert).
  split; [done|]. split; [exact Hstatus|].
  destruct (Hinert eq_refl) as (u' & Hstep & _). by rewrite Hstep.
Defined.

Lemma application_recovers_witness :
  ∃ u', ui_exec sent (network unreachable sent) = Some u' ∧
    pending (world u') = [] ∧ textarea_disabled (screen u') = false ∧
    draft u' = "".
Proof.
  destruct (application_recovers unreachable sent sent_reachable)
    as (u' & Hex & _ & Hp & Ht & _ & Hd & _).
  by exists u'.
Defined.
