(* ===== verification/Scenarios.v ===== *)
(** * Sequences of operations on the store

    The testable properties of the specification that speak of whole
    sequences: a submission always comes to its end, clearing is
    idempotent and forgets the history, and the three hazards of
    overlapping submissions that the store itself does not prevent (the
    view does, see [Ui]).  The first group holds for every client; the
    hazards are runs of the store with the real client. *)

From stdpp Require Import strings.
From S2P Require Import Prelude JsValue Message Task ChatApi Transport Store World.

(** ** Definitions *)

(** The fetch of a submission is answered with status 200. *)
Definition fetch_ok (text : string) : Reply :=
  FetchSettled
    (Fulfilled (mkResponse true 200 (Fulfilled (JObj [("response", JStr text)])))).

(** Both promises of the submission at position [i] settle, the server
    replying [text]. *)
Definition answered (i : nat) (text : string) : list Event :=
  [Settle i (fetch_ok text); Settle i JsonSettled].

Definition question (content : string) : Message := mkMessage user (JStr content).

Definition reply (text : string) : Message := mkMessage assistant (JStr text).

(** The store and the number of suspended tasks after a run. *)
Definition outcome_of (w : option World) : option (ChatState * nat) :=
  (λ w, (state w, length (pending w))) <$> w.

Section any_client.
Context `{!ChatApi ChatState}.

(** ** Termination *)

(** C10 (termination): for every client and every server, a submission
    given as many replies as the client awaits comes to its end: the
    task returns normally, the store has the user's message and then
    the one write that ends the submission, and [isLoading] is false. *)
Theorem submission_terminates server content m :
  ∃ m',
    finish chat_awaits server (addMessage content) m = (m', Done (Fulfilled tt)) ∧
    resolve_write (submitted content (store m)) (store m') ∧
    isLoading (store m') = false.
Proof.
  rewrite finish_addMessage.
  destruct (awaiting_reply_finishes server
    (SYSTEM_MESSAGE :: messages (submitted content (store m)))
    (mkMachine (submitted content (store m)) (console m))) as (m' & -> & Hw).
  exists m'. by destruct (resolve_write_inv _ _ Hw).
Qed.

(** ** Clearing *)

(** Clear twice: clearing twice in a row is clearing once, and
    clearing leaves an empty conversation and a null error without
    touching the loading flag or the requests in flight. *)
Theorem clear_twice_is_once w :
  exec w [ClearMessages; ClearMessages] = exec w [ClearMessages] ∧
  ∃ w', exec w [ClearMessages] = Some w' ∧
    messages (state w') = [] ∧ error (state w') = None ∧
    isLoading (state w') = isLoading (state w) ∧ pending w' = pending w.
Proof.
  simpl. rewrite !call_clearMessages. split; [done|].
  eexists. split; [done|]. by repeat split.
Qed.

(** Clear after a turn: a submission carried to its end and then
    cleared leaves the store in its initial state, whatever the
    conversation held before and however the exchange ended. *)
Theorem clear_after_exchange server content m :
  ∃ m',
    finish chat_awaits server (addMessage content) m = (m', Done (Fulfilled tt)) ∧
    store (run clearMessages m').1 = initial_state.
Proof.
  rewrite finish_addMessage.
  destruct (awaiting_reply_finishes server
    (SYSTEM_MESSAGE :: messages (submitted content (store m)))
    (mkMachine (submitted content (store m)) (console m))) as (m' & -> & Hw).
  exists m'. split; [done|]. rewrite run_clearMessages. simpl.
  destruct (resolve_write_inv _ _ Hw) as [Hl _]. unfold cleared. by rewrite Hl.
Qed.

(** C34 (clearing): clearing twice in a row is clearing once; clearing
    empties the conversation and nulls the error and touches neither
    the loading flag nor the requests in flight; and a submission
    carried to its end and then cleared leaves the store in its
    initial state, whatever the conversation held before and however
    the exchange ended. *)
Theorem clearing_resets server content w :
  exec w [ClearMessages; ClearMessages] = exec w [ClearMessages] ∧
  (∃ w', exec w [ClearMessages] = Some w' ∧
     messages (state w') = [] ∧ error (state w') = None ∧
     isLoading (state w') = isLoading (state w) ∧ pending w' = pending w) ∧
  (∃ m', finish chat_awaits server (addMessage content) (machine w) =
           (m', Done (Fulfilled tt)) ∧
     store (run clearMessages m').1 = initial_state).
Proof.
  split_and!; [apply clear_twice_is_once..|apply clear_after_exchange].
Qed.

End any_client.

(** ** The store does not serialise submissions *)

(** No guard in the store: [addMessage] does not look at
    [isLoading]: whatever is in flight, a call stores the user's message
    and adds one more suspended request. *)
Theorem store_accepts_overlapping_submissions w content :
  ∃ k,
    step w (AddMessage content) =
      Some (mkWorld (mkMachine (submitted content (state w)) (console (machine w)))
              (pending w ++
                 [OnFetch chat_url
                    (chat_init (SYSTEM_MESSAGE :: messages (state w) ++ [question content]))
                    k])
              (unhandled w)).
Proof. eexists. simpl. unfold call, after_turn. by rewrite run_addMessage. Qed.

(** The hazards start from any world of the store in which nothing is
    in flight. *)
Ltac from_idle w Hidle :=
  destruct w as [[[ms loading err] log] waiting rejected];
  simpl in Hidle; subst waiting;
  cbn; unfold merge; cbn; rewrite <- ?(assoc_L (++)); reflexivity.

(** C37 (out of order): two submissions in flight whose replies arrive
    in the other order: the replies are stored in the order of arrival,
    both after both questions, and [isLoading] is already false while
    the first request is still in flight. *)
Theorem overlapping_replies_out_of_order w a b ra rb :
  pending w = [] →
  outcome_of (exec w ([AddMessage a; AddMessage b] ++ answered 1 rb)) =
    Some (mkChatState (messages (state w) ++ [question a; question b; reply rb])
            false None, 1) ∧
  outcome_of (exec w ([AddMessage a; AddMessage b] ++ answered 1 rb ++ answered 0 ra)) =
    Some (mkChatState
            (messages (state w) ++ [question a; question b; reply rb; reply ra])
            false None, 0).
Proof. intros Hidle. split; from_idle w Hidle. Qed.

Lemma overlapping_replies_out_of_order_witness :
  outcome_of (exec initial_world
    ([AddMessage "one"; AddMessage "two"] ++ answered 1 "second" ++ answered 0 "first")) =
  Some (mkChatState
          [question "one"; question "two"; reply "second"; reply "first"]
          false None, 0).
Proof.
  exact (proj2 (overlapping_replies_out_of_order initial_world
    "one" "two" "first" "second" eq_refl)).
Defined.

(** C38 (stale reply): a reply that arrives after [clearMessages] is
    written into the cleared conversation, which then starts with an
    assistant message. *)
Theorem stale_reply_after_clear w a ra :
  pending w = [] →
  outcome_of (exec w ([AddMessage a; ClearMessages] ++ answered 0 ra)) =
    Some (mkChatState [reply ra] false None, 0).
Proof. intros Hidle. from_idle w Hidle. Qed.

Lemma stale_reply_after_clear_witness :
  outcome_of (exec initial_world
    ([AddMessage "What are mangroves?"; ClearMessages] ++ answered 0 "Coastal trees.")) =
  Some (mkChatState [reply "Coastal trees."] false None, 0).
Proof.
  exact (stale_reply_after_clear initial_world "What are mangroves?" "Coastal trees."
    eq_refl).
Defined.

(** C39 (error kept): the success write does not touch [error]: an
    error set while the request is in flight is still there after the
    successful resolution. *)
Theorem error_survives_success w a ra text :
  pending w = [] →
  outcome_of (exec w ([AddMessage a; SetError text] ++ answered 0 ra)) =
    Some (mkChatState (messages (state w) ++ [question a; reply ra]) false text, 0).
Proof. intros Hidle. from_idle w Hidle. Qed.

Lemma error_survives_success_witness :
  outcome_of (exec initial_world
    ([AddMessage "hi"; SetError (Some "offline")] ++ answered 0 "Hello!")) =
  Some (mkChatState [question "hi"; reply "Hello!"] false (Some "offline"), 0).
Proof.
  exact (error_survives_success initial_world "hi" "Hello!" (Some "offline") eq_refl).
Defined.
