(* ===== verification/Requirements.v ===== *)
(** * The backend's dependencies (requirements.txt)

    Of the Python service behind the endpoint the sources hold one
    file: the list of the packages it is installed from.  It has no
    behaviour; what can be said of it is what it pins.

    [requirements_txt] is the file, line by line.  A line of a file in
    this form is empty, a comment that begins with [#], or a package
    name followed by [==] and a release, the numbers of a version
    separated by dots ([Line]).  [read_line] reads a line and
    [print_line] writes it; [read_print_line] shows that every line
    reads back, and [requirements_read] that the file is the text of
    [requirements]: seventeen packages, each pinned to one release,
    none twice. *)

From Stdlib Require Import Ascii String.
From stdpp Require Import strings.
From S2P Require Import Prelude JsString Decimal.

(** ** Definitions *)

Record Requirement : Type := mkRequirement {
  package : string;
  release : list N;
}.

Inductive Line : Type :=
| Pin (r : Requirement)
| Hash (text : string)   (** a comment *)
| Blank.

(** The file (lines 1-19). *)
Definition requirements_txt : list string := [
  "fastapi==0.109.0";
  "uvicorn==0.27.0";
  "python-dotenv==1.0.0";
  "langchain==0.1.0";
  "openai==1.12.0";
  "cohere==4.45";
  "pypdf==4.0.2";
  "pydantic==2.5.2";
  "python-multipart==0.0.6";
  "tiktoken==0.5.2";
  "numpy==1.24.3";
  "tenacity==8.2.3";
  "ruff==0.1.14";
  "";
  "# Testing dependencies";
  "pytest==8.0.0";
  "pytest-asyncio==0.23.5";
  "httpx==0.26.0";
  "pytest-cov==4.1.0"
].

(** *** The form of a line *)

Definition hash : ascii := "#".
Definition equals : ascii := "=".

(** The characters of a package name: letters, digits, [-], [_], [.]. *)
Definition is_name_char (c : ascii) : bool :=
  let n := N_of_ascii c in
  ((97 <=? n) && (n <=? 122) || (65 <=? n) && (n <=? 90) ||
   (48 <=? n) && (n <=? 57) || (n =? 45) || (n =? 95) || (n =? 46))%N.

(** The longest prefix of name characters, and the rest. *)
Fixpoint span_name (input : list ascii) : list ascii * list ascii :=
  match input with
  | c :: rest =>
      if is_name_char c
      then let '(name, r) := span_name rest in (c :: name, r)
      else ([], input)
  | [] => ([], [])
  end.

Fixpoint print_release (numbers : list N) : list ascii :=
  match numbers with
  | [] => []
  | [n] => digit_char <$> natural_digits n
  | n :: rest => (digit_char <$> natural_digits n) ++ dot :: print_release rest
  end.

(** Numbers separated by dots, to the end of the line. *)
Fixpoint read_release (fuel : nat) (input : list ascii) : option (list N) :=
  match fuel with
  | 0 => None
  | S fuel =>
      '(n, rest) ← parse_int input;
      match rest with
      | [] => Some [n]
      | c :: rest =>
          if Ascii.eqb c dot then (n ::.) <$> read_release fuel rest else None
      end
  end.

Definition print_line (l : Line) : list ascii :=
  match l with
  | Pin r => chars (package r) ++ equals :: equals :: print_release (release r)
  | Hash text => hash :: chars text
  | Blank => []
  end.

Definition read_line (input : list ascii) : option Line :=
  match input with
  | [] => Some Blank
  | c :: text =>
      if Ascii.eqb c hash then Some (Hash (of_chars text))
      else
        match span_name input with
        | ((_ :: _) as name, e1 :: e2 :: version) =>
            if Ascii.eqb e1 equals && Ascii.eqb e2 equals
            then numbers ← read_release (length version) version;
                 Some (Pin (mkRequirement (of_chars name) numbers))
            else None
        | _ => None
        end
  end.

(** The lines that [print_line] writes one way only. *)
Definition line_wf (l : Line) : Prop :=
  match l with
  | Pin r =>
      package r ≠ "" ∧ Forall (λ c, is_name_char c = true) (chars (package r)) ∧
      release r ≠ []
  | _ => True
  end.

(** The same of a pin, computed. *)
Definition pin_ok (r : Requirement) : bool :=
  negb (String.eqb (package r) "") && forallb is_name_char (chars (package r)) &&
  bool_decide (release r ≠ []).

Definition read_file (lines : list string) : option (list Line) :=
  mapM (λ line, read_line (chars line)) lines.

Definition pins (lines : list Line) : list Requirement :=
  omap (λ l, match l with Pin r => Some r | _ => None end) lines.

(** *** What the file holds *)

Definition requirements : list Requirement := [
  mkRequirement "fastapi" [0; 109; 0]%N;
  mkRequirement "uvicorn" [0; 27; 0]%N;
  mkRequirement "python-dotenv" [1; 0; 0]%N;
  mkRequirement "langchain" [0; 1; 0]%N;
  mkRequirement "openai" [1; 12; 0]%N;
  mkRequirement "cohere" [4; 45]%N;
  mkRequirement "pypdf" [4; 0; 2]%N;
  mkRequirement "pydantic" [2; 5; 2]%N;
  mkRequirement "python-multipart" [0; 0; 6]%N;
  mkRequirement "tiktoken" [0; 5; 2]%N;
  mkRequirement "numpy" [1; 24; 3]%N;
  mkRequirement "tenacity" [8; 2; 3]%N;
  mkRequirement "ruff" [0; 1; 14]%N;
  mkRequirement "pytest" [8; 0; 0]%N;
  mkRequirement "pytest-asyncio" [0; 23; 5]%N;
  mkRequirement "httpx" [0; 26; 0]%N;
  mkRequirement "pytest-cov" [4; 1; 0]%N
].

#[export] Instance Requirement_eq_dec : EqDecision Requirement.
Proof. solve_decision. Defined.

#[export] Instance Line_eq_dec : EqDecision Line.
Proof. solve_decision. Defined.

(** ** Names *)

Lemma span_name_app name rest :
  Forall (λ c, is_name_char c = true) name →
  match rest with [] => True | c :: _ => is_name_char c = false end →
  span_name (name ++ rest) = (name, rest).
Proof.
  intros Hname Hrest. induction Hname as [|c name Hc _ IH]; simpl.
  - destruct rest as [|c rest]; [done|]. simpl. by rewrite Hrest.
  - by rewrite Hc, IH.
Qed.

Lemma name_char_not_hash c : is_name_char c = true → Ascii.eqb c hash = false.
Proof. by destruct c as [[] [] [] [] [] [] [] []]. Qed.

(** ** Releases *)

Lemma print_release_cons n numbers :
  numbers ≠ [] →
  print_release (n :: numbers) =
  (digit_char <$> natural_digits n) ++ dot :: print_release numbers.
Proof. by destruct numbers. Qed.

Lemma print_release_shorter n numbers :
  numbers ≠ [] → length (print_release numbers) < length (print_release (n :: numbers)).
Proof.
  intros Hne. rewrite print_release_cons, length_app by done. cbn [length]. lia.
Qed.

Lemma print_release_not_empty numbers :
  numbers ≠ [] → 0 < length (print_release numbers).
Proof.
  destruct numbers as [|n [|m numbers]]; [done| |].
  - intros _. destruct (natural_digits_head n) as (d & ds & Hd & _).
    cbn [print_release]. rewrite Hd. simpl. lia.
  - intros _. pose proof (print_release_shorter n (m :: numbers) ltac:(done)). lia.
Qed.

Lemma read_print_release fuel numbers :
  numbers ≠ [] → length (print_release numbers) ≤ fuel →
  read_release fuel (print_release numbers) = Some numbers.
Proof.
  revert fuel. induction numbers as [|n numbers IH]; intros fuel Hne Hfuel; [done|].
  pose proof (print_release_not_empty _ Hne).
  destruct fuel as [|fuel]; [lia|]. destruct numbers as [|m numbers].
  - cbn [print_release read_release].
    by rewrite <- (app_nil_r (_ <$> _)), parse_int_natural.
  - pose proof (print_release_shorter n (m :: numbers) ltac:(done)).
    rewrite print_release_cons by done. cbn [read_release].
    rewrite parse_int_natural by done. cbn [mbind option_bind].
    change (Ascii.eqb dot dot) with true. cbn match.
    rewrite IH; [done..|lia].
Qed.

(** ** Lines *)

(** Every well-formed line reads back as itself. *)
Theorem read_print_line l : line_wf l → read_line (print_line l) = Some l.
Proof.
  destruct l as [[name numbers]|text|];
    [|intros _; simpl; by rewrite String.string_of_list_ascii_of_string|done].
  intros (Hne & Hname & Hnumbers). unfold read_line, print_line.
  cbn [package release] in *.
  destruct (chars name) as [|c cs] eqn:Hchars; [by apply chars_nil in Hchars|].
  rewrite <- app_comm_cons, name_char_not_hash by by inversion Hname.
  rewrite app_comm_cons, span_name_app by done.
  change (Ascii.eqb equals equals) with true. cbn [andb].
  rewrite read_print_release by done. cbn [mbind option_bind].
  by rewrite <- Hchars, String.string_of_list_ascii_of_string.
Qed.

(** ** The file *)

(** The file reads, line by line, as the seventeen pins with one
    comment and one empty line between the thirteenth and the
    fourteenth. *)
Lemma requirements_read :
  ∃ lines, read_file requirements_txt = Some lines ∧
    pins lines = requirements ∧
    lines = (Pin <$> take 13 requirements) ++ [Blank; Hash " Testing dependencies"]
            ++ (Pin <$> drop 13 requirements).
Proof. eexists. split; [by vm_compute|]. by split. Qed.

(** What was read is written as the file: the file is in the form of
    [print_line], with nothing a reader would drop. *)
Lemma requirements_printed :
  (λ r, of_chars (print_line (Pin r))) <$> requirements =
  List.filter (λ line, bool_decide (line ≠ "" ∧ String.prefix "#" line = false))
    requirements_txt.
Proof. by vm_compute. Qed.

Lemma pin_ok_wf r : pin_ok r = true → line_wf (Pin r).
Proof.
  unfold pin_ok. intros [[Hne Hname]%andb_true_iff Hrel%bool_decide_eq_true]%andb_true_iff.
  split_and!; [|by apply forallb_Forall|done].
  intros Heq. by rewrite Heq in Hne.
Qed.

(** No package is pinned twice, and every pin is well formed. *)
Lemma requirements_pinned_once :
  NoDup (package <$> requirements) ∧ Forall (λ r, line_wf (Pin r)) requirements.
Proof.
  split; [by apply (bool_decide_unpack (NoDup (package <$> requirements)))|].
  apply Forall_forall. intros r Hr. apply pin_ok_wf.
  revert r Hr. by apply Forall_forall, forallb_Forall.
Qed.
